(** * DSA_Code (Go): singly linked list, merge sort and binary search

    A shallow embedding of

      - [go/data_structures/linked_list/linked_list.go]
      - [go/algorithms/sorting/merge_sort.go]
      - the binary search file ([FindInsertionPoint] and the other searches)

    together with the properties the specification states about them
    (C1 to C10) and further properties of the code (X1 to X30).

    Modelling conventions.

    - Go's [int] has 32 or 64 bits ([int_size]) and wraps around.  The
      inversion counter of [CountInversions] can exceed its range (it grows
      up to [n * (n - 1) / 2] for [n] elements), so every addition to it is
      [int_add], which wraps.  The other integers the programs compute are
      element counts, indices and midpoints [left + (right - left) / 2] of
      indices, all bounded by the number of live nodes or array elements,
      which fits in an [int]; they are in [Z], where their arithmetic is
      exact.  Stored values are only copied and compared.  Division is Go's
      truncating division, [Z.quot].
    - A [*Node] is an [option] of a heap location; the nodes live in a
      finite map from locations to [Node] records, and a method of
      [*LinkedList] is a function from the state before the call to the
      state after it together with the returned values.
    - A slice is a reference into a store of backing arrays.
    - A Go [string] is a [string] of bytes, ordered byte by byte.
    - A run-time panic (nil dereference, index out of range) is the outcome
      [Panic].  Loops whose termination depends on the shape of the data
      take a loop budget; exhausting it is the outcome [OutOfFuel]. *)

From Stdlib Require Import ZArith Lia ZifyNat ZifyBool.
From stdpp Require Import base option list gmap sorting strings.

Local Open Scope Z_scope.

(** [lia] also decides goals with division and remainder by constants. *)
Ltac Zify.zify_post_hook ::= Z.to_euclidean_division_equations.

(** ** Outcomes of a call *)

Inductive outcome (A : Type) : Type :=
| Done (a : A)
| Panic
| OutOfFuel.

Arguments Done {A} a.
Arguments Panic {A}.
Arguments OutOfFuel {A}.

Definition obind {A B} (m : outcome A) (k : A → outcome B) : outcome B :=
  match m with
  | Done a => k a
  | Panic => Panic
  | OutOfFuel => OutOfFuel
  end.

Notation "x ←! m ; k" := (obind m (λ x, k))
  (at level 20, m at level 100, k at level 200, right associativity,
   format "x  ←!  m ;  '/' k").
Notation "' p ←! m ; k" := (obind m (λ p, k))
  (at level 20, p pattern, m at level 100, k at level 200,
   right associativity, format "' p  ←!  m ;  '/' k").

(** [returns f need a]: the computation [f] delivers [a] exactly when its
    loop budget is at least [need], and runs out of budget otherwise. *)
Definition returns {A} (f : nat → outcome A) (need : nat) (a : A) : Prop :=
  ∀ fuel, f fuel = if decide (need ≤ fuel)%nat then Done a else OutOfFuel.

(** ** The linked list *)

Module LinkedList.

(** [*Node]: [None] is [nil]. *)
Abbreviation loc := positive (only parsing).
Abbreviation ptr := (option positive) (only parsing).

Record Node : Type := mkNode { Data : Z; Next : ptr }.

(** The node heap together with the two fields of the [LinkedList] struct. *)
Record state : Type := mkState {
  nodes : gmap loc Node;
  Head : ptr;
  Size : Z
}.

(** The three [fmt.Errorf] values of the file. *)
Inductive error : Type :=
| ErrInvalidPosition (position : Z)   (* "invalid position: %d" *)
| ErrDeleteEmpty                      (* "cannot delete from empty list" *)
| ErrEmpty.                           (* "list is empty" *)

(** The specification's two error classes. *)
Inductive error_class : Type := InvalidPosition | EmptyList.

Definition classify (e : error) : error_class :=
  match e with
  | ErrInvalidPosition _ => InvalidPosition
  | ErrDeleteEmpty | ErrEmpty => EmptyList
  end.

(** [p.Data], [p.Next]: reading through a nil pointer panics. *)
Definition load (h : gmap loc Node) (p : ptr) : outcome Node :=
  match p with
  | None => Panic
  | Some l => match h !! l with Some n => Done n | None => Panic end
  end.

(** [p.Next = nx] *)
Definition set_next (h : gmap loc Node) (p nx : ptr) : outcome (gmap loc Node) :=
  match p with
  | None => Panic
  | Some l =>
      match h !! l with
      | Some n => Done (<[l := mkNode (Data n) nx]> h)
      | None => Panic
      end
  end.

(** [&Node{...}]: a location that is not in use. *)
Definition new_node (h : gmap loc Node) (n : Node) : loc * gmap loc Node :=
  let l := fresh (dom h) in (l, <[l := n]> h).

Definition NewLinkedList : state := mkState ∅ None 0.

Definition IsEmpty (st : state) : bool := bool_decide (Head st = None).

Definition Length (st : state) : Z := Size st.

Definition Prepend (data : Z) (st : state) : outcome state :=
  let '(l, h) := new_node (nodes st) (mkNode data (Head st)) in
  Done (mkState h (Some l) (Size st + 1)).

(** [for current.Next != nil { current = current.Next }] *)
Fixpoint walk_to_last (fuel : nat) (h : gmap loc Node) (current : ptr) : outcome ptr :=
  match fuel with
  | O => OutOfFuel
  | S fuel' =>
      c ←! load h current;
      match Next c with
      | None => Done current
      | Some _ => walk_to_last fuel' h (Next c)
      end
  end.

Definition Append (data : Z) (fuel : nat) (st : state) : outcome state :=
  let '(l, h) := new_node (nodes st) (mkNode data None) in
  if IsEmpty st then Done (mkState h (Some l) (Size st + 1))
  else
    current ←! walk_to_last fuel h (Head st);
    h' ←! set_next h current (Some l);
    Done (mkState h' (Head st) (Size st + 1)).

(** [for i := 0; i < n; i++ { current = current.Next }] *)
Fixpoint advance (n : nat) (h : gmap loc Node) (current : ptr) : outcome ptr :=
  match n with
  | O => Done current
  | S n' => c ←! load h current; advance n' h (Next c)
  end.

Definition InsertAt (data position : Z) (st : state) : outcome (state * option error) :=
  if (position <? 0) || (position >? Size st) then
    Done (st, Some (ErrInvalidPosition position))
  else if position =? 0 then
    st' ←! Prepend data st; Done (st', None)
  else
    let '(l, h) := new_node (nodes st) (mkNode data None) in
    current ←! advance (Z.to_nat (position - 1)) h (Head st);
    c ←! load h current;
    h1 ←! set_next h (Some l) (Next c);
    h2 ←! set_next h1 current (Some l);
    Done (mkState h2 (Head st) (Size st + 1), None).

Definition DeleteFirst (st : state) : outcome (state * (Z * option error)) :=
  if IsEmpty st then Done (st, (0, Some ErrDeleteEmpty))
  else
    hd ←! load (nodes st) (Head st);
    Done (mkState (nodes st) (Next hd) (Size st - 1), (Data hd, None)).

(** [for current.Next.Next != nil { current = current.Next }] *)
Fixpoint walk_to_second_last (fuel : nat) (h : gmap loc Node) (current : ptr)
  : outcome ptr :=
  match fuel with
  | O => OutOfFuel
  | S fuel' =>
      c ←! load h current;
      n ←! load h (Next c);
      match Next n with
      | None => Done current
      | Some _ => walk_to_second_last fuel' h (Next c)
      end
  end.

Definition DeleteLast (fuel : nat) (st : state) : outcome (state * (Z * option error)) :=
  if IsEmpty st then Done (st, (0, Some ErrDeleteEmpty))
  else
    hd ←! load (nodes st) (Head st);
    match Next hd with
    | None => Done (mkState (nodes st) None (Size st - 1), (Data hd, None))
    | Some _ =>
        current ←! walk_to_second_last fuel (nodes st) (Head st);
        c ←! load (nodes st) current;
        n ←! load (nodes st) (Next c);
        h' ←! set_next (nodes st) current None;
        Done (mkState h' (Head st) (Size st - 1), (Data n, None))
    end.

Definition DeleteAt (position : Z) (st : state) : outcome (state * (Z * option error)) :=
  if (position <? 0) || (position >=? Size st) then
    Done (st, (0, Some (ErrInvalidPosition position)))
  else if position =? 0 then DeleteFirst st
  else
    current ←! advance (Z.to_nat (position - 1)) (nodes st) (Head st);
    c ←! load (nodes st) current;
    n ←! load (nodes st) (Next c);
    h' ←! set_next (nodes st) current (Next n);
    Done (mkState h' (Head st) (Size st - 1), (Data n, None)).

(** The loop of [DeleteByValue], entered with [current = ll.Head]. *)
Fixpoint delete_scan (fuel : nat) (value : Z) (st : state) (current : ptr)
  : outcome (state * bool) :=
  match fuel with
  | O => OutOfFuel
  | S fuel' =>
      c ←! load (nodes st) current;
      match Next c with
      | None => Done (st, false)
      | Some _ =>
          n ←! load (nodes st) (Next c);
          if Data n =? value then
            h' ←! set_next (nodes st) current (Next n);
            Done (mkState h' (Head st) (Size st - 1), true)
          else delete_scan fuel' value st (Next c)
      end
  end.

Definition DeleteByValue (value : Z) (fuel : nat) (st : state) : outcome (state * bool) :=
  if IsEmpty st then Done (st, false)
  else
    hd ←! load (nodes st) (Head st);
    if Data hd =? value then
      '(st', _) ←! DeleteFirst st; Done (st', true)
    else delete_scan fuel value st (Head st).

(** The loop of [Search]. *)
Fixpoint search_scan (fuel : nat) (value : Z) (h : gmap loc Node) (current : ptr)
    (index : Z) : outcome Z :=
  match fuel with
  | O => OutOfFuel
  | S fuel' =>
      match current with
      | None => Done (-1)
      | Some _ =>
          c ←! load h current;
          if Data c =? value then Done index
          else search_scan fuel' value h (Next c) (index + 1)
      end
  end.

Definition Search (value : Z) (fuel : nat) (st : state) : outcome (state * Z) :=
  index ←! search_scan fuel value (nodes st) (Head st) 0;
  Done (st, index).

Definition Get (position : Z) (st : state) : outcome (state * (Z * option error)) :=
  if (position <? 0) || (position >=? Size st) then
    Done (st, (0, Some (ErrInvalidPosition position)))
  else
    current ←! advance (Z.to_nat position) (nodes st) (Head st);
    c ←! load (nodes st) current;
    Done (st, (Data c, None)).

(** The loop of [Reverse]; it yields the heap and the final [prev]. *)
Fixpoint reverse_loop (fuel : nat) (h : gmap loc Node) (prev current : ptr)
  : outcome (gmap loc Node * ptr) :=
  match fuel with
  | O => OutOfFuel
  | S fuel' =>
      match current with
      | None => Done (h, prev)
      | Some _ =>
          c ←! load h current;
          h' ←! set_next h current prev;
          reverse_loop fuel' h' current (Next c)
      end
  end.

Definition Reverse (fuel : nat) (st : state) : outcome state :=
  '(h, prev) ←! reverse_loop fuel (nodes st) None (Head st);
  Done (mkState h prev (Size st)).

(** [for fast != nil && fast.Next != nil { slow = slow.Next; fast = fast.Next.Next }] *)
Fixpoint middle_loop (fuel : nat) (h : gmap loc Node) (slow fast : ptr) : outcome ptr :=
  match fuel with
  | O => OutOfFuel
  | S fuel' =>
      match fast with
      | None => Done slow
      | Some _ =>
          f ←! load h fast;
          match Next f with
          | None => Done slow
          | Some _ =>
              s ←! load h slow;
              f' ←! load h (Next f);
              middle_loop fuel' h (Next s) (Next f')
          end
      end
  end.

Definition FindMiddle (fuel : nat) (st : state) : outcome (state * (Z * option error)) :=
  if IsEmpty st then Done (st, (0, Some ErrEmpty))
  else
    slow ←! middle_loop fuel (nodes st) (Head st) (Head st);
    s ←! load (nodes st) slow;
    Done (st, (Data s, None)).

(** The loop of [HasCycle]; [slow == fast] compares the two pointers. *)
Fixpoint cycle_loop (fuel : nat) (h : gmap loc Node) (slow fast : ptr) : outcome bool :=
  match fuel with
  | O => OutOfFuel
  | S fuel' =>
      match fast with
      | None => Done false
      | Some _ =>
          f ←! load h fast;
          match Next f with
          | None => Done false
          | Some _ =>
              s ←! load h slow;
              f' ←! load h (Next f);
              if bool_decide (Next s = Next f') then Done true
              else cycle_loop fuel' h (Next s) (Next f')
          end
      end
  end.

Definition HasCycle (fuel : nat) (st : state) : outcome (state * bool) :=
  if IsEmpty st then Done (st, false)
  else
    b ←! cycle_loop fuel (nodes st) (Head st) (Head st);
    Done (st, b).

(** [seen[k]] on a [map[int]bool]: a missing key reads as [false]. *)
Definition seen_get (seen : gmap Z bool) (k : Z) : bool := default false (seen !! k).

(** The loop of [RemoveDuplicates]; it yields the heap and the count. *)
Fixpoint dedup_loop (fuel : nat) (h : gmap loc Node) (size : Z)
    (seen : gmap Z bool) (current : ptr) : outcome (gmap loc Node * Z) :=
  match fuel with
  | O => OutOfFuel
  | S fuel' =>
      c ←! load h current;
      match Next c with
      | None => Done (h, size)
      | Some _ =>
          n ←! load h (Next c);
          if seen_get seen (Data n) then
            h' ←! set_next h current (Next n);
            dedup_loop fuel' h' (size - 1) seen current
          else
            dedup_loop fuel' h size (<[Data n := true]> seen) (Next c)
      end
  end.

Definition RemoveDuplicates (fuel : nat) (st : state) : outcome state :=
  if IsEmpty st then Done st
  else
    hd ←! load (nodes st) (Head st);
    '(h, size) ←! dedup_loop fuel (nodes st) (Size st) (<[Data hd := true]> ∅) (Head st);
    Done (mkState h (Head st) size).

(** The loop of [ToSlice]: [result = append(result, current.Data)]. *)
Fixpoint slice_loop (fuel : nat) (h : gmap loc Node) (result : list Z) (current : ptr)
  : outcome (list Z) :=
  match fuel with
  | O => OutOfFuel
  | S fuel' =>
      match current with
      | None => Done result
      | Some _ =>
          c ←! load h current;
          slice_loop fuel' h (result ++ [Data c]) (Next c)
      end
  end.

(** [make([]int, 0, ll.Size)] panics on a negative capacity. *)
Definition ToSlice (fuel : nat) (st : state) : outcome (state * list Z) :=
  if Size st <? 0 then Panic
  else
    result ←! slice_loop fuel (nodes st) [] (Head st);
    Done (st, result).

Definition Clear (st : state) : outcome state :=
  Done (mkState (nodes st) None 0).

(** *** Abstraction: the chain of nodes a pointer leads to *)

(** [lseg h p cells q]: following [Next] from [p] visits exactly the nodes
    [cells] (location and stored value, in order) and then arrives at [q]. *)
Fixpoint lseg (h : gmap loc Node) (p : ptr) (cells : list (loc * Z)) (q : ptr) : Prop :=
  match cells with
  | [] => p = q
  | (l, v) :: cells' =>
      p = Some l ∧ ∃ nx, h !! l = Some (mkNode v nx) ∧ lseg h nx cells' q
  end.

(** The pointer to the node of index [k] of a nil-terminated chain; nil at
    and beyond its end. *)
Definition ptr_at (cells : list (loc * Z)) (k : nat) : ptr := fst <$> cells !! k.

(** Duplicate removal as the specification words it: going from head to
    tail, a node is kept when its value is not among the values met
    earlier. *)
Fixpoint unseen_only (earlier : list Z) (cells : list (loc * Z)) : list (loc * Z) :=
  match cells with
  | [] => []
  | (l, v) :: cells' =>
      if decide (v ∈ earlier) then unseen_only earlier cells'
      else (l, v) :: unseen_only (v :: earlier) cells'
  end.

Definition first_occurrences (cells : list (loc * Z)) : list (loc * Z) :=
  unseen_only [] cells.

(** The index of the first element equal to [value], or the sentinel -1. *)
Definition first_index (value : Z) (vs : list Z) : Z :=
  match list_find (λ v, v = value) vs with
  | Some (i, _) => Z.of_nat i
  | None => -1
  end.

(** An acyclic list state: the chain from [Head] ends in nil, and [Size]
    caches its length. *)
Definition is_list (st : state) (cells : list (loc * Z)) : Prop :=
  lseg (nodes st) (Head st) cells None ∧ Size st = Z.of_nat (length cells).

(** The data-model invariant of the specification. *)
Definition invariant (st : state) : Prop :=
  ∃ cells, lseg (nodes st) (Head st) cells None
           ∧ Size st = Z.of_nat (length cells)
           ∧ (Head st = None ↔ Size st = 0).

(** One completed call of a public operation. *)
Inductive op_step (st st' : state) : Prop :=
| step_Prepend data : Prepend data st = Done st' → op_step st st'
| step_Append data fuel : Append data fuel st = Done st' → op_step st st'
| step_InsertAt data position e :
    InsertAt data position st = Done (st', e) → op_step st st'
| step_DeleteFirst r : DeleteFirst st = Done (st', r) → op_step st st'
| step_DeleteLast fuel r : DeleteLast fuel st = Done (st', r) → op_step st st'
| step_DeleteAt position r : DeleteAt position st = Done (st', r) → op_step st st'
| step_DeleteByValue value fuel b :
    DeleteByValue value fuel st = Done (st', b) → op_step st st'
| step_Reverse fuel : Reverse fuel st = Done st' → op_step st st'
| step_RemoveDuplicates fuel : RemoveDuplicates fuel st = Done st' → op_step st st'
| step_Clear : Clear st = Done st' → op_step st st'.

Inductive reachable : state → Prop :=
| reachable_new : reachable NewLinkedList
| reachable_step st st' : reachable st → op_step st st' → reachable st'.

(** One completed call of an insertion. *)
Inductive insert_step (st st' : state) : Prop :=
| ins_Prepend data : Prepend data st = Done st' → insert_step st st'
| ins_Append data fuel : Append data fuel st = Done st' → insert_step st st'
| ins_InsertAt data position :
    InsertAt data position st = Done (st', None) → insert_step st st'.

Inductive built : state → Prop :=
| built_new : built NewLinkedList
| built_step st st' : built st → insert_step st st' → built st'.

(** A call that can return an error, and its outcome: the state after the
    call and the returned [error] ([None] is Go's nil). *)
Inductive fallible_call : Type :=
| CallInsertAt (data position : Z)
| CallDeleteFirst
| CallDeleteLast
| CallDeleteAt (position : Z)
| CallGet (position : Z)
| CallFindMiddle.

Definition call (c : fallible_call) (fuel : nat) (st : state)
  : outcome (state * option error) :=
  match c with
  | CallInsertAt data position => InsertAt data position st
  | CallDeleteFirst => '(st', (_, e)) ←! DeleteFirst st; Done (st', e)
  | CallDeleteLast => '(st', (_, e)) ←! DeleteLast fuel st; Done (st', e)
  | CallDeleteAt position => '(st', (_, e)) ←! DeleteAt position st; Done (st', e)
  | CallGet position => '(st', (_, e)) ←! Get position st; Done (st', e)
  | CallFindMiddle => '(st', (_, e)) ←! FindMiddle fuel st; Done (st', e)
  end.

(** The state a completed call leaves, [NewLinkedList] if it did not
    complete. *)
Definition state_of (o : outcome state) : state :=
  match o with Done st => st | _ => NewLinkedList end.

(** The list with the given values, made by appending them in order. *)
Definition of_values (vs : list Z) : outcome state :=
  foldl (λ acc v, st ←! acc; Append v (length vs) st) (Done NewLinkedList) vs.

(** Sample lists. *)
Definition list_7 : state := state_of (Prepend 7 NewLinkedList).
Definition list_7_8 : state := state_of (Append 8 1 list_7).
Definition list_1 : state := state_of (of_values [1]).
Definition list_1234 : state := state_of (of_values [1; 2; 3; 4]).
Definition list_dups : state := state_of (of_values [1; 2; 2; 3; 3; 3; 4; 5; 5]).

(** The nodes left when the first one holding [value] is taken out. *)
Fixpoint remove_first (value : Z) (cells : list (loc * Z)) : list (loc * Z) :=
  match cells with
  | [] => []
  | (l, v) :: cells' =>
      if decide (v = value) then cells' else (l, v) :: remove_first value cells'
  end.

(** A list whose third node points back to its second one, as
    [ll.Head.Next.Next.Next = ll.Head.Next] leaves it. *)
Definition list_looping : state :=
  mkState (<[3%positive := mkNode 3 (Some 2%positive)]>
             (<[2%positive := mkNode 2 (Some 3%positive)]>
                (<[1%positive := mkNode 1 (Some 2%positive)]> ∅)))
          (Some 1%positive) 3.

(** The list [st] is acyclic and the values of its nodes, from head to
    tail, are [vs]. *)
Definition holds (st : state) (vs : list Z) : Prop :=
  ∃ cells, is_list st cells ∧ cells.*2 = vs.

(** The node met after [n] steps along a chain that runs through [pre]
    into the loop [c :: cyc]. *)
Definition lasso_at (pre : list (loc * Z)) (c : loc * Z) (cyc : list (loc * Z))
    (n : nat) : loc * Z :=
  if decide (n < length pre)%nat then default c (pre !! n)
  else default c ((c :: cyc) !! ((n - length pre) mod S (length cyc))%nat).

End LinkedList.

(** ** Arrays and slices *)

(** [a[i]] and [a[i] = x] on the elements a slice gives access to; an index
    outside [0, len(a)) panics. *)
Definition index {A} (a : list A) (i : Z) : outcome A :=
  if (0 <=? i) && (i <? Z.of_nat (length a)) then
    match a !! Z.to_nat i with Some x => Done x | None => Panic end
  else Panic.

Definition assign {A} (a : list A) (i : Z) (x : A) : outcome (list A) :=
  if (0 <=? i) && (i <? Z.of_nat (length a)) then Done (<[Z.to_nat i := x]> a)
  else Panic.

(** [make([]T, n)]: [n] zero values; a negative length panics. *)
Definition make {A} (zero : A) (n : Z) : outcome (list A) :=
  if n <? 0 then Panic else Done (replicate (Z.to_nat n) zero).

(** [a[lo:hi]]: the bounds must satisfy [0 <= lo <= hi <= len(a)]. *)
Definition subslice {A} (a : list A) (lo hi : Z) : outcome (list A) :=
  if (0 <=? lo) && (lo <=? hi) && (hi <=? Z.of_nat (length a)) then
    Done (take (Z.to_nat (hi - lo)) (drop (Z.to_nat lo) a))
  else Panic.

(** [copy(dst, src)] copies [min(len(dst), len(src))] elements. *)
Definition copy {A} (dst src : list A) : list A :=
  take (length dst) src ++ drop (length src) dst.

(** A slice value: the backing array it points into, the offset of its
    first element and its length. *)
Record slice : Type := mkSlice { base : positive; off : nat; len : nat }.

(** The elements of a slice in a store of backing arrays. *)
Definition elements_of {A} (m : gmap positive (list A)) (s : slice) : outcome (list A) :=
  match m !! base s with
  | Some b =>
      if decide (off s + len s ≤ length b)%nat then Done (take (len s) (drop (off s) b))
      else Panic
  | None => Panic
  end.

(** ** Go's [int] *)

(** Go's [int] has 32 or 64 bits, depending on the platform the program is
    built for, and its arithmetic wraps around silently. *)
Inductive int_size : Type := Int32 | Int64.

Definition int_bits (sz : int_size) : Z :=
  match sz with Int32 => 32 | Int64 => 64 end.

Definition max_int (sz : int_size) : Z := 2 ^ (int_bits sz - 1) - 1.
Definition min_int (sz : int_size) : Z := - 2 ^ (int_bits sz - 1).

(** The [int] that holds the low bits of [x], in two's complement. *)
Definition wrap (sz : int_size) (x : Z) : Z :=
  (x + 2 ^ (int_bits sz - 1)) `mod` 2 ^ int_bits sz - 2 ^ (int_bits sz - 1).

(** [a + b] on [int]. *)
Definition int_add (sz : int_size) (a b : Z) : Z := wrap sz (a + b).

(** ** Merge sort *)

Module MergeSort.

(** The sorting functions compare elements with [<=] and otherwise only copy
    them.  The embedding makes this explicit: elements have any type [A] and
    are compared through an integer [key], so that elements with equal keys
    stay distinguishable; [MergeSort] and [CountInversions] are the instances
    where the element is its own key. *)
Section Generic.
Context {A : Type} (key : A → Z) (zero : A).

(** The first loop of [merge], from the state [(arr, i, j, k)]. *)
Fixpoint merge_loop (fuel : nat) (leftArr rightArr : list A) (leftSize rightSize : Z)
    (arr : list A) (i j k : Z) : outcome (list A * Z * Z * Z) :=
  match fuel with
  | O => OutOfFuel
  | S fuel' =>
      if (i <? leftSize) && (j <? rightSize) then
        x ←! index leftArr i;
        y ←! index rightArr j;
        if key x <=? key y then
          arr' ←! assign arr k x;
          merge_loop fuel' leftArr rightArr leftSize rightSize arr' (i + 1) j (k + 1)
        else
          arr' ←! assign arr k y;
          merge_loop fuel' leftArr rightArr leftSize rightSize arr' i (j + 1) (k + 1)
      else Done (arr, i, j, k)
  end.

(** [for i < size { arr[k] = src[i]; i++; k++ }] *)
Fixpoint copy_rest (fuel : nat) (src : list A) (size : Z) (arr : list A) (i k : Z)
  : outcome (list A * Z * Z) :=
  match fuel with
  | O => OutOfFuel
  | S fuel' =>
      if i <? size then
        x ←! index src i;
        arr' ←! assign arr k x;
        copy_rest fuel' src size arr' (i + 1) (k + 1)
      else Done (arr, i, k)
  end.

Definition merge (fuel : nat) (arr : list A) (left mid right : Z) : outcome (list A) :=
  let leftSize := mid - left + 1 in
  let rightSize := right - mid in
  l0 ←! make zero leftSize;
  r0 ←! make zero rightSize;
  ls ←! subslice arr left (mid + 1);
  let leftArr := copy l0 ls in
  rs ←! subslice arr (mid + 1) (right + 1);
  let rightArr := copy r0 rs in
  '(arr1, i, j, k) ←! merge_loop fuel leftArr rightArr leftSize rightSize arr 0 0 left;
  '(arr2, _, k) ←! copy_rest fuel leftArr leftSize arr1 i k;
  '(arr3, _, _) ←! copy_rest fuel rightArr rightSize arr2 j k;
  Done arr3.

Fixpoint mergeSortHelper (fuel : nat) (arr : list A) (left right : Z) : outcome (list A) :=
  match fuel with
  | O => OutOfFuel
  | S fuel' =>
      if left <? right then
        let mid := left + (right - left) `quot` 2 in
        arr1 ←! mergeSortHelper fuel' arr left mid;
        arr2 ←! mergeSortHelper fuel' arr1 (mid + 1) right;
        merge fuel arr2 left mid right
      else Done arr
  end.

(** [MergeSort]: a slice of at most one element is returned as it is;
    otherwise the elements are copied into a newly made array, which is
    sorted in place and returned. *)
Definition MergeSortBy (fuel : nat) (m : gmap positive (list A)) (arr : slice)
  : outcome (gmap positive (list A) * slice) :=
  a ←! elements_of m arr;
  if Z.of_nat (length a) <=? 1 then Done (m, arr)
  else
    r0 ←! make zero (Z.of_nat (length a));
    let result := copy r0 a in
    sorted ←! mergeSortHelper fuel result 0 (Z.of_nat (length result) - 1);
    let r := fresh (dom m) in
    Done (<[r := sorted]> m, mkSlice r 0 (length sorted)).

(** The first loop of [mergeAndCount], from the state
    [(arr, i, j, k, inversions)]; [inversions] is an [int] of the size [sz]
    and [inversions += len(leftArr) - i] wraps around. *)
Fixpoint count_loop (sz : int_size) (fuel : nat) (leftArr rightArr : list A)
    (arr : list A) (i j k inversions : Z) : outcome (list A * Z * Z * Z * Z) :=
  match fuel with
  | O => OutOfFuel
  | S fuel' =>
      if (i <? Z.of_nat (length leftArr)) && (j <? Z.of_nat (length rightArr)) then
        x ←! index leftArr i;
        y ←! index rightArr j;
        if key x <=? key y then
          arr' ←! assign arr k x;
          count_loop sz fuel' leftArr rightArr arr' (i + 1) j (k + 1) inversions
        else
          arr' ←! assign arr k y;
          count_loop sz fuel' leftArr rightArr arr' i (j + 1) (k + 1)
            (int_add sz inversions (Z.of_nat (length leftArr) - i))
      else Done (arr, i, j, k, inversions)
  end.

Definition mergeAndCount (sz : int_size) (fuel : nat) (arr : list A)
    (left mid right : Z) : outcome (list A * Z) :=
  l0 ←! make zero (mid - left + 1);
  r0 ←! make zero (right - mid);
  ls ←! subslice arr left (mid + 1);
  let leftArr := copy l0 ls in
  rs ←! subslice arr (mid + 1) (right + 1);
  let rightArr := copy r0 rs in
  '(arr1, i, j, k, inversions) ←! count_loop sz fuel leftArr rightArr arr 0 0 left 0;
  '(arr2, _, k) ←! copy_rest fuel leftArr (Z.of_nat (length leftArr)) arr1 i k;
  '(arr3, _, _) ←! copy_rest fuel rightArr (Z.of_nat (length rightArr)) arr2 j k;
  Done (arr3, inversions).

(** [inversions := 0], then three times [inversions += ...] on [int]. *)
Fixpoint countInversionsHelper (sz : int_size) (fuel : nat) (arr : list A)
    (left right : Z) : outcome (list A * Z) :=
  match fuel with
  | O => OutOfFuel
  | S fuel' =>
      if left <? right then
        let mid := left + (right - left) `quot` 2 in
        '(arr1, n1) ←! countInversionsHelper sz fuel' arr left mid;
        '(arr2, n2) ←! countInversionsHelper sz fuel' arr1 (mid + 1) right;
        '(arr3, n3) ←! mergeAndCount sz fuel arr2 left mid right;
        Done (arr3, int_add sz (int_add sz (int_add sz 0 n1) n2) n3)
      else Done (arr, 0)
  end.

Definition CountInversionsBy (sz : int_size) (fuel : nat) (m : gmap positive (list A))
    (arr : slice) : outcome (gmap positive (list A) * slice * Z) :=
  a ←! elements_of m arr;
  r0 ←! make zero (Z.of_nat (length a));
  let result := copy r0 a in
  '(sorted, inversions) ←!
    countInversionsHelper sz fuel result 0 (Z.of_nat (length result) - 1);
  let r := fresh (dom m) in
  Done (<[r := sorted]> m, mkSlice r 0 (length sorted), inversions).

(** *** What sorting means *)

(** Non-descending order of the keys. *)
Definition key_le (a b : A) : Prop := key a ≤ key b.

#[global] Instance key_le_dec a b : Decision (key_le a b).
Proof. unfold key_le. apply _. Defined.

Definition sorted (l : list A) : Prop := Sorted key_le l.

(** The elements whose key is [k], in the order in which they occur. *)
Definition with_key (k : Z) (l : list A) : list A := filter (λ a, key a = k) l.

(** [out] is [inp] sorted stably: non-descending, and for every key the
    elements carrying it appear in [out] in the same order as in [inp]. *)
Definition stable_sort_of (inp out : list A) : Prop :=
  sorted out ∧ out ≡ₚ inp ∧ ∀ k, with_key k out = with_key k inp.

(** [(i, j)] is an inversion of [l]: [i < j] and the element at [i] exceeds
    the one at [j]. *)
Definition is_inversion (l : list A) (p : nat * nat) : Prop :=
  (p.1 < p.2)%nat ∧
  match l !! p.1, l !! p.2 with
  | Some x, Some y => key y < key x
  | _, _ => False
  end.

#[global] Instance is_inversion_dec l p : Decision (is_inversion l p).
Proof.
  unfold is_inversion. destruct (l !! p.1), (l !! p.2); apply _.
Defined.

(** The number of inversions of [l]: the pairs of positions that are
    inversions, counted. *)
Definition inversions (l : list A) : nat :=
  length (filter (is_inversion l) (list_prod (seq 0 (length l)) (seq 0 (length l)))).

(** How many elements of [l] are smaller than [x]. *)
Definition smaller_count (x : A) (l : list A) : nat :=
  length (filter (λ y, key y < key x) l).

(** Inversions, element by element: each element is counted with the
    smaller elements that follow it. *)
Fixpoint inversions_from (l : list A) : nat :=
  match l with
  | [] => 0%nat
  | x :: l' => (smaller_count x l' + inversions_from l')%nat
  end.

(** Pairs of an element of [l1] and a smaller element of [l2]. *)
Definition cross_inversions (l1 l2 : list A) : nat :=
  sum_list_with (λ x, smaller_count x l2) l1.

(** Merging two lists, taking from the left one on ties. *)
Definition merge_lists : list A → list A → list A := list_merge key_le.

(** What the merge adds to the inversion counter: each element taken from
    the right list counts the elements still waiting in the left one. *)
Fixpoint merge_count (l1 : list A) : list A → nat :=
  fix go (l2 : list A) : nat :=
    match l1, l2 with
    | [], _ | _, [] => 0%nat
    | x1 :: l1', x2 :: l2' =>
        if decide (key_le x1 x2) then merge_count l1' l2
        else (length l1 + go l2')%nat
    end.

End Generic.

(** The two functions of the file on [[]int]. *)
Definition MergeSort := MergeSortBy (A := Z) (λ x, x) 0.
Definition CountInversions := CountInversionsBy (A := Z) (λ x, x) 0.

(** [MergeTwoSortedArrays]: the result array is made by the call; the two
    inputs are only read. *)
Definition MergeTwoSortedArraysBy {A} (key : A → Z) (zero : A) (fuel : nat)
    (arr1 arr2 : list A) : outcome (list A) :=
  result ←! make zero (Z.of_nat (length arr1) + Z.of_nat (length arr2));
  '(r1, i, j, k) ←!
    merge_loop key fuel arr1 arr2 (Z.of_nat (length arr1)) (Z.of_nat (length arr2))
      result 0 0 0;
  '(r2, _, k) ←! copy_rest fuel arr1 (Z.of_nat (length arr1)) r1 i k;
  '(r3, _, _) ←! copy_rest fuel arr2 (Z.of_nat (length arr2)) r2 j k;
  Done r3.

Definition MergeTwoSortedArrays := MergeTwoSortedArraysBy (A := Z) (λ x, x) 0.

(** [for i := range a { if a[i] != b[i] { return false } }], with [n]
    indices still to visit from [i] on. *)
Fixpoint equal_from (n : nat) (a b : list Z) (i : Z) : outcome bool :=
  match n with
  | O => Done true
  | S n' =>
      x ←! index a i;
      y ←! index b i;
      if negb (x =? y) then Done false else equal_from n' a b (i + 1)
  end.

(** [slicesEqual]; [sliceEqual] of the linked list file is the same code. *)
Definition slicesEqual (a b : list Z) : outcome bool :=
  if negb (Z.of_nat (length a) =? Z.of_nat (length b)) then Done false
  else equal_from (length a) a b 0.

(** [for i := 1; i < len(arr); i++ { if arr[i] < arr[i-1] { return false } }],
    with [n] indices still to visit from [i] on. *)
Fixpoint ordered_from (n : nat) (arr : list Z) (i : Z) : outcome bool :=
  match n with
  | O => Done true
  | S n' =>
      x ←! index arr i;
      y ←! index arr (i - 1);
      if x <? y then Done false else ordered_from n' arr (i + 1)
  end.

Definition isSorted (arr : list Z) : outcome bool :=
  ordered_from (Z.to_nat (Z.of_nat (length arr) - 1)) arr 1.

(** *** Sorting strings *)

(** Go orders strings byte by byte, a proper prefix before the longer
    string; so does [String.leb]. *)
Definition string_le (a b : string) : Prop := String.leb a b = true.

#[global] Instance string_le_dec a b : Decision (string_le a b).
Proof. unfold string_le. apply _. Defined.

(** The first loop of [mergeStrings], from the state [(arr, i, j, k)]. *)
Fixpoint strings_loop (fuel : nat) (leftArr rightArr arr : list string) (i j k : Z)
  : outcome (list string * Z * Z * Z) :=
  match fuel with
  | O => OutOfFuel
  | S fuel' =>
      if (i <? Z.of_nat (length leftArr)) && (j <? Z.of_nat (length rightArr)) then
        x ←! index leftArr i;
        y ←! index rightArr j;
        if String.leb x y then
          arr' ←! assign arr k x;
          strings_loop fuel' leftArr rightArr arr' (i + 1) j (k + 1)
        else
          arr' ←! assign arr k y;
          strings_loop fuel' leftArr rightArr arr' i (j + 1) (k + 1)
      else Done (arr, i, j, k)
  end.

Definition mergeStrings (fuel : nat) (arr : list string) (left mid right : Z)
  : outcome (list string) :=
  l0 ←! make EmptyString (mid - left + 1);
  r0 ←! make EmptyString (right - mid);
  ls ←! subslice arr left (mid + 1);
  let leftArr := copy l0 ls in
  rs ←! subslice arr (mid + 1) (right + 1);
  let rightArr := copy r0 rs in
  '(arr1, i, j, k) ←! strings_loop fuel leftArr rightArr arr 0 0 left;
  '(arr2, _, k) ←! copy_rest fuel leftArr (Z.of_nat (length leftArr)) arr1 i k;
  '(arr3, _, _) ←! copy_rest fuel rightArr (Z.of_nat (length rightArr)) arr2 j k;
  Done arr3.

Fixpoint mergeSortStringsHelper (fuel : nat) (arr : list string) (left right : Z)
  : outcome (list string) :=
  match fuel with
  | O => OutOfFuel
  | S fuel' =>
      if left <? right then
        let mid := left + (right - left) `quot` 2 in
        arr1 ←! mergeSortStringsHelper fuel' arr left mid;
        arr2 ←! mergeSortStringsHelper fuel' arr1 (mid + 1) right;
        mergeStrings fuel arr2 left mid right
      else Done arr
  end.

Definition MergeSortStrings (fuel : nat) (m : gmap positive (list string)) (arr : slice)
  : outcome (gmap positive (list string) * slice) :=
  a ←! elements_of m arr;
  if Z.of_nat (length a) <=? 1 then Done (m, arr)
  else
    r0 ←! make EmptyString (Z.of_nat (length a));
    let result := copy r0 a in
    sorted ←! mergeSortStringsHelper fuel result 0 (Z.of_nat (length result) - 1);
    let r := fresh (dom m) in
    Done (<[r := sorted]> m, mkSlice r 0 (length sorted)).

(** The loop of [stringSlicesEqual], with [n] indices still to visit from
    [i] on. *)
Fixpoint strings_equal_from (n : nat) (a b : list string) (i : Z) : outcome bool :=
  match n with
  | O => Done true
  | S n' =>
      x ←! index a i;
      y ←! index b i;
      if negb (String.eqb x y) then Done false else strings_equal_from n' a b (i + 1)
  end.

Definition stringSlicesEqual (a b : list string) : outcome bool :=
  if negb (Z.of_nat (length a) =? Z.of_nat (length b)) then Done false
  else strings_equal_from (length a) a b 0.

(** The array of the test on strings. *)
Definition store_test5 : gmap positive (list string) :=
  {[ 1%positive := ["banana"; "apple"; "cherry"; "date"]%string ]}.

(** Sample stores: a one-element array, the arrays of the inversion test
    and of the test on sorted input, and an array of values tagged with their original position, compared
    by value. *)
Definition store_42 : gmap positive (list Z) := {[ 1%positive := [42] ]}.
Definition store_test6 : gmap positive (list Z) := {[ 1%positive := [2; 3; 8; 6; 1] ]}.
Definition store_test2 : gmap positive (list Z) := {[ 1%positive := [1; 2; 3; 4; 5] ]}.

(** 65536 ones followed by 65536 zeros, and a store holding this array. *)
Definition ones_zeros : list Z :=
  replicate (Z.to_nat 65536) 1 ++ replicate (Z.to_nat 65536) 0.
Definition store_ones_zeros : gmap positive (list Z) := {[ 1%positive := ones_zeros ]}.
Definition store_tagged : gmap positive (list (Z * nat)) :=
  {[ 1%positive := [(2, 0%nat); (1, 1%nat); (2, 2%nat); (1, 3%nat)] ]}.

End MergeSort.

(** ** Binary search: the insertion point *)

Module BinarySearch.

(** The loop of [FindInsertionPoint], from the state [(left, right)]. *)
Fixpoint insertion_loop (fuel : nat) (arr : list Z) (target left right : Z) : outcome Z :=
  match fuel with
  | O => OutOfFuel
  | S fuel' =>
      if left <? right then
        let mid := left + (right - left) `quot` 2 in
        x ←! index arr mid;
        if x <? target then insertion_loop fuel' arr target (mid + 1) right
        else insertion_loop fuel' arr target left mid
      else Done left
  end.

Definition FindInsertionPoint (fuel : nat) (arr : list Z) (target : Z) : outcome Z :=
  insertion_loop fuel arr target 0 (Z.of_nat (length arr)).

(** The loop of [BinarySearchIterative], from the state [(left, right)]. *)
Fixpoint search_loop (fuel : nat) (arr : list Z) (target left right : Z) : outcome Z :=
  match fuel with
  | O => OutOfFuel
  | S fuel' =>
      if left <=? right then
        let mid := left + (right - left) `quot` 2 in
        x ←! index arr mid;
        if x =? target then Done mid
        else if x <? target then search_loop fuel' arr target (mid + 1) right
        else search_loop fuel' arr target left (mid - 1)
      else Done (-1)
  end.

Definition BinarySearchIterative (fuel : nat) (arr : list Z) (target : Z) : outcome Z :=
  search_loop fuel arr target 0 (Z.of_nat (length arr) - 1).

(** The budget bounds the depth of the recursion. *)
Fixpoint binarySearchRecursiveHelper (fuel : nat) (arr : list Z) (target left right : Z)
  : outcome Z :=
  match fuel with
  | O => OutOfFuel
  | S fuel' =>
      if left >? right then Done (-1)
      else
        let mid := left + (right - left) `quot` 2 in
        x ←! index arr mid;
        if x =? target then Done mid
        else if x <? target then
          binarySearchRecursiveHelper fuel' arr target (mid + 1) right
        else binarySearchRecursiveHelper fuel' arr target left (mid - 1)
  end.

Definition BinarySearchRecursive (fuel : nat) (arr : list Z) (target : Z) : outcome Z :=
  binarySearchRecursiveHelper fuel arr target 0 (Z.of_nat (length arr) - 1).

(** The loop of [FindFirstOccurrence], from the state [(left, right, result)]. *)
Fixpoint first_loop (fuel : nat) (arr : list Z) (target left right result : Z)
  : outcome Z :=
  match fuel with
  | O => OutOfFuel
  | S fuel' =>
      if left <=? right then
        let mid := left + (right - left) `quot` 2 in
        x ←! index arr mid;
        if x =? target then first_loop fuel' arr target left (mid - 1) mid
        else if x <? target then first_loop fuel' arr target (mid + 1) right result
        else first_loop fuel' arr target left (mid - 1) result
      else Done result
  end.

Definition FindFirstOccurrence (fuel : nat) (arr : list Z) (target : Z) : outcome Z :=
  first_loop fuel arr target 0 (Z.of_nat (length arr) - 1) (-1).

(** The loop of [FindLastOccurrence], from the state [(left, right, result)]. *)
Fixpoint last_loop (fuel : nat) (arr : list Z) (target left right result : Z)
  : outcome Z :=
  match fuel with
  | O => OutOfFuel
  | S fuel' =>
      if left <=? right then
        let mid := left + (right - left) `quot` 2 in
        x ←! index arr mid;
        if x =? target then last_loop fuel' arr target (mid + 1) right mid
        else if x <? target then last_loop fuel' arr target (mid + 1) right result
        else last_loop fuel' arr target left (mid - 1) result
      else Done result
  end.

Definition FindLastOccurrence (fuel : nat) (arr : list Z) (target : Z) : outcome Z :=
  last_loop fuel arr target 0 (Z.of_nat (length arr) - 1) (-1).

Definition CountOccurrences (fuel : nat) (arr : list Z) (target : Z) : outcome Z :=
  first ←! FindFirstOccurrence fuel arr target;
  if first =? -1 then Done 0
  else
    last ←! FindLastOccurrence fuel arr target;
    Done (last - first + 1).

(** The loop of [SearchInRotatedArray], from the state [(left, right)];
    [arr[right]] is read only when [target > arr[mid]]. *)
Fixpoint rotated_loop (fuel : nat) (arr : list Z) (target left right : Z) : outcome Z :=
  match fuel with
  | O => OutOfFuel
  | S fuel' =>
      if left <=? right then
        let mid := left + (right - left) `quot` 2 in
        x ←! index arr mid;
        if x =? target then Done mid
        else
          lo ←! index arr left;
          if lo <=? x then
            if (target >=? lo) && (target <? x) then
              rotated_loop fuel' arr target left (mid - 1)
            else rotated_loop fuel' arr target (mid + 1) right
          else
            inside ←! (if target >? x then hi ←! index arr right; Done (target <=? hi)
                       else Done false);
            if inside then rotated_loop fuel' arr target (mid + 1) right
            else rotated_loop fuel' arr target left (mid - 1)
      else Done (-1)
  end.

Definition SearchInRotatedArray (fuel : nat) (arr : list Z) (target : Z) : outcome Z :=
  rotated_loop fuel arr target 0 (Z.of_nat (length arr) - 1).

(** The arrays of the file's tests 1, 3 and 5. *)
Definition arr_test1 : list Z := [2; 5; 8; 12; 16; 23; 38; 56; 72; 91].
Definition arr_test3 : list Z := [1; 2; 2; 2; 3; 4; 4; 5; 5; 5; 5; 6].
Definition arr_test5 : list Z := [4; 5; 6; 7; 0; 1; 2].

End BinarySearch.

(** * Properties *)

(** ** Outcomes *)

Lemma returns_at {A} (f : nat → outcome A) need a fuel :
  returns f need a → (need ≤ fuel)%nat → f fuel = Done a.
Proof. intros H Hle. rewrite H. by rewrite decide_True. Qed.

Lemma returns_Done {A} (f : nat → outcome A) need a fuel a' :
  returns f need a → f fuel = Done a' → a' = a.
Proof. intros H. rewrite H. case_decide; congruence. Qed.

Lemma returns_const {A} (a : A) : returns (λ _, Done a) 0 a.
Proof. intros fuel. rewrite decide_True; [done | lia]. Qed.

Lemma returns_bind {A B} (f : nat → outcome A) (k : A → outcome B) need a b :
  returns f need a → k a = Done b → returns (λ fuel, obind (f fuel) k) need b.
Proof. intros H Hk fuel. rewrite H. by case_decide. Qed.

Lemma returns_S {A} (f : nat → outcome A) (g : nat → outcome A) need a :
  g O = OutOfFuel → (∀ fuel, g (S fuel) = f fuel) →
  returns f need a → returns g (S need) a.
Proof.
  intros H0 HS H [|fuel].
  - rewrite H0. rewrite decide_False; [done | lia].
  - rewrite HS, H. repeat case_decide; (done || lia).
Qed.

Lemma returns_1 {A} (g : nat → outcome A) a :
  g O = OutOfFuel → (∀ fuel, g (S fuel) = Done a) → returns g 1 a.
Proof.
  intros H0 HS. eapply (returns_S (λ _, Done a)); [done..|]. apply returns_const.
Qed.

(** ** Linked list: chains *)

Section Chains.
Import LinkedList.
Implicit Types (h : gmap positive Node) (p q : option positive)
  (cells : list (positive * Z)) (st : state).

Lemma lseg_app h p a b q :
  lseg h p (a ++ b) q ↔ ∃ m, lseg h p a m ∧ lseg h m b q.
Proof.
  revert p. induction a as [|[l v] a IH]; intros p; simpl.
  - split; [intros H; by exists p | intros (m & -> & H); done].
  - split.
    + intros (-> & nx & Hl & H). apply IH in H as (m & H1 & H2).
      exists m. split; [|done]. split; [done|]. by exists nx.
    + intros (m & (-> & nx & Hl & H1) & H2). split; [done|].
      exists nx. split; [done|]. apply IH. by exists m.
Qed.

Lemma lseg_lookup h p cells q l :
  lseg h p cells q → l ∈ cells.*1 → is_Some (h !! l).
Proof.
  revert p. induction cells as [|[l' v] cells IH]; intros p; simpl.
  - intros _ Hin. by apply elem_of_nil in Hin.
  - intros (-> & nx & Hl & H) [->|Hin]%elem_of_cons; [by eexists | by eapply IH].
Qed.

Lemma lseg_fresh h p cells q : lseg h p cells q → fresh (dom h) ∉ cells.*1.
Proof.
  intros H Hin. eapply lseg_lookup in Hin; [|done].
  apply elem_of_dom in Hin. by apply is_fresh in Hin.
Qed.

Lemma lseg_insert h p cells q l n :
  l ∉ cells.*1 → lseg h p cells q → lseg (<[l := n]> h) p cells q.
Proof.
  revert p. induction cells as [|[l' v] cells IH]; intros p; simpl; [done|].
  intros Hnin (-> & nx & Hl & H). apply not_elem_of_cons in Hnin as [Hne Hnin].
  split; [done|]. exists nx. split; [by rewrite lookup_insert_ne | by apply IH].
Qed.

Lemma lseg_functional h p c1 c2 :
  lseg h p c1 None → lseg h p c2 None → c1 = c2.
Proof.
  revert p c2. induction c1 as [|[l v] c1 IH]; intros p [|[l' v'] c2]; simpl.
  - done.
  - intros -> (? & _); done.
  - intros (-> & _) ?; done.
  - intros (-> & nx & Hl & H1) (E & nx' & Hl' & H2).
    injection E as <-. rewrite Hl in Hl'. injection Hl' as <- <-.
    f_equal. by eapply IH.
Qed.

Lemma lseg_NoDup h p cells : lseg h p cells None → NoDup cells.*1.
Proof.
  revert p. induction cells as [|[l v] cells IH]; intros p H; [constructor|].
  pose proof H as H0. simpl in H. destruct H as (-> & nx & Hl & H).
  simpl. constructor; [|by eapply IH].
  intros Hin. apply list_elem_of_fmap in Hin as ([l' v'] & E & Hin).
  simpl in E. subst l'.
  apply list_elem_of_split in Hin as (a & b & ->).
  apply lseg_app in H as (m & _ & Hb).
  assert (lseg h (Some l) ((l, v') :: b) None) as Hb'.
  { simpl in Hb. destruct Hb as (-> & Hb). simpl. by split. }
  pose proof (lseg_functional _ _ _ _ H0 Hb') as E.
  apply (f_equal length) in E. simpl in E. rewrite length_app in E. simpl in E. lia.
Qed.

Lemma lseg_snoc h p cells l v q :
  lseg h p (cells ++ [(l, v)]) q ↔ lseg h p cells (Some l) ∧ h !! l = Some (mkNode v q).
Proof.
  rewrite lseg_app. simpl. split.
  - intros (m & H & -> & nx & Hl & ->). done.
  - intros (H & Hl). exists (Some l). split; [done|]. split; [done|]. by exists q.
Qed.

Lemma lseg_nonempty h p c cells q : lseg h p (c :: cells) q → p = Some c.1.
Proof. destruct c as [l v]. by intros (-> & _). Qed.

(** Two updates of nodes outside a chain leave the chain in place. *)
Lemma lseg_insert2 h p cells q l1 n1 l2 n2 :
  l1 ∉ cells.*1 → l2 ∉ cells.*1 → lseg h p cells q →
  lseg (<[l1 := n1]> (<[l2 := n2]> h)) p cells q.
Proof. intros H1 H2 H. apply lseg_insert; [done|]. by apply lseg_insert. Qed.

Lemma NoDup_app_cells (a b : list (positive * Z)) c :
  NoDup (a ++ c :: b).*1 → (c.1 ∉ a.*1) ∧ (c.1 ∉ b.*1) ∧ NoDup a.*1 ∧ NoDup b.*1.
Proof.
  rewrite fmap_app, fmap_cons. intros (Ha & Hd & Hb)%NoDup_app.
  apply NoDup_cons in Hb as [Hcb Hb]. repeat split; [|done..].
  intros Hin. apply (Hd _ Hin). by left.
Qed.

End Chains.

(** ** Linked list: the operations on acyclic lists *)

Section Operations.
Import LinkedList.
Implicit Types (h : gmap positive Node) (p q : option positive)
  (cells : list (positive * Z)) (st : state).

Lemma is_list_NoDup st cells : is_list st cells → NoDup cells.*1.
Proof. intros [H _]. by eapply lseg_NoDup. Qed.

Lemma is_list_functional st c1 c2 : is_list st c1 → is_list st c2 → c1 = c2.
Proof. intros [H1 _] [H2 _]. by eapply lseg_functional. Qed.

Lemma is_list_invariant st cells : is_list st cells → invariant st.
Proof.
  intros [H Hs]. exists cells. split; [done|]. split; [done|].
  rewrite Hs. destruct cells as [|[l v] cells]; simpl in *.
  - done.
  - destruct H as (-> & _). split; [done | lia].
Qed.

Lemma invariant_is_list st : invariant st → ∃ cells, is_list st cells.
Proof. intros (cells & H & Hs & _). by exists cells. Qed.

Lemma IsEmpty_nil st : is_list st [] → IsEmpty st = true.
Proof. intros [H _]. simpl in H. unfold IsEmpty. by rewrite H. Qed.

Lemma IsEmpty_cons st c cells : is_list st (c :: cells) → IsEmpty st = false.
Proof. intros [H _]. apply lseg_nonempty in H. unfold IsEmpty. by rewrite H. Qed.

Lemma Prepend_spec data st cells :
  is_list st cells →
  ∃ l st', Prepend data st = Done st' ∧ is_list st' ((l, data) :: cells).
Proof.
  intros [H Hs]. unfold Prepend, new_node.
  eexists _, _. split; [done|]. split; simpl.
  - split; [done|]. exists (Head st). split; [by rewrite lookup_insert_eq|].
    apply lseg_insert; [|done]. by eapply lseg_fresh.
  - lia.
Qed.

Lemma walk_to_last_spec h p cells l v :
  lseg h p (cells ++ [(l, v)]) None →
  returns (λ fuel, walk_to_last fuel h p) (S (length cells)) (Some l).
Proof.
  revert p. induction cells as [|[l0 v0] cells IH]; intros p; simpl.
  - intros (-> & nx & Hl & ->). apply returns_1; [done|].
    intros fuel. simpl. by rewrite Hl.
  - intros (-> & nx & Hl & H). specialize (IH _ H).
    eapply returns_S; [done | | exact IH].
    intros fuel. simpl. rewrite Hl. simpl.
    destruct cells as [|c cells]; apply lseg_nonempty in H; by rewrite H.
Qed.

Lemma Append_spec data st cells :
  is_list st cells →
  ∃ l st', returns (λ fuel, Append data fuel st) (length cells) st'
           ∧ is_list st' (cells ++ [(l, data)]).
Proof.
  intros Hst. pose proof (is_list_NoDup _ _ Hst) as Hnd.
  pose proof Hst as [H Hs].
  pose proof (lseg_fresh _ _ _ _ H) as Hfresh.
  unfold Append, new_node. set (ln := fresh (dom (nodes st))) in *.
  destruct cells as [|c cells _] using rev_ind.
  - rewrite (IsEmpty_nil _ Hst). exists ln. eexists. split; [apply returns_const|].
    split; simpl in *; [|lia]. split; [done|]. exists None. by rewrite lookup_insert_eq.
  - destruct c as [l0 v0].
    assert (IsEmpty st = false) as ->.
    { destruct cells; by eapply IsEmpty_cons. }
    assert (ln ≠ l0) as Hne.
    { intros ->. apply Hfresh. rewrite fmap_app. apply elem_of_app. right. by left. }
    set (h1 := <[ln := mkNode data None]> (nodes st)).
    assert (lseg h1 (Head st) (cells ++ [(l0, v0)]) None) as H1.
    { by apply lseg_insert. }
    pose proof (walk_to_last_spec _ _ _ _ _ H1) as Hw.
    apply lseg_snoc in H1 as [Hpre Hl0].
    eexists ln, _. split.
    + rewrite length_app. simpl. replace (length cells + 1)%nat with (S (length cells)) by lia.
      eapply returns_bind; [exact Hw|]. simpl. rewrite Hl0. simpl. reflexivity.
    + split; simpl; [|rewrite !length_app in *; simpl in *; lia].
      rewrite <- app_assoc. simpl. apply lseg_app. exists (Some l0). split.
      * apply lseg_insert; [|done].
        apply (NoDup_app_cells cells [] (l0, v0)) in Hnd. apply Hnd.
      * simpl. split; [done|]. exists (Some ln). split; [by rewrite lookup_insert_eq|].
        split; [done|]. exists None. split; [|done].
        rewrite lookup_insert_ne; [|done]. unfold h1. by rewrite lookup_insert_eq.
Qed.

Lemma advance_spec h p a m :
  lseg h p a m → advance (length a) h p = Done m.
Proof.
  revert p. induction a as [|[l v] a IH]; intros p; simpl.
  - by intros ->.
  - intros (-> & nx & Hl & H). simpl. rewrite Hl. simpl. by apply IH.
Qed.

Lemma InsertAt_invalid data position st :
  position < 0 ∨ Size st < position →
  InsertAt data position st = Done (st, Some (ErrInvalidPosition position)).
Proof.
  intros H. unfold InsertAt.
  destruct (position <? 0) eqn:E1; [done|].
  destruct (position >? Size st) eqn:E2; [done|]. lia.
Qed.

Lemma InsertAt_spec data position st cells :
  is_list st cells → 0 ≤ position ≤ Z.of_nat (length cells) →
  ∃ l st', InsertAt data position st = Done (st', None)
           ∧ is_list st' (take (Z.to_nat position) cells ++
                          (l, data) :: drop (Z.to_nat position) cells).
Proof.
  intros Hst Hpos. pose proof (is_list_NoDup _ _ Hst) as Hnd.
  pose proof Hst as [H Hs]. unfold InsertAt.
  destruct (position <? 0) eqn:E1; [lia|].
  destruct (position >? Size st) eqn:E2; [lia|]. cbn [orb].
  destruct (position =? 0) eqn:E3.
  - assert (position = 0) as -> by lia.
    destruct (Prepend_spec data st cells Hst) as (l & st' & -> & Hst').
    exists l, st'. split; [done|]. simpl. by rewrite drop_0.
  - pose proof (lseg_fresh _ _ _ _ H) as Hfresh.
    unfold new_node. set (ln := fresh (dom (nodes st))) in *.
    set (h1 := <[ln := mkNode data None]> (nodes st)).
    set (k := Z.to_nat (position - 1)).
    assert (Z.to_nat position = S k) as -> by lia.
    assert (k < length cells)%nat as Hk by lia.
    destruct (lookup_lt_is_Some_2 cells k Hk) as [[l0 v0] Hc].
    rewrite <- (take_drop_middle cells k (l0, v0) Hc) in H, Hnd, Hfresh.
    rewrite (take_S_r cells k (l0, v0) Hc).
    set (a := take k cells) in *. set (b := drop (S k) cells) in *.
    assert (length a = k) as Hka by (unfold a; rewrite length_take; lia).
    destruct (NoDup_app_cells _ _ _ Hnd) as (Ha0 & Hb0 & _ & _). simpl in Ha0, Hb0.
    rewrite fmap_app, fmap_cons in Hfresh. simpl in Hfresh.
    apply not_elem_of_app in Hfresh as [Hfa Hfb].
    apply not_elem_of_cons in Hfb as [Hne Hfb].
    apply lseg_app in H as (m & Ha & Hb). simpl in Hb.
    destruct Hb as (-> & nx & Hl0 & Hb).
    assert (advance k h1 (Head st) = Done (Some l0)) as ->.
    { rewrite <- Hka. apply advance_spec. by apply lseg_insert. }
    simpl. unfold h1 at 1. rewrite lookup_insert_ne; [|done]. rewrite Hl0. simpl.
    unfold h1 at 1. rewrite lookup_insert_eq. simpl.
    rewrite lookup_insert_ne; [|done]. unfold h1 at 1.
    rewrite lookup_insert_ne; [|done]. rewrite Hl0. simpl.
    eexists ln, _. split; [done|]. split; simpl.
    + rewrite <- app_assoc. simpl. apply lseg_app. exists (Some l0). split.
      { apply lseg_insert2; [done..|]. by apply lseg_insert. }
      simpl. split; [done|]. exists (Some ln). split; [by rewrite lookup_insert_eq|].
      split; [done|]. exists nx. split.
      { rewrite lookup_insert_ne; [|done]. by rewrite lookup_insert_eq. }
      apply lseg_insert2; [done..|]. by apply lseg_insert.
    + rewrite Hs. rewrite <- (take_drop_middle cells k (l0, v0) Hc).
      fold a b. rewrite !length_app. simpl. rewrite ?length_app. simpl. lia.
Qed.

Lemma lseg_two h p x y rest q :
  lseg h p (x :: y :: rest) q →
  p = Some x.1 ∧ h !! x.1 = Some (mkNode x.2 (Some y.1)).
Proof.
  destruct x as [lx vx], y as [ly vy]. simpl.
  intros (-> & nx & Hl & -> & _). done.
Qed.

Lemma DeleteFirst_empty st :
  IsEmpty st = true → DeleteFirst st = Done (st, (0, Some ErrDeleteEmpty)).
Proof. intros H. unfold DeleteFirst. by rewrite H. Qed.

Lemma DeleteFirst_spec st l v cells :
  is_list st ((l, v) :: cells) →
  ∃ st', DeleteFirst st = Done (st', (v, None)) ∧ is_list st' cells.
Proof.
  intros Hst. unfold DeleteFirst. rewrite (IsEmpty_cons _ _ _ Hst).
  destruct Hst as [(E & nx & Hl & H) Hs]. rewrite E. simpl. rewrite Hl. simpl.
  eexists. split; [done|]. split; simpl in *; [done | lia].
Qed.

Lemma walk_to_second_last_spec h p a l1 v1 l v :
  lseg h p (a ++ [(l1, v1); (l, v)]) None →
  returns (λ fuel, walk_to_second_last fuel h p) (S (length a)) (Some l1).
Proof.
  revert p. induction a as [|[l0 v0] a IH]; intros p.
  - simpl. intros (-> & nx & Hl1 & -> & nx' & Hl & ->).
    apply returns_1; [done|]. intros fuel. simpl. rewrite Hl1. simpl. by rewrite Hl.
  - simpl. intros (-> & nx & Hl0 & H). specialize (IH _ H).
    eapply returns_S; [done | | exact IH].
    intros fuel. simpl. rewrite Hl0. simpl.
    assert (∃ x y rest, a ++ [(l1, v1); (l, v)] = x :: y :: rest) as (x & y & rest & E).
    { destruct a as [|? [|? ?]]; simpl; eauto. }
    rewrite E in H. apply lseg_two in H as [-> Hx]. simpl. by rewrite Hx.
Qed.

Lemma DeleteLast_empty fuel st :
  IsEmpty st = true → DeleteLast fuel st = Done (st, (0, Some ErrDeleteEmpty)).
Proof. intros H. unfold DeleteLast. by rewrite H. Qed.

Lemma DeleteLast_spec st cells l v :
  is_list st (cells ++ [(l, v)]) →
  ∃ st', returns (λ fuel, DeleteLast fuel st) (length cells) (st', (v, None))
         ∧ is_list st' cells.
Proof.
  intros Hst. pose proof (is_list_NoDup _ _ Hst) as Hnd.
  pose proof Hst as [H Hs]. rewrite length_app in Hs. simpl in Hs.
  unfold DeleteLast.
  assert (IsEmpty st = false) as ->.
  { destruct cells; by eapply IsEmpty_cons. }
  destruct cells as [|[l1 v1] a _] using rev_ind.
  - simpl in H. destruct H as (E & nx & Hl & ->). rewrite E. simpl. rewrite Hl. simpl.
    eexists. split; [apply returns_const|]. split; simpl in *; [done | lia].
  - rewrite <- app_assoc in H. simpl in H.
    pose proof (walk_to_second_last_spec _ _ _ _ _ _ _ H) as Hw.
    assert (∃ x y rest, a ++ [(l1, v1); (l, v)] = x :: y :: rest) as (x & y & rest & E).
    { destruct a as [|? [|? ?]]; simpl; eauto. }
    pose proof H as H'. rewrite E in H'. apply lseg_two in H' as [Hhd Hx].
    assert (load (nodes st) (Head st) = Done (mkNode x.2 (Some y.1))) as ->.
    { rewrite Hhd. simpl. by rewrite Hx. }
    cbn [obind Next].
    apply (lseg_app _ _ a) in H as (m & Ha & (-> & nx & Hl1 & -> & nx' & Hl & ->)).
    eexists. split.
    + rewrite length_app. simpl.
      replace (length a + 1)%nat with (S (length a)) by lia.
      eapply returns_bind; [exact Hw|]. simpl. rewrite Hl1. simpl. rewrite Hl. simpl.
      reflexivity.
    + split; simpl; [|rewrite length_app in *; simpl in *; lia].
      apply lseg_snoc. split; [|by rewrite lookup_insert_eq].
      apply lseg_insert; [|done].
      rewrite <- app_assoc in Hnd. apply (NoDup_app_cells a [(l, v)] (l1, v1)) in Hnd.
      apply Hnd.
Qed.

Lemma DeleteAt_invalid position st :
  position < 0 ∨ Size st ≤ position →
  DeleteAt position st = Done (st, (0, Some (ErrInvalidPosition position))).
Proof.
  intros H. unfold DeleteAt.
  destruct (position <? 0) eqn:E1; [done|].
  destruct (position >=? Size st) eqn:E2; [done|]. lia.
Qed.

Lemma DeleteAt_spec position st cells l v :
  is_list st cells → 0 ≤ position → cells !! Z.to_nat position = Some (l, v) →
  ∃ st', DeleteAt position st = Done (st', (v, None))
         ∧ is_list st' (delete (Z.to_nat position) cells).
Proof.
  intros Hst Hpos Hc. pose proof (is_list_NoDup _ _ Hst) as Hnd.
  pose proof Hst as [H Hs]. pose proof (lookup_lt_Some _ _ _ Hc) as Hlt.
  unfold DeleteAt.
  destruct (position <? 0) eqn:E1; [lia|].
  destruct (position >=? Size st) eqn:E2; [lia|]. cbn [orb].
  destruct (position =? 0) eqn:E3.
  - assert (position = 0) as -> by lia. simpl in *.
    destruct cells as [|c cells]; simplify_eq/=.
    by eapply DeleteFirst_spec.
  - set (k := Z.to_nat (position - 1)).
    assert (Z.to_nat position = S k) as Ek by lia. rewrite Ek in *.
    assert (k < length cells)%nat as Hk by lia.
    destruct (lookup_lt_is_Some_2 cells k Hk) as [[l0 v0] Hc0].
    assert (cells = take k cells ++ (l0, v0) :: (l, v) :: drop (S (S k)) cells) as Ecells.
    { rewrite <- (drop_S _ _ _ Hc). by rewrite take_drop_middle. }
    assert (delete (S k) cells = take k cells ++ (l0, v0) :: drop (S (S k)) cells) as ->.
    { rewrite delete_take_drop, (take_S_r _ _ _ Hc0), <- app_assoc. done. }
    set (a := take k cells) in *. set (b := drop (S (S k)) cells) in *.
    assert (length a = k) as Hka by (unfold a; rewrite length_take; lia).
    rewrite Ecells in H, Hnd, Hs.
    destruct (NoDup_app_cells _ _ _ Hnd) as (Ha0 & Hb0 & _ & _). simpl in Ha0, Hb0.
    apply not_elem_of_cons in Hb0 as [_ Hb0].
    apply lseg_app in H as (m & Ha & (-> & nx & Hl0 & -> & nx' & Hl & Hb)).
    pose proof (advance_spec _ _ _ _ Ha) as Hadv. rewrite Hka in Hadv. rewrite Hadv.
    simpl. rewrite Hl0. simpl. rewrite Hl. simpl.
    eexists. split; [done|]. split; simpl.
    + apply lseg_app. exists (Some l0). split; [by apply lseg_insert|].
      simpl. split; [done|]. exists nx'. split; [by rewrite lookup_insert_eq|].
      by apply lseg_insert.
    + rewrite !length_app in *. simpl in *. lia.
Qed.

Lemma delete_scan_spec value st a lc vc rest :
  lseg (nodes st) (Head st) (a ++ (lc, vc) :: rest) None →
  ∃ need st' b rest',
    returns (λ fuel, delete_scan fuel value st (Some lc)) need (st', b)
    ∧ lseg (nodes st') (Head st') (a ++ (lc, vc) :: rest') None
    ∧ Size st' - Z.of_nat (length rest') = Size st - Z.of_nat (length rest).
Proof.
  revert a lc vc. induction rest as [|[l1 v1] rest IH]; intros a lc vc H.
  - pose proof H as H0.
    apply lseg_app in H as (m & Ha & (-> & nx & Hl & ->)).
    exists 1%nat, st, false, []. split; [|done].
    apply returns_1; [done|]. intros fuel. simpl. by rewrite Hl.
  - pose proof H as H0. pose proof (lseg_NoDup _ _ _ H) as Hnd.
    apply lseg_app in H as (m & Ha & (-> & nx & Hl & -> & nx1 & Hl1 & Hrest)).
    destruct (Z.eqb_spec v1 value) as [->|Hne].
    + eexists 1%nat, _, true, rest. split; [|split].
      * apply returns_1; [done|]. intros fuel. simpl. rewrite Hl. simpl. rewrite Hl1. simpl.
        rewrite Z.eqb_refl. reflexivity.
      * simpl. destruct (NoDup_app_cells _ _ _ Hnd) as (Ha0 & Hb0 & _ & _).
        simpl in Ha0, Hb0. apply not_elem_of_cons in Hb0 as [_ Hb0].
        apply lseg_app. exists (Some lc). split; [by apply lseg_insert|].
        simpl. split; [done|]. exists nx1. split; [by rewrite lookup_insert_eq|].
        by apply lseg_insert.
      * simpl. lia.
    + specialize (IH (a ++ [(lc, vc)]) l1 v1).
      rewrite <- app_assoc in IH. simpl in IH.
      destruct (IH H0) as (need & st' & b & rest' & Hr & Hseg & Hsz).
      exists (S need), st', b, ((l1, v1) :: rest'). split; [|split].
      * eapply returns_S; [done | | exact Hr]. intros fuel. simpl.
        rewrite Hl. simpl. rewrite Hl1. simpl.
        destruct (Z.eqb_spec v1 value); [exfalso; done | reflexivity].
      * by rewrite <- app_assoc in Hseg.
      * simpl length. lia.
Qed.

Lemma DeleteByValue_spec value st cells :
  is_list st cells →
  ∃ need st' b cells',
    returns (λ fuel, DeleteByValue value fuel st) need (st', b) ∧ is_list st' cells'.
Proof.
  intros Hst. pose proof Hst as [H Hs]. unfold DeleteByValue.
  destruct cells as [|[l v] cells].
  - rewrite (IsEmpty_nil _ Hst). exists 0%nat, st, false, [].
    split; [apply returns_const | done].
  - rewrite (IsEmpty_cons _ _ _ Hst).
    pose proof H as (E & nx & Hl & Hrest). rewrite E. simpl. rewrite Hl. simpl.
    destruct (Z.eqb_spec v value) as [->|Hne].
    + destruct (DeleteFirst_spec _ _ _ _ Hst) as (st' & Hd & Hst').
      rewrite Hd. simpl. exists 0%nat, st', true, cells.
      split; [apply returns_const | done].
    + destruct (delete_scan_spec value st [] l v cells H)
        as (need & st' & b & rest' & Hr & Hseg & Hsz).
      exists need, st', b, ((l, v) :: rest'). split; [done|].
      split; [done|]. simpl in *. lia.
Qed.

Lemma Clear_spec st : ∃ st', Clear st = Done st' ∧ is_list st' [].
Proof. eexists. split; [done|]. by split. Qed.

Lemma reverse_loop_spec h prev cur done rest :
  lseg h prev done None → lseg h cur rest None →
  (∀ l, l ∈ rest.*1 → l ∉ done.*1) →
  ∃ h' p', returns (λ fuel, reverse_loop fuel h prev cur) (S (length rest)) (h', p')
           ∧ lseg h' p' (reverse rest ++ done) None.
Proof.
  revert h prev cur done.
  induction rest as [|[l v] rest IH]; intros h prev cur done Hdone Hrest Hdisj.
  - simpl in Hrest. subst cur. exists h, prev. split; [|done].
    by apply returns_1.
  - pose proof (lseg_NoDup _ _ _ Hrest) as Hnd. simpl in Hnd.
    apply NoDup_cons in Hnd as [Hl_rest Hnd].
    simpl in Hrest. destruct Hrest as (-> & nx & Hl & Hrest).
    assert (l ∉ done.*1) as Hl_done by (apply Hdisj; by left).
    set (h1 := <[l := mkNode v prev]> h).
    destruct (IH h1 (Some l) nx ((l, v) :: done)) as (h' & p' & Hr & Hseg).
    + simpl. split; [done|]. exists prev. split; [by apply lookup_insert_eq|].
      by apply lseg_insert.
    + by apply lseg_insert.
    + intros l' Hin. simpl. apply not_elem_of_cons. split.
      * intros ->. done.
      * apply Hdisj. by right.
    + exists h', p'. split.
      * eapply returns_S; [done | | exact Hr]. intros fuel. simpl. by rewrite Hl.
      * rewrite reverse_cons, <- app_assoc. done.
Qed.

Lemma Reverse_spec st cells :
  is_list st cells →
  ∃ st', returns (λ fuel, Reverse fuel st) (S (length cells)) st'
         ∧ is_list st' (reverse cells).
Proof.
  intros [H Hs].
  destruct (reverse_loop_spec (nodes st) None (Head st) [] cells) as (h' & p' & Hr & Hseg).
  - done.
  - done.
  - intros l _ Hin. by apply elem_of_nil in Hin.
  - rewrite app_nil_r in Hseg. eexists. split.
    + unfold Reverse. eapply returns_bind; [exact Hr|]. reflexivity.
    + split; simpl; [done|]. by rewrite length_reverse.
Qed.

Lemma slice_loop_spec h p cells acc :
  lseg h p cells None →
  returns (λ fuel, slice_loop fuel h acc p) (S (length cells)) (acc ++ cells.*2).
Proof.
  revert p acc. induction cells as [|[l v] cells IH]; intros p acc H; simpl in H.
  - subst p. rewrite fmap_nil, app_nil_r. by apply returns_1.
  - destruct H as (-> & nx & Hl & H).
    apply (returns_S (λ fuel, slice_loop fuel h (acc ++ [v]) nx)); [done | |].
    + intros fuel. simpl. by rewrite Hl.
    + rewrite fmap_cons. cbn [snd].
      replace (acc ++ v :: cells.*2) with ((acc ++ [v]) ++ cells.*2)
        by (by rewrite <- app_assoc).
      by apply IH.
Qed.

Lemma ToSlice_spec st cells :
  is_list st cells →
  returns (λ fuel, ToSlice fuel st) (S (length cells)) (st, cells.*2).
Proof.
  intros [H Hs]. unfold ToSlice.
  destruct (Size st <? 0) eqn:E; [lia|].
  eapply returns_bind; [by apply (slice_loop_spec _ _ _ [])|]. done.
Qed.

(** Chains by index. *)

Lemma ptr_at_Some cells k l v : cells !! k = Some (l, v) → ptr_at cells k = Some l.
Proof. unfold ptr_at. by intros ->. Qed.

Lemma ptr_at_None cells k : (length cells ≤ k)%nat → ptr_at cells k = None.
Proof. intros H. unfold ptr_at. by rewrite lookup_ge_None_2. Qed.

Lemma lseg_head h p cells : lseg h p cells None → p = ptr_at cells 0.
Proof. destruct cells as [|[l v] cells]; simpl; [done|]. by intros (-> & _). Qed.

Lemma lseg_node_at h p cells k l v :
  lseg h p cells None → cells !! k = Some (l, v) →
  h !! l = Some (mkNode v (ptr_at cells (S k))).
Proof.
  revert p k. induction cells as [|[l0 v0] cells IH]; intros p k; [done|].
  simpl. intros (-> & nx & Hl & H). destruct k as [|k]; simpl.
  - intros [= <- <-]. rewrite Hl. do 2 f_equal. by eapply lseg_head.
  - intros Hc. by eapply IH.
Qed.

Lemma load_at h p cells k l v :
  lseg h p cells None → cells !! k = Some (l, v) →
  load h (ptr_at cells k) = Done (mkNode v (ptr_at cells (S k))).
Proof.
  intros H Hc. rewrite (ptr_at_Some _ _ _ _ Hc). simpl.
  by rewrite (lseg_node_at _ _ _ _ _ _ H Hc).
Qed.

Lemma advance_at h p cells i k :
  lseg h p cells None → (i + k ≤ length cells)%nat →
  advance k h (ptr_at cells i) = Done (ptr_at cells (i + k)).
Proof.
  intros H. revert i. induction k as [|k IH]; intros i Hle; simpl.
  - by rewrite Nat.add_0_r.
  - destruct (lookup_lt_is_Some_2 cells i) as [[l v] Hc]; [lia|].
    rewrite (load_at _ _ _ _ _ _ H Hc). simpl.
    rewrite IH by lia. do 2 f_equal. lia.
Qed.

Lemma Get_invalid position st :
  position < 0 ∨ Size st ≤ position →
  Get position st = Done (st, (0, Some (ErrInvalidPosition position))).
Proof.
  intros H. unfold Get.
  destruct (position <? 0) eqn:E1; [done|].
  destruct (position >=? Size st) eqn:E2; [done|]. lia.
Qed.

Lemma Get_spec position st cells l v :
  is_list st cells → 0 ≤ position → cells !! Z.to_nat position = Some (l, v) →
  Get position st = Done (st, (v, None)).
Proof.
  intros [H Hs] Hpos Hc. pose proof (lookup_lt_Some _ _ _ Hc) as Hlt.
  unfold Get.
  destruct (position <? 0) eqn:E1; [lia|].
  destruct (position >=? Size st) eqn:E2; [lia|]. cbn [orb].
  rewrite (lseg_head _ _ _ H).
  rewrite (advance_at _ _ _ 0 _ H) by lia. simpl.
  pose proof (load_at _ _ _ _ _ _ H Hc) as Hload. simpl in Hload.
  by rewrite Hload.
Qed.

Lemma middle_loop_spec h p cells i :
  lseg h p cells None → (i ≤ length cells / 2)%nat →
  returns (λ fuel, middle_loop fuel h (ptr_at cells i) (ptr_at cells (i + i)))
          (S (length cells / 2 - i)) (ptr_at cells (length cells / 2)).
Proof.
  intros H. remember (length cells / 2 - i)%nat as d eqn:Ed.
  revert i Ed. induction d as [|d IH]; intros i Ed Hi.
  - assert (i = (length cells / 2)%nat) as Ei by lia. rewrite <- Ei.
    apply returns_1; [done|]. intros fuel. simpl.
    destruct (cells !! (i + i)%nat) as [[l v]|] eqn:Ef.
    + rewrite (ptr_at_Some _ _ _ _ Ef).
      pose proof (load_at _ _ _ _ _ _ H Ef) as Hload.
      rewrite (ptr_at_Some _ _ _ _ Ef) in Hload. rewrite Hload. simpl.
      apply lookup_lt_Some in Ef.
      rewrite ptr_at_None; [done|]. lia.
    + apply lookup_ge_None in Ef. rewrite (ptr_at_None _ (i + i)) by lia. done.
  - apply (returns_S (λ fuel, middle_loop fuel h (ptr_at cells (S i))
                               (ptr_at cells (S i + S i)))); [done | |].
    + intros fuel. simpl.
      destruct (lookup_lt_is_Some_2 cells (i + i)) as [[lf vf] Ef]; [lia|].
      destruct (lookup_lt_is_Some_2 cells (S (i + i))) as [[lf' vf'] Ef']; [lia|].
      destruct (lookup_lt_is_Some_2 cells i) as [[ls vs] Es]; [lia|].
      pose proof (load_at _ _ _ _ _ _ H Ef) as Hf.
      pose proof (load_at _ _ _ _ _ _ H Ef') as Hf'.
      pose proof (load_at _ _ _ _ _ _ H Es) as Hs.
      rewrite (ptr_at_Some _ _ _ _ Ef) in Hf |- *. rewrite Hf. simpl.
      rewrite Hs. simpl. rewrite Hf'. simpl. rewrite (ptr_at_Some _ _ _ _ Ef').
      do 2 f_equal. lia.
    + apply IH; lia.
Qed.

Lemma FindMiddle_empty fuel st :
  IsEmpty st = true → FindMiddle fuel st = Done (st, (0, Some ErrEmpty)).
Proof. intros H. unfold FindMiddle. by rewrite H. Qed.

Lemma FindMiddle_spec st cells l v :
  is_list st cells → cells !! (length cells / 2)%nat = Some (l, v) →
  returns (λ fuel, FindMiddle fuel st) (S (length cells / 2)) (st, (v, None)).
Proof.
  intros Hst Hc. pose proof Hst as [H Hs]. unfold FindMiddle.
  assert (IsEmpty st = false) as ->.
  { destruct cells; [done | by eapply IsEmpty_cons]. }
  pose proof (middle_loop_spec _ _ _ 0 H ltac:(lia)) as Hm.
  rewrite Nat.sub_0_r in Hm. cbn [Nat.add] in Hm.
    rewrite <- (lseg_head _ _ _ H) in Hm.
  eapply returns_bind; [exact Hm|]. cbv beta.
  by rewrite (load_at _ _ _ _ _ _ H Hc).
Qed.

Lemma ptr_at_ne cells i j :
  NoDup cells.*1 → (i < length cells)%nat → i ≠ j → ptr_at cells i ≠ ptr_at cells j.
Proof.
  intros Hnd Hi Hij E. unfold ptr_at in E.
  destruct (lookup_lt_is_Some_2 cells i Hi) as [c Hc]. rewrite Hc in E. simpl in E.
  destruct (cells !! j) as [c'|] eqn:Hc'; simpl in E; [|done].
  injection E as E. apply Hij.
  apply (NoDup_lookup _ i j c.1 Hnd); rewrite list_lookup_fmap.
  - by rewrite Hc.
  - rewrite Hc'. simpl. by rewrite E.
Qed.

Lemma cycle_loop_spec h p cells i :
  lseg h p cells None → (i ≤ length cells / 2)%nat →
  returns (λ fuel, cycle_loop fuel h (ptr_at cells i) (ptr_at cells (i + i)))
          (S (length cells / 2 - i)) false.
Proof.
  intros H. pose proof (lseg_NoDup _ _ _ H) as Hnd.
  remember (length cells / 2 - i)%nat as d eqn:Ed.
  revert i Ed. induction d as [|d IH]; intros i Ed Hi.
  - apply returns_1; [done|]. intros fuel. simpl.
    destruct (cells !! (i + i)%nat) as [[l v]|] eqn:Ef.
    + rewrite (ptr_at_Some _ _ _ _ Ef).
      pose proof (load_at _ _ _ _ _ _ H Ef) as Hload.
      rewrite (ptr_at_Some _ _ _ _ Ef) in Hload. rewrite Hload. simpl.
      apply lookup_lt_Some in Ef.
      rewrite ptr_at_None; [done|]. lia.
    + apply lookup_ge_None in Ef. rewrite (ptr_at_None _ (i + i)) by lia. done.
  - apply (returns_S (λ fuel, cycle_loop fuel h (ptr_at cells (S i))
                               (ptr_at cells (S i + S i)))); [done | |].
    + intros fuel. simpl.
      destruct (lookup_lt_is_Some_2 cells (i + i)) as [[lf vf] Ef]; [lia|].
      destruct (lookup_lt_is_Some_2 cells (S (i + i))) as [[lf' vf'] Ef']; [lia|].
      destruct (lookup_lt_is_Some_2 cells i) as [[ls vs] Es]; [lia|].
      pose proof (load_at _ _ _ _ _ _ H Ef) as Hf.
      pose proof (load_at _ _ _ _ _ _ H Ef') as Hf'.
      pose proof (load_at _ _ _ _ _ _ H Es) as Hs.
      rewrite (ptr_at_Some _ _ _ _ Ef) in Hf |- *. rewrite Hf. simpl.
      rewrite Hs. simpl. rewrite Hf'. simpl. rewrite (ptr_at_Some _ _ _ _ Ef').
      rewrite bool_decide_eq_false_2.
      * do 2 f_equal. lia.
      * apply ptr_at_ne; [done | lia | lia].
    + apply IH; lia.
Qed.

Lemma HasCycle_spec st cells :
  is_list st cells →
  returns (λ fuel, HasCycle fuel st)
          (match cells with [] => 0 | _ => S (length cells / 2) end)%nat (st, false).
Proof.
  intros Hst. pose proof Hst as [H Hs]. unfold HasCycle.
  destruct cells as [|c cells].
  - rewrite (IsEmpty_nil _ Hst). apply returns_const.
  - rewrite (IsEmpty_cons _ _ _ Hst).
    pose proof (cycle_loop_spec _ _ _ 0 H ltac:(lia)) as Hm.
    rewrite Nat.sub_0_r in Hm. cbn [Nat.add] in Hm.
    rewrite <- (lseg_head _ _ _ H) in Hm.
    eapply returns_bind; [exact Hm|]. done.
Qed.

Lemma search_scan_spec value h p cells index :
  lseg h p cells None →
  ∃ need, returns (λ fuel, search_scan fuel value h p index) need
            (match list_find (λ v, v = value) cells.*2 with
             | Some (i, _) => index + Z.of_nat i
             | None => -1
             end).
Proof.
  revert p index. induction cells as [|[l v] cells IH]; intros p index H; simpl in H.
  - subst p. exists 1%nat. by apply returns_1.
  - destruct H as (-> & nx & Hl & H). rewrite fmap_cons. cbn [snd list_find].
    destruct (decide (v = value)) as [->|Hne].
    + exists 1%nat. apply returns_1; [done|]. intros fuel. simpl. rewrite Hl. simpl.
      rewrite Z.eqb_refl. f_equal. lia.
    + destruct (IH nx (index + 1) H) as (need & Hr). exists (S need).
      eapply returns_S; [done | |].
      * intros fuel. simpl. rewrite Hl. simpl.
        destruct (Z.eqb_spec v value); [exfalso; done | reflexivity].
      * destruct (list_find (λ v0, v0 = value) cells.*2) as [[i x]|]; simpl.
        -- replace (index + Z.of_nat (S i)) with (index + 1 + Z.of_nat i) by lia. done.
        -- done.
Qed.

Lemma Search_spec value st cells :
  is_list st cells →
  ∃ need, returns (λ fuel, Search value fuel st) need (st, first_index value cells.*2).
Proof.
  intros [H Hs]. destruct (search_scan_spec value _ _ _ 0 H) as (need & Hr).
  exists need. unfold Search. eapply returns_bind; [exact Hr|]. cbv beta.
  unfold first_index. by destruct (list_find _ _) as [[i x]|].
Qed.

Lemma seen_get_insert seen earlier v :
  (∀ k, seen_get seen k = true ↔ k ∈ earlier) →
  ∀ k, seen_get (<[v := true]> seen) k = true ↔ k ∈ v :: earlier.
Proof.
  intros Hseen k. unfold seen_get. rewrite elem_of_cons.
  destruct (decide (k = v)) as [->|Hne].
  - rewrite lookup_insert_eq. simpl. split; [by left | done].
  - rewrite lookup_insert_ne by done. rewrite <- Hseen. unfold seen_get.
    split; [by right | by intros [?|?]].
Qed.

Lemma unseen_only_length earlier cells :
  (length (unseen_only earlier cells) ≤ length cells)%nat.
Proof.
  revert earlier. induction cells as [|[l v] cells IH]; intros earlier; simpl; [done|].
  case_decide; simpl; [specialize (IH earlier) | specialize (IH (v :: earlier))]; lia.
Qed.

Lemma dedup_loop_spec h p a lc vc rest size seen earlier :
  lseg h p (a ++ (lc, vc) :: rest) None →
  (∀ k, seen_get seen k = true ↔ k ∈ earlier) →
  ∃ h', returns (λ fuel, dedup_loop fuel h size seen (Some lc)) (S (length rest))
          (h', size - (Z.of_nat (length rest)
                       - Z.of_nat (length (unseen_only earlier rest))))
        ∧ lseg h' p (a ++ (lc, vc) :: unseen_only earlier rest) None.
Proof.
  revert h a lc vc size seen earlier.
  induction rest as [|[l1 v1] rest IH]; intros h a lc vc size seen earlier H Hseen.
  - exists h. split; [|done].
    apply lseg_app in H as (m & Ha & (-> & nx & Hl & ->)).
    apply returns_1; [done|]. intros fuel. simpl. rewrite Hl. simpl.
    do 2 f_equal. lia.
  - pose proof H as H0. pose proof (lseg_NoDup _ _ _ H) as Hnd.
    apply lseg_app in H as (m & Ha & (-> & nx & Hl & -> & nx1 & Hl1 & Hrest)).
    cbn [unseen_only]. destruct (decide (v1 ∈ earlier)) as [Hin|Hnin].
    + destruct (NoDup_app_cells _ _ _ Hnd) as (Ha0 & Hb0 & _ & _).
      simpl in Ha0, Hb0. apply not_elem_of_cons in Hb0 as [_ Hb0].
      destruct (IH (<[lc := mkNode vc nx1]> h) a lc vc (size - 1) seen earlier)
        as (h' & Hr & Hseg); [|done|].
      { apply lseg_app. exists (Some lc). split; [by apply lseg_insert|].
        simpl. split; [done|]. exists nx1. split; [by rewrite lookup_insert_eq|].
        by apply lseg_insert. }
      exists h'. split; [|done].
      eapply returns_S; [done | |].
      * intros fuel. simpl. rewrite Hl. simpl. rewrite Hl1. simpl.
        apply Hseen in Hin. rewrite Hin. reflexivity.
      * simpl length.
        replace (size - (Z.of_nat (S (length rest))
                         - Z.of_nat (length (unseen_only earlier rest))))
          with (size - 1 - (Z.of_nat (length rest)
                            - Z.of_nat (length (unseen_only earlier rest)))) by lia.
        done.
    + destruct (IH h (a ++ [(lc, vc)]) l1 v1 size (<[v1 := true]> seen) (v1 :: earlier))
        as (h' & Hr & Hseg).
      { by rewrite <- app_assoc. }
      { by apply seen_get_insert. }
      exists h'. split; [|by rewrite <- app_assoc in Hseg].
      eapply returns_S; [done | |].
      * intros fuel. simpl. rewrite Hl. simpl. rewrite Hl1. simpl.
        destruct (seen_get seen v1) eqn:Eseen; [exfalso; by apply Hseen in Eseen|].
        reflexivity.
      * simpl length.
        replace (size - (Z.of_nat (S (length rest))
                         - Z.of_nat (S (length (unseen_only (v1 :: earlier) rest)))))
          with (size - (Z.of_nat (length rest)
                        - Z.of_nat (length (unseen_only (v1 :: earlier) rest)))) by lia.
        done.
Qed.

Lemma RemoveDuplicates_spec st cells :
  is_list st cells →
  ∃ st', returns (λ fuel, RemoveDuplicates fuel st) (length cells) st'
         ∧ is_list st' (first_occurrences cells).
Proof.
  intros Hst. pose proof Hst as [H Hs]. unfold RemoveDuplicates.
  destruct cells as [|[l v] rest].
  - rewrite (IsEmpty_nil _ Hst). exists st. split; [apply returns_const | done].
  - rewrite (IsEmpty_cons _ _ _ Hst).
    pose proof H as (E & nx & Hl & _).
    assert (load (nodes st) (Head st) = Done (mkNode v nx)) as ->.
    { rewrite E. simpl. by rewrite Hl. }
    cbn [obind Data].
    destruct (dedup_loop_spec (nodes st) (Head st) [] l v rest (Size st)
                (<[v := true]> ∅) [v]) as (h' & Hr & Hseg).
    { done. }
    { apply seen_get_insert. intros k. unfold seen_get. rewrite lookup_empty. simpl.
      split; [done | by intros ?%elem_of_nil]. }
    rewrite <- E in Hr. eexists. split.
    + eapply returns_bind; [exact Hr|]. reflexivity.
    + unfold first_occurrences. cbn [unseen_only].
      rewrite decide_False by (by intros ?%elem_of_nil).
      split; simpl; [done|]. simpl in Hs. lia.
Qed.

Lemma sublist_unseen_only earlier cells : unseen_only earlier cells `sublist_of` cells.
Proof.
  revert earlier. induction cells as [|[l v] cells IH]; intros earlier; simpl; [done|].
  case_decide; [by apply sublist_cons | by apply sublist_skip].
Qed.

Lemma elem_of_unseen_only earlier cells i l v :
  NoDup cells.*1 → cells !! i = Some (l, v) →
  (l, v) ∈ unseen_only earlier cells ↔ (v ∉ earlier) ∧ (v ∉ (take i cells).*2).
Proof.
  revert earlier i. induction cells as [|[l0 v0] cells IH]; intros earlier i Hnd Hc; [done|].
  rewrite fmap_cons in Hnd. apply NoDup_cons in Hnd as [Hl0 Hnd]. simpl in Hl0.
  assert (∀ v', (l0, v') ∉ cells) as Hl0'.
  { intros v' Hin. apply Hl0. apply list_elem_of_fmap. by exists (l0, v'). }
  destruct i as [|i]; simpl in Hc.
  - injection Hc as -> ->. simpl. case_decide as Hv.
    + split; [|by intros [? _]]. intros Hin. exfalso. apply (Hl0' v).
      eapply elem_of_sublist; [exact Hin | apply sublist_unseen_only].
    + split; [|intros _; by left]. intros _. split; [done|]. by intros ?%elem_of_nil.
  - assert (l ≠ l0) as Hne.
    { intros ->. apply (Hl0' v). by eapply list_elem_of_lookup_2. }
    simpl. case_decide as Hv.
    + rewrite (IH earlier i Hnd Hc). rewrite not_elem_of_cons.
      split; [|by intros (? & ? & ?)]. intros [H1 H2]. split; [done|].
      split; [|done]. by intros ->.
    + rewrite elem_of_cons, (IH (v0 :: earlier) i Hnd Hc), !not_elem_of_cons.
      split.
      * intros [[= ? ?]|((? & ?) & ?)]; done.
      * intros (? & ? & ?). by right.
Qed.

Lemma unseen_only_values earlier cells v :
  v ∈ (unseen_only earlier cells).*2 ↔ v ∈ cells.*2 ∧ v ∉ earlier.
Proof.
  revert earlier. induction cells as [|[l0 v0] cells IH]; intros earlier; simpl.
  - split; [by intros ?%elem_of_nil | by intros [?%elem_of_nil _]].
  - case_decide as Hv.
    + rewrite IH, elem_of_cons. split; [by intros [? ?]; split; [right|] |].
      intros [[->|?] ?]; done.
    + rewrite fmap_cons, !elem_of_cons, IH, not_elem_of_cons. cbn [snd]. split.
      * intros [->|(? & ? & ?)]; split; auto.
      * intros [[->|?] ?]; [by left|]. destruct (decide (v = v0)); [by left|]. by right.
Qed.

Lemma NoDup_unseen_only earlier cells : NoDup (unseen_only earlier cells).*2.
Proof.
  revert earlier. induction cells as [|[l0 v0] cells IH]; intros earlier; simpl.
  - constructor.
  - case_decide; [done|]. rewrite fmap_cons. constructor; [|done].
    cbn [snd]. rewrite unseen_only_values, not_elem_of_cons. by intros (_ & ? & _).
Qed.

Lemma length_unseen_only earlier cells :
  length (unseen_only earlier cells)
  = size (list_to_set cells.*2 ∖ list_to_set earlier : gset Z).
Proof.
  revert earlier. induction cells as [|[l0 v0] cells IH]; intros earlier.
  - simpl. replace (∅ ∖ list_to_set earlier : gset Z) with (∅ : gset Z) by set_solver.
    by rewrite size_empty.
  - cbn [unseen_only]. rewrite fmap_cons, list_to_set_cons. cbn [snd].
    set (X := list_to_set cells.*2 : gset Z) in *.
    case_decide as Hv.
    + rewrite IH. f_equal. apply set_eq. intros x.
      rewrite !elem_of_difference, elem_of_union, elem_of_singleton, !elem_of_list_to_set.
      split; [by intros [? ?]; split; [right|] |]. intros [[->|?] ?]; done.
    + cbn [length]. rewrite IH, list_to_set_cons.
      assert (({[v0]} ∪ X) ∖ list_to_set earlier
              = {[v0]} ∪ X ∖ ({[v0]} ∪ list_to_set earlier)) as ->.
      { apply set_eq. intros x.
        rewrite !elem_of_union, !elem_of_difference, !elem_of_union, !elem_of_singleton,
          !elem_of_list_to_set.
        destruct (decide (x = v0)) as [->|?]; naive_solver. }
      set (Y := X ∖ ({[v0]} ∪ list_to_set earlier)).
      assert (size ({[v0]} ∪ Y) = (size ({[v0]} : gset Z) + size Y)%nat) as ->.
      { apply size_union. set_solver. }
      by rewrite size_singleton.
Qed.

(** ** Linked list: steps preserve the invariant *)

Lemma op_step_is_list st st' cells :
  is_list st cells → op_step st st' → ∃ cells', is_list st' cells'.
Proof.
  intros Hst Hstep. pose proof Hst as [H Hs].
  destruct Hstep as [data E|data fuel E|data position e E|r E|fuel r E|position r E
                    |value fuel b E|fuel E|fuel E|E].
  - destruct (Prepend_spec data _ _ Hst) as (l & st1 & E1 & H1).
    rewrite E1 in E. injection E as <-. eauto.
  - destruct (Append_spec data _ _ Hst) as (l & st1 & E1 & H1).
    rewrite (returns_Done _ _ _ _ _ E1 E). eauto.
  - destruct (decide (0 ≤ position ≤ Z.of_nat (length cells))) as [Hpos|Hpos].
    + destruct (InsertAt_spec data position _ _ Hst Hpos) as (l & st1 & E1 & H1).
      rewrite E1 in E. injection E as <- <-. eauto.
    + rewrite InsertAt_invalid in E by lia. injection E as <- <-. eauto.
  - destruct cells as [|[l v] cells].
    + rewrite DeleteFirst_empty in E by by apply IsEmpty_nil.
      injection E as <- <-. eauto.
    + destruct (DeleteFirst_spec _ _ _ _ Hst) as (st1 & E1 & H1).
      rewrite E1 in E. injection E as <- <-. eauto.
  - destruct cells as [|[l v] cells _] using rev_ind.
    + rewrite DeleteLast_empty in E by by apply IsEmpty_nil.
      injection E as <- <-. eauto.
    + destruct (DeleteLast_spec _ _ _ _ Hst) as (st1 & E1 & H1).
      pose proof (returns_Done _ _ _ _ _ E1 E) as [= -> _]. eauto.
  - destruct (decide (0 ≤ position < Z.of_nat (length cells))) as [Hpos|Hpos].
    + destruct (lookup_lt_is_Some_2 cells (Z.to_nat position)) as [[l v] Hc]; [lia|].
      destruct (DeleteAt_spec position _ _ _ _ Hst ltac:(lia) Hc) as (st1 & E1 & H1).
      rewrite E1 in E. injection E as <- <-. eauto.
    + rewrite DeleteAt_invalid in E by lia. injection E as <- <-. eauto.
  - destruct (DeleteByValue_spec value _ _ Hst) as (need & st1 & b1 & cells1 & E1 & H1).
    pose proof (returns_Done _ _ _ _ _ E1 E) as [= -> _]. eauto.
  - destruct (Reverse_spec _ _ Hst) as (st1 & E1 & H1).
    rewrite (returns_Done _ _ _ _ _ E1 E). eauto.
  - destruct (RemoveDuplicates_spec _ _ Hst) as (st1 & E1 & H1).
    rewrite (returns_Done _ _ _ _ _ E1 E). eauto.
  - destruct (Clear_spec st) as (st1 & E1 & H1).
    rewrite E1 in E. injection E as <-. eauto.
Qed.

Lemma reachable_is_list st : reachable st → ∃ cells, is_list st cells.
Proof.
  induction 1 as [|st st' _ [cells IH] Hstep].
  - by exists [].
  - by eapply op_step_is_list.
Qed.

(** [Size] never exceeds the number of nodes allocated so far, which is why
    the counter is modelled without wrap-around. *)
Lemma Size_le_allocated st cells :
  is_list st cells → Size st ≤ Z.of_nat (size (dom (nodes st))).
Proof.
  intros Hst. pose proof (is_list_NoDup _ _ Hst) as Hnd. destruct Hst as [H ->].
  apply inj_le. rewrite <- (length_fmap fst cells).
  rewrite <- (size_list_to_set (C := gset positive) cells.*1 Hnd).
  apply subseteq_size. intros l Hl. apply elem_of_list_to_set in Hl.
  apply elem_of_dom. by eapply lseg_lookup.
Qed.

Lemma insert_step_op_step st st' : insert_step st st' → op_step st st'.
Proof.
  intros [data E|data fuel E|data position E].
  - by eapply step_Prepend.
  - by eapply step_Append.
  - by eapply step_InsertAt.
Qed.

Lemma built_reachable st : built st → reachable st.
Proof.
  induction 1 as [|st st' _ IH Hstep]; [constructor|].
  eapply reachable_step; [exact IH | by apply insert_step_op_step].
Qed.

End Operations.

(** ** Linked list: the claims of the specification *)

Section LinkedListClaims.
Import LinkedList.
Implicit Types (st : state) (cells : list (positive * Z)).

(** A concrete chain is checked node by node. *)
Ltac check_is_list :=
  split; [vm_compute; repeat (split; [reflexivity | eexists; split; [reflexivity|]]);
          reflexivity
         | reflexivity].

(** Case analysis on a call that completed. *)
Ltac break_outcome :=
  repeat match goal with
  | H : Done _ = Done _ |- _ => injection H as ?; subst
  | H : Panic = Done _ |- _ => discriminate H
  | H : OutOfFuel = Done _ |- _ => discriminate H
  | H : obind ?m _ = Done _ |- _ => destruct m eqn:?; simpl in H
  | H : (let '(_, _) := ?x in _) = Done _ |- _ => destruct x; simpl in H
  | H : (if ?b then _ else _) = Done _ |- _ => destruct b eqn:?
  | H : match ?x with Some _ => _ | None => _ end = Done _ |- _ => destruct x eqn:?
  end.

(** The scenario of the specification's test section runs as described:
    append 1, 2, 3; prepend 0; insert 99 at position 2; search 99; delete the
    first element. *)
Example scenario :
  (st ←! of_values [1; 2; 3];
   st ←! Prepend 0 st;
   '(st, _) ←! InsertAt 99 2 st;
   '(_, before) ←! ToSlice 6 st;
   '(_, i) ←! Search 99 6 st;
   '(st, (v, _)) ←! DeleteFirst st;
   '(_, after) ←! ToSlice 6 st;
   Done (before, i, v, after))
  = Done ([0; 1; 99; 2; 3], 2, 0, [1; 99; 2; 3]).
Proof. vm_compute. reflexivity. Qed.

(** C1.  Every state reachable from the empty list through the public
    operations (Prepend, Append, InsertAt, DeleteFirst, DeleteLast, DeleteAt,
    DeleteByValue, Reverse, RemoveDuplicates, Clear) satisfies the state
    invariant: the chain from [Head] is nil-terminated, [Size] equals the
    number of its nodes, and [Head] is nil exactly when [Size] is zero; and
    so does the state any further operation leaves. *)
Theorem reachable_invariant st :
  reachable st → invariant st ∧ ∀ st', op_step st st' → invariant st'.
Proof.
  intros Hst. split.
  - apply reachable_is_list in Hst as [cells H]. by eapply is_list_invariant.
  - intros st' Hstep.
    assert (reachable st') as [cells H]%reachable_is_list by by eapply reachable_step.
    by eapply is_list_invariant.
Qed.

Lemma reachable_invariant_witness : reachable list_7_8 ∧ invariant list_7_8.
Proof.
  assert (reachable list_7) as H1.
  { apply (reachable_step NewLinkedList); [constructor|].
    apply (step_Prepend _ _ 7). vm_compute. reflexivity. }
  assert (reachable list_7_8) as H2.
  { apply (reachable_step list_7); [exact H1|].
    apply (step_Append _ _ 8 1). vm_compute. reflexivity. }
  split; [exact H2 | exact (proj1 (reachable_invariant _ H2))].
Defined.

(** C2 as stated fails: on the four-element list 1,2,3,4 [FindMiddle]
    returns 3, the value at index 2, while index (4-1)/2 = 1 holds 2. *)
Lemma FindMiddle_not_lower_middle :
  ToSlice 5 list_1234 = Done (list_1234, [1; 2; 3; 4])
  ∧ Size list_1234 = 4
  ∧ FindMiddle 3 list_1234 = Done (list_1234, (3, None))
  ∧ [1; 2; 3; 4] !! Z.to_nat ((Size list_1234 - 1) `quot` 2) = Some 2.
Proof. vm_compute. done. Qed.

(** C2, amended.  On a non-empty list [FindMiddle] succeeds and returns the
    value at 0-based index count/2 (rounded down), the later of the two
    middles for an even count; on the empty list it fails with the
    empty-list error and leaves the list as it is. *)
Theorem FindMiddle_correct st cells :
  is_list st cells →
  (cells = [] →
   ∀ fuel, FindMiddle fuel st = Done (st, (0, Some ErrEmpty))
           ∧ classify ErrEmpty = EmptyList)
  ∧ (cells ≠ [] →
     ∃ v, cells.*2 !! (length cells / 2)%nat = Some v
          ∧ returns (λ fuel, FindMiddle fuel st) (S (length cells / 2)) (st, (v, None))).
Proof.
  intros Hst. split.
  - intros -> fuel. split; [|done]. apply FindMiddle_empty. by apply IsEmpty_nil.
  - intros Hne.
    destruct (lookup_lt_is_Some_2 cells (length cells / 2)) as [[l v] Hc].
    { destruct cells; [done|]. cbn [length]. lia. }
    exists v. split; [by rewrite list_lookup_fmap, Hc|]. by eapply FindMiddle_spec.
Qed.

Lemma FindMiddle_correct_witness :
  is_list list_1234 [(1%positive, 1); (2%positive, 2); (3%positive, 3); (4%positive, 4)]
  ∧ FindMiddle 3 list_1234 = Done (list_1234, (3, None)).
Proof.
  assert (is_list list_1234
            [(1%positive, 1); (2%positive, 2); (3%positive, 3); (4%positive, 4)]) as H
    by check_is_list.
  split; [exact H|].
  destruct (FindMiddle_correct _ _ H) as [_ Hr].
  destruct (Hr ltac:(discriminate)) as (v & Hv & Hret).
  injection Hv as <-.
  exact (returns_at _ _ _ 3%nat Hret ltac:(vm_compute; lia)).
Defined.

(** C3 as stated fails for [Search]: its argument is a value, not a
    position, and it has no error result.  On the one-element list holding
    1 (count 1), searching for the count returns index 0. *)
Lemma Search_count_found :
  Size list_1 = 1 ∧ Search (Size list_1) 2 list_1 = Done (list_1, 0).
Proof. vm_compute. done. Qed.

(** C3, amended.  Given -1 or the count, [DeleteAt] and [Get] fail with an
    invalid-position error and leave the list unchanged.  [Search] takes a
    value and cannot fail: given -1 or the count it returns the index of the
    first node holding that value, or the sentinel -1 when there is none,
    and leaves the list unchanged. *)
Theorem boundary_positions st cells position :
  is_list st cells →
  position = -1 ∨ position = Z.of_nat (length cells) →
  DeleteAt position st = Done (st, (0, Some (ErrInvalidPosition position)))
  ∧ Get position st = Done (st, (0, Some (ErrInvalidPosition position)))
  ∧ classify (ErrInvalidPosition position) = InvalidPosition
  ∧ ∃ need, returns (λ fuel, Search position fuel st) need
              (st, first_index position cells.*2).
Proof.
  intros Hst Hpos. pose proof Hst as [H Hs].
  split; [apply DeleteAt_invalid; lia|].
  split; [apply Get_invalid; lia|].
  split; [done|]. by apply Search_spec.
Qed.

Lemma boundary_positions_witness :
  is_list list_1234 [(1%positive, 1); (2%positive, 2); (3%positive, 3); (4%positive, 4)]
  ∧ DeleteAt 4 list_1234 = Done (list_1234, (0, Some (ErrInvalidPosition 4)))
  ∧ Get 4 list_1234 = Done (list_1234, (0, Some (ErrInvalidPosition 4))).
Proof.
  assert (is_list list_1234
            [(1%positive, 1); (2%positive, 2); (3%positive, 3); (4%positive, 4)]) as H
    by check_is_list.
  split; [exact H|].
  pose proof (boundary_positions _ _ 4 H ltac:(right; reflexivity)) as (H1 & H2 & _).
  split; [exact H1 | exact H2].
Defined.

(** C4.  A call of [InsertAt], [DeleteFirst], [DeleteLast], [DeleteAt], [Get]
    or [FindMiddle] that returns an error leaves the state (node heap, [Head]
    and [Size]) exactly as it was, whatever the state. *)
Theorem error_leaves_state c fuel st st' e :
  call c fuel st = Done (st', Some e) → st' = st.
Proof.
  intros H. destruct c; unfold call in H.
  - unfold InsertAt, Prepend, new_node in H. break_outcome; done.
  - break_outcome. unfold DeleteFirst in *. break_outcome; done.
  - break_outcome. unfold DeleteLast in *. break_outcome; done.
  - break_outcome. unfold DeleteAt, DeleteFirst in *. break_outcome; done.
  - break_outcome. unfold Get in *. break_outcome; done.
  - break_outcome. unfold FindMiddle in *. break_outcome; done.
Qed.

Lemma error_leaves_state_witness :
  call (CallDeleteAt 4) 0 list_1234 = Done (list_1234, Some (ErrInvalidPosition 4))
  ∧ list_1234 = list_1234.
Proof.
  assert (call (CallDeleteAt 4) 0 list_1234
          = Done (list_1234, Some (ErrInvalidPosition 4))) as H
    by (vm_compute; reflexivity).
  split; [exact H | exact (error_leaves_state _ _ _ _ _ H)].
Defined.

(** C5.  [Reverse] is an involution on acyclic lists: one call yields the
    reversed value sequence with the same count, and a second call yields
    the original value sequence with the same count. *)
Theorem Reverse_involution st cells :
  is_list st cells →
  ∃ st1 st2,
    returns (λ fuel, Reverse fuel st) (S (length cells)) st1
    ∧ returns (λ fuel, Reverse fuel st1) (S (length cells)) st2
    ∧ returns (λ fuel, ToSlice fuel st) (S (length cells)) (st, cells.*2)
    ∧ returns (λ fuel, ToSlice fuel st1) (S (length cells)) (st1, reverse cells.*2)
    ∧ returns (λ fuel, ToSlice fuel st2) (S (length cells)) (st2, cells.*2)
    ∧ Size st1 = Size st ∧ Size st2 = Size st.
Proof.
  intros Hst.
  destruct (Reverse_spec _ _ Hst) as (st1 & Hr1 & Hst1).
  destruct (Reverse_spec _ _ Hst1) as (st2 & Hr2 & Hst2).
  rewrite reverse_involutive in Hst2. rewrite length_reverse in Hr2.
  exists st1, st2. split; [done|]. split; [done|].
  split; [by apply ToSlice_spec|].
  split.
  { pose proof (ToSlice_spec _ _ Hst1) as Ht.
    by rewrite length_reverse, fmap_reverse in Ht. }
  split; [by apply ToSlice_spec|].
  destruct Hst as [_ ->], Hst1 as [_ ->], Hst2 as [_ ->].
  by rewrite length_reverse.
Qed.

Lemma Reverse_involution_witness :
  is_list list_1234 [(1%positive, 1); (2%positive, 2); (3%positive, 3); (4%positive, 4)]
  ∧ ∃ st1 st2,
      Reverse 5 list_1234 = Done st1 ∧ Reverse 5 st1 = Done st2
      ∧ ToSlice 5 st1 = Done (st1, [4; 3; 2; 1])
      ∧ ToSlice 5 st2 = Done (st2, [1; 2; 3; 4]).
Proof.
  assert (is_list list_1234
            [(1%positive, 1); (2%positive, 2); (3%positive, 3); (4%positive, 4)]) as H
    by check_is_list.
  split; [exact H|].
  destruct (Reverse_involution _ _ H) as (st1 & st2 & H1 & H2 & _ & H4 & H5 & _).
  exists st1, st2.
  split; [exact (returns_at _ _ _ 5%nat H1 ltac:(simpl; lia))|].
  split; [exact (returns_at _ _ _ 5%nat H2 ltac:(simpl; lia))|].
  split; [exact (returns_at _ _ _ 5%nat H4 ltac:(simpl; lia))|].
  exact (returns_at _ _ _ 5%nat H5 ltac:(simpl; lia)).
Defined.

(** C6.  On every list built from the empty list by [Prepend], [Append] and
    successful [InsertAt] calls, [HasCycle] returns false: it completes
    within a budget of one more than half the count, and no budget makes it
    return true. *)
Theorem HasCycle_built st :
  built st →
  ∃ need, (Z.of_nat need ≤ Size st `quot` 2 + 1)
          ∧ returns (λ fuel, HasCycle fuel st) need (st, false).
Proof.
  intros [cells Hst]%built_reachable%reachable_is_list.
  eexists. split; [|by eapply HasCycle_spec].
  destruct Hst as [_ ->]. destruct cells; cbn [length]; lia.
Qed.

Lemma HasCycle_built_witness :
  built list_7_8 ∧ HasCycle 2 list_7_8 = Done (list_7_8, false).
Proof.
  assert (built list_7) as H1.
  { apply (built_step NewLinkedList); [constructor|].
    apply (ins_Prepend _ _ 7). vm_compute. reflexivity. }
  assert (built list_7_8) as H2.
  { apply (built_step list_7); [exact H1|].
    apply (ins_Append _ _ 8 1). vm_compute. reflexivity. }
  split; [exact H2|].
  destruct (HasCycle_built _ H2) as (need & Hneed & Hr).
  apply (returns_at _ _ _ 2%nat Hr). change (Size list_7_8) with 2 in Hneed. lia.
Defined.

(** C7.  On an acyclic list [RemoveDuplicates] keeps exactly the nodes whose
    value does not occur earlier in the list, that is the first occurrence of
    every distinct value, in their original order; the values left are
    pairwise distinct, every value of the list is still present, and the
    count becomes the number of distinct values.  On 1,2,2,3,3,3,4,5,5 the
    result is 1,2,3,4,5 with count 5. *)
Theorem RemoveDuplicates_correct st cells :
  is_list st cells →
  (∃ st',
     returns (λ fuel, RemoveDuplicates fuel st) (length cells) st'
     ∧ is_list st' (first_occurrences cells)
     ∧ returns (λ fuel, ToSlice fuel st') (S (length (first_occurrences cells)))
               (st', (first_occurrences cells).*2)
     ∧ Size st' = Z.of_nat (size (list_to_set cells.*2 : gset Z)))
  ∧ first_occurrences cells `sublist_of` cells
  ∧ (∀ i l v, cells !! i = Some (l, v) →
              (l, v) ∈ first_occurrences cells ↔ v ∉ (take i cells).*2)
  ∧ NoDup (first_occurrences cells).*2
  ∧ (∀ v, v ∈ (first_occurrences cells).*2 ↔ v ∈ cells.*2)
  ∧ (∃ st',
       RemoveDuplicates 9 list_dups = Done st'
       ∧ ToSlice 10 list_dups = Done (list_dups, [1; 2; 2; 3; 3; 3; 4; 5; 5])
       ∧ ToSlice 6 st' = Done (st', [1; 2; 3; 4; 5])
       ∧ Size st' = 5).
Proof.
  intros Hst. pose proof (is_list_NoDup _ _ Hst) as Hnd.
  split; [|split; [|split; [|split; [|split]]]].
  - destruct (RemoveDuplicates_spec _ _ Hst) as (st' & Hr & Hst').
    exists st'. split; [done|]. split; [done|]. split; [by apply ToSlice_spec|].
    destruct Hst' as [_ ->]. unfold first_occurrences.
    rewrite length_unseen_only. do 2 f_equal. set_solver.
  - apply sublist_unseen_only.
  - intros i l v Hc. unfold first_occurrences.
    rewrite (elem_of_unseen_only [] _ _ _ _ Hnd Hc).
    split; [by intros [_ ?] | intros ?; split; [by intros ?%elem_of_nil | done]].
  - apply NoDup_unseen_only.
  - intros v. unfold first_occurrences. rewrite unseen_only_values.
    split; [by intros [? _] | intros ?; split; [done | by intros ?%elem_of_nil]].
  - exists (state_of (RemoveDuplicates 9 list_dups)). vm_compute. done.
Qed.

Lemma RemoveDuplicates_correct_witness :
  is_list list_1234 [(1%positive, 1); (2%positive, 2); (3%positive, 3); (4%positive, 4)]
  ∧ ∃ st', RemoveDuplicates 4 list_1234 = Done st'.
Proof.
  assert (is_list list_1234
            [(1%positive, 1); (2%positive, 2); (3%positive, 3); (4%positive, 4)]) as H
    by check_is_list.
  split; [exact H|].
  destruct (RemoveDuplicates_correct _ _ H) as ((st' & Hr & _) & _).
  exists st'. exact (returns_at _ _ _ 4%nat Hr ltac:(simpl; lia)).
Defined.

End LinkedListClaims.

(** ** Sorted arrays *)

Lemma StronglySorted_lookup {A} (R : relation A) (l : list A) i j x y :
  StronglySorted R l → (i < j)%nat → l !! i = Some x → l !! j = Some y → R x y.
Proof.
  intros Hl. revert i j. induction Hl as [|a l Hl IH Hall]; intros i j Hij Hi Hj; [done|].
  destruct j as [|j]; [lia|]. simpl in Hj. destruct i as [|i]; simpl in Hi.
  - injection Hi as ->. rewrite Forall_lookup in Hall. by eapply Hall.
  - eapply (IH i j); [lia | done..].
Qed.

Lemma Sorted_le_lookup (l : list Z) i j x y :
  Sorted Z.le l → (i ≤ j)%nat → l !! i = Some x → l !! j = Some y → x ≤ y.
Proof.
  intros Hl%Sorted_StronglySorted Hij Hi Hj; [|apply _].
  destruct (decide (i = j)) as [->|Hne].
  - rewrite Hi in Hj. injection Hj as ->. lia.
  - eapply (StronglySorted_lookup Z.le); [done | | done..]. lia.
Qed.

Lemma index_lookup {A} (a : list A) (i : nat) x :
  a !! i = Some x → index a (Z.of_nat i) = Done x.
Proof.
  intros Hi. pose proof (lookup_lt_Some _ _ _ Hi) as Hlt. unfold index.
  destruct (0 <=? Z.of_nat i) eqn:E1; [|lia].
  destruct (Z.of_nat i <? Z.of_nat (length a)) eqn:E2; [|lia].
  simpl. by rewrite Nat2Z.id, Hi.
Qed.

(** ** Binary search: the claim of the specification *)

Section BinarySearchClaims.
Import BinarySearch.

(** Whatever the budget, the loop either runs out of it or stops at an index
    that separates the elements below the target from the others. *)
Lemma insertion_loop_spec fuel (arr : list Z) target (left right : nat) :
  Sorted Z.le arr →
  (left ≤ right ≤ length arr)%nat →
  (∀ i x, arr !! i = Some x → (i < left)%nat → x < target) →
  (∀ i x, arr !! i = Some x → (right ≤ i)%nat → target ≤ x) →
  (insertion_loop fuel arr target (Z.of_nat left) (Z.of_nat right) = OutOfFuel
   ∧ (fuel ≤ right - left)%nat)
  ∨ ∃ r : nat,
      insertion_loop fuel arr target (Z.of_nat left) (Z.of_nat right) = Done (Z.of_nat r)
      ∧ (r ≤ length arr)%nat
      ∧ (∀ i x, arr !! i = Some x → (i < r)%nat → x < target)
      ∧ (∀ i x, arr !! i = Some x → (r ≤ i)%nat → target ≤ x).
Proof.
  intros Hsorted. revert left right.
  induction fuel as [|fuel IH]; intros left right Hlr Hlo Hhi.
  { left. split; [done | lia]. }
  simpl. destruct (Z.of_nat left <? Z.of_nat right) eqn:E.
  - set (mid := (left + (right - left) / 2)%nat).
    assert (Z.of_nat left + (Z.of_nat right - Z.of_nat left) `quot` 2 = Z.of_nat mid) as ->.
    { unfold mid. rewrite Z.quot_div_nonneg by lia. lia. }
    assert (left ≤ mid < right)%nat as Hmid by (unfold mid; lia).
    destruct (lookup_lt_is_Some_2 arr mid) as [x Hx]; [lia|].
    rewrite (index_lookup _ _ _ Hx). simpl.
    destruct (x <? target) eqn:Ex.
    + replace (Z.of_nat mid + 1) with (Z.of_nat (S mid)) by lia.
      destruct (IH (S mid) right) as [[Hout Hle]|Hdone]; [lia | | done | |].
      * intros i y Hy Hi.
        pose proof (Sorted_le_lookup _ i mid y x Hsorted ltac:(lia) Hy Hx). lia.
      * left. split; [done | lia].
      * by right.
    + destruct (IH left mid) as [[Hout Hle]|Hdone]; [lia | done | | |].
      * intros i y Hy Hi.
        pose proof (Sorted_le_lookup _ mid i x y Hsorted ltac:(lia) Hx Hy). lia.
      * left. split; [done | lia].
      * by right.
  - right. exists left. split; [done|]. split; [lia|]. split; [done|].
    intros i x Hx Hi. apply (Hhi i x Hx). lia.
Qed.

(** C10.  On an array sorted in non-descending order, [FindInsertionPoint]
    returns the least index whose element is at least the target, and the
    length of the array when there is none: exactly the elements before the
    returned index are smaller than the target.  Inserting the target at that
    index keeps the array sorted, and the index is not after any existing
    occurrence of the target.  The call returns this index whenever its loop
    budget exceeds the length of the array, and with a smaller budget it
    returns this index or runs out of budget. *)
Theorem FindInsertionPoint_correct (arr : list Z) (target : Z) :
  Sorted Z.le arr →
  ∃ r : nat,
    (∀ fuel, (length arr < fuel)%nat →
             FindInsertionPoint fuel arr target = Done (Z.of_nat r))
    ∧ (∀ fuel, FindInsertionPoint fuel arr target = Done (Z.of_nat r)
               ∨ FindInsertionPoint fuel arr target = OutOfFuel)
    ∧ (r ≤ length arr)%nat
    ∧ (∀ i x, arr !! i = Some x → target ≤ x ↔ (r ≤ i)%nat)
    ∧ ((∀ x, x ∈ arr → x < target) → r = length arr)
    ∧ Sorted Z.le (take r arr ++ target :: drop r arr)
    ∧ (∀ i, arr !! i = Some target → (r ≤ i)%nat).
Proof.
  intros Hsorted.
  assert (∀ fuel,
    (FindInsertionPoint fuel arr target = OutOfFuel ∧ (fuel ≤ length arr)%nat)
    ∨ ∃ r : nat,
        FindInsertionPoint fuel arr target = Done (Z.of_nat r)
        ∧ (r ≤ length arr)%nat
        ∧ (∀ i x, arr !! i = Some x → (i < r)%nat → x < target)
        ∧ (∀ i x, arr !! i = Some x → (r ≤ i)%nat → target ≤ x)) as Hcases.
  { intros fuel. unfold FindInsertionPoint. change 0 with (Z.of_nat 0).
    destruct (insertion_loop_spec fuel arr target 0 (length arr) Hsorted)
      as [[Hout Hle]|Hdone]; [lia | intros; lia | | |].
    - intros i x Hx Hi. apply lookup_lt_Some in Hx. lia.
    - left. split; [done | lia].
    - by right. }
  destruct (Hcases (S (length arr))) as [[_ Hle]|(r & Hrun & Hr & Hlo & Hhi)]; [lia|].
  assert (∀ fuel r', FindInsertionPoint fuel arr target = Done (Z.of_nat r') →
                     (r' ≤ length arr)%nat →
                     (∀ i x, arr !! i = Some x → (i < r')%nat → x < target) →
                     (∀ i x, arr !! i = Some x → (r' ≤ i)%nat → target ≤ x) →
                     r' = r) as Hunique.
  { intros fuel r' _ Hr' Hlo' Hhi'.
    destruct (decide (r' < r)%nat) as [Hlt|Hge].
    - destruct (lookup_lt_is_Some_2 arr r') as [x Hx]; [lia|].
      pose proof (Hlo _ _ Hx Hlt). pose proof (Hhi' _ _ Hx ltac:(lia)). lia.
    - destruct (decide (r < r')%nat) as [Hlt|Hge']; [|lia].
      destruct (lookup_lt_is_Some_2 arr r) as [x Hx]; [lia|].
      pose proof (Hlo' _ _ Hx Hlt). pose proof (Hhi _ _ Hx ltac:(lia)). lia. }
  assert (∀ fuel, FindInsertionPoint fuel arr target = Done (Z.of_nat r)
                  ∨ FindInsertionPoint fuel arr target = OutOfFuel) as Hany.
  { intros fuel. destruct (Hcases fuel) as [[Hout _]|(r' & Hrun' & Hr' & Hlo' & Hhi')].
    - by right.
    - left. by rewrite Hrun', (Hunique fuel r' Hrun' Hr' Hlo' Hhi'). }
  exists r. split.
  { intros fuel Hfuel. destruct (Hany fuel) as [|Hout]; [done|].
    destruct (Hcases fuel) as [[_ Hle]|(r' & Hrun' & _)]; [lia | congruence]. }
  split; [done|]. split; [done|].
  assert (∀ i x, arr !! i = Some x → target ≤ x ↔ (r ≤ i)%nat) as Hiff.
  { intros i x Hx. split; [|by apply Hhi].
    intros Hle. destruct (decide (r ≤ i)%nat) as [|Hlt]; [done|].
    pose proof (Hlo _ _ Hx ltac:(lia)). lia. }
  split; [done|]. split; [|split].
  - intros Hall. destruct (decide (r = length arr)) as [|Hne]; [done|].
    destruct (lookup_lt_is_Some_2 arr r) as [x Hx]; [lia|].
    pose proof (Hhi _ _ Hx ltac:(lia)).
    pose proof (Hall x ltac:(by eapply list_elem_of_lookup_2)). lia.
  - apply Sorted_StronglySorted in Hsorted; [|apply _].
    rewrite <- (take_drop r arr) in Hsorted.
    apply StronglySorted_app in Hsorted as (Hcross & Hl & Hr').
    apply StronglySorted_Sorted. apply StronglySorted_app. split; [|split].
    + intros x1 x2 [i [Hi Hir]%lookup_take_Some]%list_elem_of_lookup Hx2.
      pose proof (Hlo _ _ Hi Hir). apply elem_of_cons in Hx2 as [->|Hx2]; [lia|].
      apply list_elem_of_lookup in Hx2 as [j Hj]. rewrite lookup_drop in Hj.
      pose proof (Hhi _ _ Hj ltac:(lia)). lia.
    + done.
    + constructor; [done|]. apply Forall_forall. intros x [j Hj]%list_elem_of_lookup.
      rewrite lookup_drop in Hj. apply (Hhi _ _ Hj). lia.
  - intros i Hi. apply (Hiff i target Hi). lia.
Qed.

Lemma FindInsertionPoint_correct_witness :
  Sorted Z.le [10; 20; 30; 40; 50]
  ∧ FindInsertionPoint 6 [10; 20; 30; 40; 50] 35 = Done 3.
Proof.
  assert (Sorted Z.le [10; 20; 30; 40; 50]) as H.
  { repeat constructor; lia. }
  split; [exact H|].
  destruct (FindInsertionPoint_correct _ 35 H) as (r & Hrun & _).
  pose proof (Hrun 6%nat ltac:(simpl; lia)) as E.
  rewrite E. vm_compute in E. exact (eq_sym E).
Defined.

End BinarySearchClaims.

(** ** Go's [int]: wrap-around *)

Lemma int_bits_cases sz :
  2 ^ int_bits sz = 2 * 2 ^ (int_bits sz - 1) ∧ 65536 * 65536 ≤ 2 * 2 ^ (int_bits sz - 1).
Proof. destruct sz; vm_compute; split; (reflexivity || discriminate). Qed.

Lemma wrap_range sz x : min_int sz ≤ wrap sz x ≤ max_int sz.
Proof.
  unfold wrap, min_int, max_int. destruct (int_bits_cases sz) as [-> Hbig].
  set (h := 2 ^ (int_bits sz - 1)) in *. lia.
Qed.

Lemma wrap_small sz x : min_int sz ≤ x ≤ max_int sz → wrap sz x = x.
Proof.
  unfold wrap, min_int, max_int. destruct (int_bits_cases sz) as [-> Hbig].
  set (h := 2 ^ (int_bits sz - 1)) in *. intros Hx.
  rewrite Z.mod_small by lia. lia.
Qed.

Lemma wrap_exact sz x : 0 ≤ x ≤ max_int sz → wrap sz x = x.
Proof.
  intros Hx. apply wrap_small. unfold min_int.
  destruct (int_bits_cases sz) as [_ Hbig]. lia.
Qed.

Lemma wrap_0 sz : wrap sz 0 = 0.
Proof.
  apply wrap_small. unfold min_int, max_int.
  destruct (int_bits_cases sz) as [_ Hbig]. lia.
Qed.

Lemma wrap_add_l sz a b : wrap sz (wrap sz a + b) = wrap sz (a + b).
Proof.
  unfold wrap. f_equal.
  replace ((a + 2 ^ (int_bits sz - 1)) `mod` 2 ^ int_bits sz - 2 ^ (int_bits sz - 1)
           + b + 2 ^ (int_bits sz - 1))
    with ((a + 2 ^ (int_bits sz - 1)) `mod` 2 ^ int_bits sz + b) by lia.
  rewrite Zplus_mod_idemp_l. f_equal. lia.
Qed.

Lemma wrap_add_r sz a b : wrap sz (a + wrap sz b) = wrap sz (a + b).
Proof. by rewrite (Z.add_comm a), wrap_add_l, (Z.add_comm b). Qed.

Lemma wrap_wrap sz x : wrap sz (wrap sz x) = wrap sz x.
Proof. apply wrap_small, wrap_range. Qed.

(** The wrapped value differs from the exact one by a multiple of
    [2 ^ int_bits]. *)
Lemma wrap_congruent sz x : ∃ k, wrap sz x = x + k * 2 ^ int_bits sz.
Proof.
  unfold wrap. exists (- ((x + 2 ^ (int_bits sz - 1)) `div` 2 ^ int_bits sz)).
  pose proof (Z.div_mod (x + 2 ^ (int_bits sz - 1)) (2 ^ int_bits sz)) as H.
  destruct (int_bits_cases sz) as [E Hbig]. lia.
Qed.

(** ** Merge sort: arrays *)

Lemma index_middle {A} (a b : list A) x :
  index (a ++ x :: b) (Z.of_nat (length a)) = Done x.
Proof. apply index_lookup. by rewrite list_lookup_middle. Qed.

Lemma assign_middle {A} (a b : list A) x y :
  assign (a ++ y :: b) (Z.of_nat (length a)) x = Done (a ++ x :: b).
Proof.
  unfold assign. rewrite length_app. cbn [length].
  destruct (0 <=? Z.of_nat (length a)) eqn:E1; [|lia].
  destruct (Z.of_nat (length a) <? Z.of_nat (length a + S (length b))) eqn:E2; [|lia].
  simpl. rewrite Nat2Z.id. f_equal.
  rewrite insert_app_r_alt by lia. by rewrite Nat.sub_diag.
Qed.

Lemma make_spec {A} (zero : A) (n : nat) :
  make zero (Z.of_nat n) = Done (replicate n zero).
Proof. unfold make. destruct (Z.of_nat n <? 0) eqn:E; [lia|]. by rewrite Nat2Z.id. Qed.

Lemma copy_full {A} (zero : A) (l : list A) : copy (replicate (length l) zero) l = l.
Proof.
  unfold copy. rewrite length_replicate, firstn_all, drop_ge, app_nil_r; [done|].
  by rewrite length_replicate.
Qed.

Lemma subslice_middle {A} (a l b : list A) :
  subslice (a ++ l ++ b) (Z.of_nat (length a)) (Z.of_nat (length a + length l)) = Done l.
Proof.
  unfold subslice. rewrite !length_app.
  destruct (0 <=? Z.of_nat (length a)) eqn:E1; [|lia].
  destruct (Z.of_nat (length a) <=? Z.of_nat (length a + length l)) eqn:E2; [|lia].
  destruct (Z.of_nat (length a + length l)
            <=? Z.of_nat (length a + (length l + length b))) eqn:E3; [|lia].
  simpl. f_equal. rewrite Nat2Z.id, drop_app_length.
  replace (Z.to_nat (Z.of_nat (length a + length l) - Z.of_nat (length a)))
    with (length l) by lia.
  by rewrite take_app_length.
Qed.

(** Slices in a store. *)
Lemma elements_of_fresh {A} (m : gmap positive (list A)) out :
  elements_of (<[fresh (dom m) := out]> m) (mkSlice (fresh (dom m)) 0 (length out))
  = Done out.
Proof.
  unfold elements_of. simpl. rewrite lookup_insert_eq.
  rewrite decide_True by lia. by rewrite drop_0, firstn_all.
Qed.

Lemma lookup_insert_fresh {A} (m : gmap positive (list A)) out b :
  is_Some (m !! b) → <[fresh (dom m) := out]> m !! b = m !! b.
Proof.
  intros Hb. apply lookup_insert_ne. intros <-.
  apply elem_of_dom in Hb. by apply is_fresh in Hb.
Qed.

Lemma elements_of_insert_fresh {A} (m : gmap positive (list A)) out arr a :
  elements_of m arr = Done a →
  elements_of (<[fresh (dom m) := out]> m) arr = Done a.
Proof.
  unfold elements_of. intros H.
  destruct (m !! base arr) as [b|] eqn:Eb; [|done].
  rewrite lookup_insert_fresh by (by rewrite Eb). by rewrite Eb.
Qed.

Lemma lookup_fresh_None {A} (m : gmap positive (list A)) : m !! fresh (dom m) = None.
Proof. apply not_elem_of_dom. apply is_fresh. Qed.

Section MergeLoops.
Import MergeSort.
Context {A : Type} (key : A → Z).
Implicit Types (l pre junk post : list A).

#[local] Instance key_le_total : Total (key_le key).
Proof. intros a b. unfold key_le. lia. Qed.

#[local] Instance key_le_trans : Transitive (key_le key).
Proof. intros a b c. unfold key_le. lia. Qed.

Lemma copy_rest_spec fuel done l pre junk post :
  length junk = length l → (length l < fuel)%nat →
  copy_rest fuel (done ++ l) (Z.of_nat (length (done ++ l))) (pre ++ junk ++ post)
            (Z.of_nat (length done)) (Z.of_nat (length pre))
  = Done (pre ++ l ++ post, Z.of_nat (length (done ++ l)),
          Z.of_nat (length pre + length l)).
Proof.
  revert fuel done pre junk.
  induction l as [|x l IH]; intros fuel done pre junk Hjunk Hfuel.
  - destruct junk; [|done]. destruct fuel as [|fuel]; [simpl in Hfuel; lia|].
    simpl. rewrite app_nil_r.
    destruct (Z.of_nat (length done) <? Z.of_nat (length done)) eqn:E; [lia|].
    do 3 f_equal. lia.
  - destruct junk as [|y junk]; [done|]. injection Hjunk as Hjunk.
    destruct fuel as [|fuel]; [lia|]. cbn [length] in Hfuel.
    cbn [copy_rest]. rewrite length_app. cbn [length].
    destruct (Z.of_nat (length done) <? Z.of_nat (length done + S (length l))) eqn:E; [|lia].
    rewrite index_middle. cbn [obind].
    change (pre ++ (y :: junk) ++ post) with (pre ++ y :: (junk ++ post)).
    rewrite assign_middle. cbn [obind].
    specialize (IH fuel (done ++ [x]) (pre ++ [x]) junk Hjunk ltac:(lia)).
    rewrite <- !app_assoc in IH. cbn [app] in IH.
    rewrite !length_app in IH. cbn [length] in IH.
    replace (Z.of_nat (length done) + 1) with (Z.of_nat (length done + 1)) by lia.
    replace (Z.of_nat (length pre) + 1) with (Z.of_nat (length pre + 1)) by lia.
    rewrite IH. do 3 f_equal. lia.
Qed.

(** The three loops of [mergeAndCount] from an intermediate state: the
    unwritten part of the range receives the merge of what is left of the two
    copies. *)
Lemma count_loops_spec sz f1 f2 ldone l1 rdone l2 pre junk post c :
  length junk = (length l1 + length l2)%nat →
  (length l1 + length l2 < f1)%nat → (length l1 + length l2 < f2)%nat →
  wrap sz c = c →
  ('(arr1, i, j, k, n) ←!
      count_loop key sz f1 (ldone ++ l1) (rdone ++ l2) (pre ++ junk ++ post)
        (Z.of_nat (length ldone)) (Z.of_nat (length rdone)) (Z.of_nat (length pre)) c;
   '(arr2, _, k) ←!
      copy_rest f2 (ldone ++ l1) (Z.of_nat (length (ldone ++ l1))) arr1 i k;
   '(arr3, _, _) ←!
      copy_rest f2 (rdone ++ l2) (Z.of_nat (length (rdone ++ l2))) arr2 j k;
   Done (arr3, n))
  = Done (pre ++ merge_lists key l1 l2 ++ post,
          wrap sz (c + Z.of_nat (merge_count key l1 l2))).
Proof.
  revert ldone l1 rdone l2 pre junk c.
  induction f1 as [|f1 IH]; intros ldone l1 rdone l2 pre junk c Hjunk Hf1 Hf2 Hc; [lia|].
  destruct l1 as [|x1 l1].
  { (* the left copy is used up *)
    cbn [count_loop]. rewrite app_nil_r.
    destruct (Z.of_nat (length ldone) <? Z.of_nat (length ldone)) eqn:E; [lia|].
    cbn [andb obind].
    pose proof (copy_rest_spec f2 ldone [] pre [] (junk ++ post) eq_refl ltac:(simpl; lia))
      as H2.
    rewrite app_nil_r in H2. cbn [app length] in H2. rewrite H2. cbn [obind].
    pose proof (copy_rest_spec f2 rdone l2 pre junk post Hjunk Hf2) as H3.
    rewrite Nat.add_0_r. rewrite H3. cbn [obind].
    unfold merge_lists. rewrite list_merge_nil_l. do 2 f_equal.
    replace (merge_count key [] l2) with 0%nat by (by destruct l2).
    by rewrite Z.add_0_r. }
  destruct l2 as [|x2 l2].
  { (* the right copy is used up *)
    cbn [count_loop]. rewrite (app_nil_r rdone).
    destruct (Z.of_nat (length rdone) <? Z.of_nat (length rdone)) eqn:E; [lia|].
    rewrite andb_false_r. cbn [obind].
    rewrite Nat.add_0_r in Hjunk, Hf2.
    pose proof (copy_rest_spec f2 ldone (x1 :: l1) pre junk post Hjunk Hf2) as H2.
    rewrite H2. cbn [obind].
    pose proof (copy_rest_spec f2 rdone [] (pre ++ x1 :: l1) [] post eq_refl
                  ltac:(simpl; lia)) as H3.
    rewrite app_nil_r in H3. cbn [app length] in H3.
    rewrite length_app in H3. rewrite <- app_assoc in H3. rewrite H3. cbn [obind].
    unfold merge_lists. rewrite list_merge_nil_r. do 2 f_equal.
    cbn [merge_count]. by rewrite Z.add_0_r. }
  destruct junk as [|y junk]; [done|]. cbn [length] in Hjunk, Hf1, Hf2.
  cbn [count_loop]. rewrite !length_app. cbn [length].
  destruct (Z.of_nat (length ldone) <? Z.of_nat (length ldone + S (length l1))) eqn:E1; [|lia].
  destruct (Z.of_nat (length rdone) <? Z.of_nat (length rdone + S (length l2))) eqn:E2; [|lia].
  cbn [andb]. rewrite !index_middle. cbn [obind].
  change (pre ++ (y :: junk) ++ post) with (pre ++ y :: (junk ++ post)).
  rewrite !assign_middle. cbn [obind].
  unfold merge_lists. rewrite list_merge_cons. cbn [merge_count].
  destruct (decide (key_le key x1 x2)) as [Hle|Hgt].
  - destruct (Z.leb_spec (key x1) (key x2)) as [_|Hlt]; [|unfold key_le in Hle; lia].
    specialize (IH (ldone ++ [x1]) l1 rdone (x2 :: l2) (pre ++ [x1]) junk c
                  ltac:(simpl; lia) ltac:(simpl; lia) ltac:(simpl; lia) Hc).
    rewrite <- !app_assoc in IH. cbn [app] in IH.
    rewrite !length_app in IH. cbn [length] in IH.
    replace (Z.of_nat (length ldone) + 1) with (Z.of_nat (length ldone + 1)) by lia.
    replace (Z.of_nat (length pre) + 1) with (Z.of_nat (length pre + 1)) by lia.
    exact IH.
  - destruct (Z.leb_spec (key x1) (key x2)) as [Hle|_]; [unfold key_le in Hgt; lia|].
    specialize (IH ldone (x1 :: l1) (rdone ++ [x2]) l2 (pre ++ [x2]) junk
                  (int_add sz c
                     (Z.of_nat (length ldone + S (length l1)) - Z.of_nat (length ldone)))
                  ltac:(simpl; lia) ltac:(simpl; lia) ltac:(simpl; lia)
                  ltac:(apply wrap_wrap)).
    rewrite <- !app_assoc in IH. cbn [app] in IH.
    rewrite !length_app in IH. cbn [length] in IH.
    replace (Z.of_nat (length rdone) + 1) with (Z.of_nat (length rdone + 1)) by lia.
    replace (Z.of_nat (length pre) + 1) with (Z.of_nat (length pre + 1)) by lia.
    rewrite IH. do 2 f_equal.
    change ((fix go (l3 : list A) : nat :=
               match l3 with
               | [] => 0%nat
               | x3 :: l2' =>
                   if decide (key_le key x1 x3) then merge_count key l1 l3
                   else (length (x1 :: l1) + go l2')%nat
               end) l2) with (merge_count key (x1 :: l1) l2).
    unfold int_add. rewrite wrap_add_l. f_equal. cbn [length]. lia.
Qed.

End MergeLoops.

(** ** Merge sort: merging sorted lists *)

Section MergeLists.
Import MergeSort.
Context {A : Type} (key : A → Z).
Implicit Types (l : list A).

#[local] Existing Instances key_le_total key_le_trans.

Lemma sorted_cons_inv x l :
  sorted key (x :: l) → sorted key l ∧ Forall (key_le key x) l.
Proof.
  intros H. apply Sorted_StronglySorted in H; [|apply _].
  apply StronglySorted_cons in H as [Hall H]. split; [|done].
  by apply StronglySorted_Sorted.
Qed.

Lemma filter_none (P : A → Prop) `{∀ x, Decision (P x)} l :
  Forall (λ x, ¬ P x) l → filter P l = [].
Proof.
  induction 1 as [|x l Hx _ IH]; [done|]. by rewrite filter_cons_False.
Qed.

Lemma filter_all (P : A → Prop) `{∀ x, Decision (P x)} l :
  Forall P l → filter P l = l.
Proof.
  induction 1 as [|x l Hx _ IH]; [done|]. rewrite filter_cons_True by done. by f_equal.
Qed.

Lemma sorted_merge_lists l1 l2 :
  sorted key l1 → sorted key l2 → sorted key (merge_lists key l1 l2).
Proof. apply Sorted_list_merge. apply _. Qed.

Lemma merge_lists_Permutation l1 l2 : merge_lists key l1 l2 ≡ₚ l1 ++ l2.
Proof. apply merge_Permutation. Qed.

(** Stability of the merge: elements with the same key come out in the
    order "left list first". *)
Lemma with_key_merge_lists k l1 l2 :
  sorted key l1 → sorted key l2 →
  with_key key k (merge_lists key l1 l2) = with_key key k l1 ++ with_key key k l2.
Proof.
  unfold merge_lists, with_key. revert l2.
  induction l1 as [|x1 l1 IH1]; intros l2 H1 H2.
  { by rewrite list_merge_nil_l. }
  induction l2 as [|x2 l2 IH2].
  { by rewrite list_merge_nil_r, filter_nil, app_nil_r. }
  rewrite list_merge_cons.
  destruct (sorted_cons_inv _ _ H1) as [H1' Hall1].
  destruct (sorted_cons_inv _ _ H2) as [H2' Hall2].
  case_decide as Hle.
  - rewrite !(filter_cons _ x1). rewrite (IH1 _ H1' H2). by case_decide.
  - rewrite (filter_cons _ x2 (list_merge _ _ _)), (IH2 H2'), (filter_cons _ x2 l2).
    case_decide as Hk; [|done].
    rewrite (filter_none _ (x1 :: l1)); [done|].
    constructor.
    + unfold key_le in Hle. lia.
    + eapply Forall_impl; [exact Hall1|]. unfold key_le in *. intros y Hy. simpl. lia.
Qed.

Lemma smaller_count_app x l1 l2 :
  smaller_count key x (l1 ++ l2) = (smaller_count key x l1 + smaller_count key x l2)%nat.
Proof. unfold smaller_count. by rewrite filter_app, length_app. Qed.

Lemma smaller_count_Permutation x l1 l2 :
  l1 ≡ₚ l2 → smaller_count key x l1 = smaller_count key x l2.
Proof. intros H. unfold smaller_count. by rewrite H. Qed.

Lemma cross_inversions_Permutation l1 l1' l2 l2' :
  l1 ≡ₚ l1' → l2 ≡ₚ l2' → cross_inversions key l1 l2 = cross_inversions key l1' l2'.
Proof.
  intros H1 H2. unfold cross_inversions. rewrite <- H1. clear H1.
  induction l1 as [|x l1 IH]; [done|]. simpl.
  by rewrite IH, (smaller_count_Permutation x _ _ H2).
Qed.

Lemma cross_inversions_nil_r l : cross_inversions key l [] = 0%nat.
Proof. unfold cross_inversions. induction l as [|x l IH]; [done|]. simpl. by rewrite IH. Qed.

Lemma cross_inversions_cons_r_all l y l2 :
  Forall (λ x, key y < key x) l →
  cross_inversions key l (y :: l2) = (length l + cross_inversions key l l2)%nat.
Proof.
  unfold cross_inversions.
  induction 1 as [|x l Hx _ IH]; [done|]. simpl. rewrite IH.
  unfold smaller_count. rewrite filter_cons_True by done. simpl. lia.
Qed.

Lemma inversions_from_app l1 l2 :
  inversions_from key (l1 ++ l2)
  = (inversions_from key l1 + inversions_from key l2 + cross_inversions key l1 l2)%nat.
Proof.
  induction l1 as [|x l1 IH]; [simpl; unfold cross_inversions; simpl; lia|].
  simpl. rewrite IH, smaller_count_app. unfold cross_inversions. simpl. lia.
Qed.

Lemma inversions_from_sorted l : sorted key l → inversions_from key l = 0%nat.
Proof.
  induction l as [|x l IH]; [done|]. intros [Hl Hall]%sorted_cons_inv.
  simpl. rewrite (IH Hl). unfold smaller_count.
  rewrite filter_none; [done|].
  eapply Forall_impl; [exact Hall|]. unfold key_le. intros y Hy. simpl. lia.
Qed.

(** On sorted lists the merge counts exactly the cross inversions. *)
Lemma merge_count_cross l1 l2 :
  sorted key l1 → sorted key l2 →
  merge_count key l1 l2 = cross_inversions key l1 l2.
Proof.
  revert l2. induction l1 as [|x1 l1 IH1]; intros l2 H1 H2.
  { by destruct l2. }
  induction l2 as [|x2 l2 IH2].
  { by rewrite cross_inversions_nil_r. }
  destruct (sorted_cons_inv _ _ H1) as [H1' Hall1].
  destruct (sorted_cons_inv _ _ H2) as [H2' Hall2].
  cbn [merge_count]. case_decide as Hle.
  - rewrite (IH1 _ H1' H2). unfold cross_inversions at 2. simpl.
    unfold smaller_count at 1. rewrite filter_none; [done|].
    constructor; [unfold key_le in Hle; lia|].
    eapply Forall_impl; [exact Hall2|]. unfold key_le in *. intros y Hy. simpl. lia.
  - change ((fix go (l3 : list A) : nat :=
               match l3 with
               | [] => 0%nat
               | x3 :: l2' =>
                   if decide (key_le key x1 x3) then merge_count key l1 l3
                   else (length (x1 :: l1) + go l2')%nat
               end) l2) with (merge_count key (x1 :: l1) l2).
    rewrite (IH2 H2'). rewrite cross_inversions_cons_r_all; [done|].
    constructor; [unfold key_le in Hle; lia|].
    eapply Forall_impl; [exact Hall1|]. unfold key_le in *. intros y Hy. simpl. lia.
Qed.

End MergeLists.

(** ** Merge sort: the recursive helpers *)

Section MergeHelpers.
Import MergeSort.
Context {A : Type} (key : A → Z) (zero : A).
Implicit Types (l pre seg post : list A).

#[local] Existing Instances key_le_total key_le_trans.

Lemma length_copy (dst src : list A) : length (copy dst src) = length dst.
Proof. unfold copy. rewrite length_app, length_take, length_drop. lia. Qed.

Lemma mergeAndCount_spec sz fuel pre s1 s2 post :
  (length s1 + length s2 < fuel)%nat →
  mergeAndCount key zero sz fuel (pre ++ s1 ++ s2 ++ post)
    (Z.of_nat (length pre)) (Z.of_nat (length pre) + Z.of_nat (length s1) - 1)
    (Z.of_nat (length pre) + Z.of_nat (length s1) + Z.of_nat (length s2) - 1)
  = Done (pre ++ merge_lists key s1 s2 ++ post,
          wrap sz (Z.of_nat (merge_count key s1 s2))).
Proof.
  intros Hfuel. unfold mergeAndCount.
  replace (Z.of_nat (length pre) + Z.of_nat (length s1) - 1 - Z.of_nat (length pre) + 1)
    with (Z.of_nat (length s1)) by lia.
  replace (Z.of_nat (length pre) + Z.of_nat (length s1) + Z.of_nat (length s2) - 1
           - (Z.of_nat (length pre) + Z.of_nat (length s1) - 1))
    with (Z.of_nat (length s2)) by lia.
  rewrite !make_spec. cbn [obind].
  replace (Z.of_nat (length pre) + Z.of_nat (length s1) - 1 + 1)
    with (Z.of_nat (length pre + length s1)) by lia.
  rewrite (subslice_middle pre s1 (s2 ++ post)). cbn [obind].
  replace (Z.of_nat (length pre) + Z.of_nat (length s1) + Z.of_nat (length s2) - 1 + 1)
    with (Z.of_nat (length (pre ++ s1) + length s2)) by (rewrite length_app; lia).
  replace (Z.of_nat (length pre + length s1)) with (Z.of_nat (length (pre ++ s1)))
    by (by rewrite length_app).
  replace (pre ++ s1 ++ s2 ++ post) with ((pre ++ s1) ++ s2 ++ post)
    by (by rewrite <- app_assoc).
  rewrite (subslice_middle (pre ++ s1) s2 post). cbn [obind].
  rewrite !copy_full.
  pose proof (count_loops_spec key sz fuel fuel [] s1 [] s2 pre (s1 ++ s2) post 0
                ltac:(by rewrite length_app) Hfuel Hfuel (wrap_0 sz)) as H.
  cbn [app length] in H. rewrite <- !app_assoc in H |- *. rewrite Z.add_0_l in H.
  exact H.
Qed.

(** [merge] is [mergeAndCount] without the counter. *)
Lemma merge_loop_count_loop sz fuel (la ra arr : list A) i j k n :
  merge_loop key fuel la ra (Z.of_nat (length la)) (Z.of_nat (length ra)) arr i j k
  = '(arr', i', j', k', _) ←! count_loop key sz fuel la ra arr i j k n;
    Done (arr', i', j', k').
Proof.
  revert arr i j k n. induction fuel as [|fuel IH]; intros arr i j k n; [done|].
  cbn [merge_loop count_loop].
  destruct ((i <? Z.of_nat (length la)) && (j <? Z.of_nat (length ra))); [|done].
  destruct (index la i) as [x| |]; [|done..]. cbn [obind].
  destruct (index ra j) as [y| |]; [|done..]. cbn [obind].
  destruct (key x <=? key y).
  - destruct (assign arr k x) as [arr'| |]; [|done..]. cbn [obind]. apply IH.
  - destruct (assign arr k y) as [arr'| |]; [|done..]. cbn [obind]. apply IH.
Qed.

Lemma merge_mergeAndCount sz fuel (arr : list A) left mid right :
  merge key zero fuel arr left mid right
  = '(arr', _) ←! mergeAndCount key zero sz fuel arr left mid right; Done arr'.
Proof.
  unfold merge, mergeAndCount.
  destruct (make zero (mid - left + 1)) as [l0| |] eqn:El; [|done..]. cbn [obind].
  destruct (make zero (right - mid)) as [r0| |] eqn:Er; [|done..]. cbn [obind].
  destruct (subslice arr left (mid + 1)) as [ls| |]; [|done..]. cbn [obind].
  destruct (subslice arr (mid + 1) (right + 1)) as [rs| |]; [|done..]. cbn [obind].
  assert (mid - left + 1 = Z.of_nat (length (copy l0 ls))) as ->.
  { rewrite length_copy. unfold make in El.
    destruct (mid - left + 1 <? 0) eqn:E; [done|]. injection El as <-.
    rewrite length_replicate. lia. }
  assert (right - mid = Z.of_nat (length (copy r0 rs))) as ->.
  { rewrite length_copy. unfold make in Er.
    destruct (right - mid <? 0) eqn:E; [done|]. injection Er as <-.
    rewrite length_replicate. lia. }
  rewrite (merge_loop_count_loop sz fuel _ _ arr 0 0 left 0).
  destruct (count_loop _ _ _ _ _ _ _ _ _ _) as [[[[[arr1 i] j] k] n]| |]; [|done..].
  cbn [obind].
  destruct (copy_rest _ _ _ arr1 _ _) as [[[arr2 i'] k']| |]; [|done..]. cbn [obind].
  by destruct (copy_rest _ _ _ arr2 _ _) as [[[arr3 j'] k'']| |].
Qed.

Lemma mergeSortHelper_countInversionsHelper sz fuel (arr : list A) left right :
  mergeSortHelper key zero fuel arr left right
  = '(arr', _) ←! countInversionsHelper key zero sz fuel arr left right; Done arr'.
Proof.
  revert arr left right. induction fuel as [|fuel IH]; intros arr left right; [done|].
  cbn [mergeSortHelper countInversionsHelper].
  destruct (left <? right); [|done]. cbv zeta.
  rewrite IH.
  destruct (countInversionsHelper _ _ _ _ arr _ _) as [[arr1 n1]| |]; [|done..].
  cbn [obind]. rewrite IH.
  destruct (countInversionsHelper _ _ _ _ arr1 _ _) as [[arr2 n2]| |]; [|done..].
  cbn [obind]. rewrite (merge_mergeAndCount sz).
  by destruct (mergeAndCount _ _ _ _ arr2 _ _ _) as [[arr3 n3]| |].
Qed.

(** The helper sorts the range it is given, stably, leaves the rest of the
    array alone, and counts the inversions of the range.  The sorted range
    does not depend on the loop budget. *)
Lemma countInversionsHelper_spec seg :
  ∃ seg',
    stable_sort_of key seg seg'
    ∧ ∀ sz fuel pre post,
        (length seg < fuel)%nat →
        countInversionsHelper key zero sz fuel (pre ++ seg ++ post)
          (Z.of_nat (length pre)) (Z.of_nat (length pre) + Z.of_nat (length seg) - 1)
        = Done (pre ++ seg' ++ post, wrap sz (Z.of_nat (inversions_from key seg))).
Proof.
  remember (length seg) as n eqn:En. revert seg En.
  induction n as [n IH] using lt_wf_ind. intros seg ->.
  destruct (decide (length seg ≤ 1)%nat) as [Hshort|Hlong].
  - (* at most one element *)
    exists seg. split.
    + split; [|done]. destruct seg as [|x [|y seg]]; [constructor | | simpl in Hshort; lia].
      by repeat constructor.
    + intros sz [|fuel] pre post Hfuel; [lia|]. cbn [countInversionsHelper].
      destruct (Z.of_nat (length pre) <? Z.of_nat (length pre) + Z.of_nat (length seg) - 1)
        eqn:E; [lia|].
      do 2 f_equal.
      replace (inversions_from key seg) with 0%nat
        by (destruct seg as [|x [|y seg]]; [done | done | simpl in Hshort; lia]).
      by rewrite wrap_0.
  - (* at least two elements *)
    remember (S ((length seg - 1) / 2)) as h eqn:Eh.
    assert (h < length seg)%nat as Hh by lia.
    assert (∃ s1 s2, seg = s1 ++ s2 ∧ length s1 = h) as (s1 & s2 & -> & Hs1).
    { exists (take h seg), (drop h seg).
      split; [by rewrite take_drop | rewrite length_take; lia]. }
    rewrite length_app in *.
    destruct (IH (length s1) ltac:(lia) s1 eq_refl) as (s1' & (Hsort1 & Hperm1 & Hst1) & Hrun1).
    destruct (IH (length s2) ltac:(lia) s2 eq_refl) as (s2' & (Hsort2 & Hperm2 & Hst2) & Hrun2).
    assert (length s1' = length s1) as Hlen1 by (by rewrite Hperm1).
    assert (length s2' = length s2) as Hlen2 by (by rewrite Hperm2).
    exists (merge_lists key s1' s2'). split.
    + split; [by apply sorted_merge_lists|]. split.
      * by rewrite merge_lists_Permutation, Hperm1, Hperm2.
      * intros k. rewrite (with_key_merge_lists key k _ _ Hsort1 Hsort2).
        rewrite Hst1, Hst2. unfold with_key. by rewrite filter_app.
    + intros sz [|fuel] pre post Hfuel; [lia|]. cbn [countInversionsHelper].
      destruct (Z.of_nat (length pre)
                <? Z.of_nat (length pre) + Z.of_nat (length s1 + length s2) - 1)
        eqn:E; [|lia].
      cbv zeta.
      assert (Z.of_nat (length pre)
              + (Z.of_nat (length pre) + Z.of_nat (length s1 + length s2) - 1
                 - Z.of_nat (length pre)) `quot` 2
              = Z.of_nat (length pre) + Z.of_nat (length s1) - 1) as ->.
      { rewrite Z.quot_div_nonneg by lia. lia. }
      rewrite <- (app_assoc s1 s2 post).
      rewrite (Hrun1 sz fuel pre (s2 ++ post)) by lia. cbn [obind].
      specialize (Hrun2 sz fuel (pre ++ s1') post ltac:(lia)).
      rewrite length_app, Hlen1 in Hrun2.
      replace (Z.of_nat (length pre) + Z.of_nat (length s1) - 1 + 1)
        with (Z.of_nat (length pre + length s1)) by lia.
      replace (Z.of_nat (length pre) + Z.of_nat (length s1 + length s2) - 1)
        with (Z.of_nat (length pre + length s1) + Z.of_nat (length s2) - 1) by lia.
      rewrite <- app_assoc in Hrun2. rewrite Hrun2. cbn [obind].
      pose proof (mergeAndCount_spec sz (S fuel) pre s1' s2' post ltac:(lia)) as Hm.
      rewrite Hlen1, Hlen2 in Hm.
      replace (Z.of_nat (length pre + length s1))
        with (Z.of_nat (length pre) + Z.of_nat (length s1)) by lia.
      replace (Z.of_nat (length pre) + Z.of_nat (length s1) - 1 + 1 - 1)
        with (Z.of_nat (length pre) + Z.of_nat (length s1) - 1) by lia.
      rewrite <- (app_assoc pre s1'). rewrite Hm. cbn [obind].
      do 2 f_equal. unfold int_add.
      rewrite Z.add_0_l, wrap_wrap.
      rewrite (wrap_add_l sz (Z.of_nat (inversions_from key s1))).
      rewrite (wrap_add_r sz (Z.of_nat (inversions_from key s1))).
      rewrite wrap_add_l, wrap_add_r. f_equal.
      rewrite inversions_from_app.
      rewrite (merge_count_cross key _ _ Hsort1 Hsort2).
      rewrite (cross_inversions_Permutation key _ _ _ _ Hperm1 Hperm2). lia.
Qed.

(** The two helpers on a whole array. *)
Lemma countInversionsHelper_whole (a : list A) :
  ∃ out,
    stable_sort_of key a out
    ∧ ∀ sz fuel, (length a < fuel)%nat →
        countInversionsHelper key zero sz fuel a 0 (Z.of_nat (length a) - 1)
        = Done (out, wrap sz (Z.of_nat (inversions_from key a))).
Proof.
  destruct (countInversionsHelper_spec a) as (out & Hsort & Hrun).
  exists out. split; [done|]. intros sz fuel Hfuel.
  specialize (Hrun sz fuel [] [] Hfuel). rewrite !app_nil_r in Hrun. exact Hrun.
Qed.

Lemma mergeSortHelper_whole (a : list A) :
  ∃ out,
    stable_sort_of key a out
    ∧ ∀ fuel, (length a < fuel)%nat →
        mergeSortHelper key zero fuel a 0 (Z.of_nat (length a) - 1) = Done out.
Proof.
  destruct (countInversionsHelper_whole a) as (out & Hsort & Hrun).
  exists out. split; [done|]. intros fuel Hfuel.
  by rewrite (mergeSortHelper_countInversionsHelper Int64), (Hrun Int64 fuel Hfuel).
Qed.

End MergeHelpers.

(** ** Inversions: counting pairs of positions *)

Section Inversions.
Import MergeSort.
Context {A : Type} (key : A → Z).
Implicit Types (l : list A).

Lemma length_filter_map_pair {B C} (P : B * C → Prop) `{∀ p, Decision (P p)}
    (i : B) (l2 : list C) :
  length (filter P (map (λ j, (i, j)) l2)) = length (filter (λ j, P (i, j)) l2).
Proof.
  induction l2 as [|j l2 IH]; [done|]. cbn [map].
  rewrite !filter_cons. case_decide; simpl; by rewrite IH.
Qed.

Lemma length_filter_prod {B C} (P : B * C → Prop) `{∀ p, Decision (P p)}
    (l1 : list B) (l2 : list C) :
  length (filter P (list_prod l1 l2))
  = sum_list_with (λ i, length (filter (λ j, P (i, j)) l2)) l1.
Proof.
  induction l1 as [|i l1 IH]; [done|]. cbn [list_prod sum_list_with].
  by rewrite filter_app, length_app, length_filter_map_pair, IH.
Qed.

Lemma length_filter_fmap {B C} (f : B → C) (P : C → Prop) `{∀ x, Decision (P x)}
    (l : list B) :
  length (filter P (f <$> l)) = length (filter (λ x, P (f x)) l).
Proof.
  induction l as [|x l IH]; [done|]. rewrite fmap_cons, !filter_cons.
  case_decide; simpl; by rewrite IH.
Qed.

Lemma sum_list_with_fmap {B C} (f : C → nat) (g : B → C) (l : list B) :
  sum_list_with f (g <$> l) = sum_list_with (λ x, f (g x)) l.
Proof.
  induction l as [|x l IH]; [done|]. rewrite fmap_cons. cbn [sum_list_with].
  by rewrite IH.
Qed.

Lemma sum_list_with_ext {B} (f g : B → nat) (l : list B) :
  (∀ x, f x = g x) → sum_list_with f l = sum_list_with g l.
Proof. intros E. induction l as [|x l IH]; [done|]. simpl. by rewrite E, IH. Qed.

Lemma is_inversion_0_S x l j :
  is_inversion key (x :: l) (0%nat, S j) ↔ ∃ y, l !! j = Some y ∧ key y < key x.
Proof.
  unfold is_inversion. simpl. destruct (l !! j) as [y|].
  - split; [intros [_ H]; by exists y | intros (y' & [= <-] & H); split; [lia | done]].
  - split; [by intros [_ ?] | by intros (y' & ? & _)].
Qed.

Lemma is_inversion_S_S x l i j :
  is_inversion key (x :: l) (S i, S j) ↔ is_inversion key l (i, j).
Proof. unfold is_inversion. simpl. split; intros [? ?]; (split; [lia | done]). Qed.

Lemma is_inversion_0_r l i : ¬ is_inversion key l (i, 0%nat).
Proof. unfold is_inversion. simpl. intros [? _]. lia. Qed.

(** The smaller elements after the head, counted by position. *)
Lemma head_row x l :
  length (filter (λ j, is_inversion key (x :: l) (0%nat, S j)) (seq 0 (length l)))
  = smaller_count key x l.
Proof.
  unfold smaller_count. induction l as [|y l IH]; [done|].
  cbn [length seq]. rewrite <- fmap_S_seq.
  assert (length (filter (λ j, is_inversion key (x :: y :: l) (0%nat, S j))
                    (S <$> seq 0 (length l)))
          = length (filter (λ y, key y < key x) l)) as Htail.
  { rewrite length_filter_fmap, <- IH. f_equal. apply list_filter_iff. intros j.
    by rewrite !is_inversion_0_S. }
  destruct (decide (key y < key x)) as [Hy|Hy].
  - rewrite !filter_cons_True; [|done|apply is_inversion_0_S; by exists y].
    cbn [length]. by rewrite Htail.
  - rewrite !filter_cons_False; [done|done|].
    intros (y' & [= <-] & ?)%is_inversion_0_S. done.
Qed.

Lemma inversions_cons x l :
  inversions key (x :: l) = (smaller_count key x l + inversions key l)%nat.
Proof.
  unfold inversions. rewrite !length_filter_prod.
  cbn [length seq sum_list_with]. rewrite <- fmap_S_seq.
  rewrite filter_cons_False by apply is_inversion_0_r.
  rewrite length_filter_fmap, head_row. f_equal.
  rewrite sum_list_with_fmap. apply sum_list_with_ext. intros i.
  rewrite filter_cons_False by apply is_inversion_0_r.
  rewrite length_filter_fmap. f_equal. apply list_filter_iff. intros j.
  apply is_inversion_S_S.
Qed.

Lemma inversions_inversions_from l : inversions key l = inversions_from key l.
Proof.
  induction l as [|x l IH]; [done|]. by rewrite inversions_cons, IH.
Qed.

Lemma inversions_bound l : (2 * inversions key l ≤ length l * (length l - 1))%nat.
Proof.
  rewrite inversions_inversions_from.
  induction l as [|x l IH]; [done|]. cbn [inversions_from length].
  pose proof (length_filter (λ y, key y < key x) l) as Hx.
  unfold smaller_count. nia.
Qed.

(** The number of inversions of at most 65536 elements fits in an [int]. *)
Lemma inversions_fit sz l :
  Z.of_nat (length l) ≤ 65536 → Z.of_nat (inversions key l) ≤ max_int sz.
Proof.
  intros Hlen. pose proof (inversions_bound l) as Hb.
  unfold max_int. destruct (int_bits_cases sz) as [_ Hbig]. nia.
Qed.

End Inversions.

(** ** Merge sort: the claims of the specification *)

Section MergeSortClaims.
Import MergeSort.

(** The first test of the file. *)
Example MergeSort_test1 :
  (let m := {[ 1%positive := [64; 34; 25; 12; 22; 11; 90] ]} in
   '(m', res) ←! MergeSort 8 m (mkSlice 1 0 7);
   sorted ←! elements_of m' res;
   input ←! elements_of m' (mkSlice 1 0 7);
   Done (sorted, input))
  = Done ([11; 12; 22; 25; 34; 64; 90], [64; 34; 25; 12; 22; 11; 90]).
Proof. vm_compute. reflexivity. Qed.

(** C8 as stated fails for arrays of at most one element: [MergeSort]
    returns the slice it was given, whose backing array existed before the
    call, not a new array. *)
Lemma MergeSort_short_returns_input :
  elements_of store_42 (mkSlice 1 0 1) = Done [42]
  ∧ MergeSort 2 store_42 (mkSlice 1 0 1) = Done (store_42, mkSlice 1 0 1)
  ∧ store_42 !! base (mkSlice 1 0 1) = Some [42].
Proof. vm_compute. done. Qed.

(** C8, amended.  [MergeSort] returns an array holding the elements of the
    input in non-descending order, a permutation of the input in which
    elements that compare equal keep their relative order, and it modifies
    neither the input array nor any other existing array.  The returned array
    is newly allocated when the input has more than one element; an input of
    at most one element is returned as it is, the same slice.  (Stated for
    the sorting code over elements compared through a key, of which
    [MergeSort] is the instance on integers.) *)
Theorem MergeSort_correct {A} (key : A → Z) (zero : A)
    (m : gmap positive (list A)) (arr : slice) (a : list A) :
  elements_of m arr = Done a →
  ∃ m' res out,
    (∀ fuel, (length a < fuel)%nat → MergeSortBy key zero fuel m arr = Done (m', res))
    ∧ elements_of m' res = Done out
    ∧ stable_sort_of key a out
    ∧ (∀ b, is_Some (m !! b) → m' !! b = m !! b)
    ∧ elements_of m' arr = Done a
    ∧ ((1 < length a)%nat → m !! base res = None)
    ∧ ((length a ≤ 1)%nat → res = arr ∧ m' = m).
Proof.
  intros Ha. destruct (decide (length a ≤ 1)%nat) as [Hshort|Hlong].
  - exists m, arr, a. split; [|split; [done|split; [|split; [done|split; [done|split]]]]].
    + intros fuel _. unfold MergeSortBy. rewrite Ha. cbn [obind].
      destruct (Z.of_nat (length a) <=? 1) eqn:E; [done | lia].
    + split; [|done]. destruct a as [|x [|y a]]; [constructor | | simpl in Hshort; lia].
      by repeat constructor.
    + lia.
    + done.
  - destruct (mergeSortHelper_whole key zero a) as (out & Hsort & Hrun).
    pose proof Hsort as (_ & Hperm & _).
    exists (<[fresh (dom m) := out]> m), (mkSlice (fresh (dom m)) 0 (length out)), out.
    split; [|split; [|split; [done|split; [|split; [|split]]]]].
    + intros fuel Hfuel. unfold MergeSortBy. rewrite Ha. cbn [obind].
      destruct (Z.of_nat (length a) <=? 1) eqn:E; [lia|].
      rewrite make_spec. cbn [obind]. rewrite copy_full.
      by rewrite (Hrun fuel Hfuel).
    + apply elements_of_fresh.
    + intros b Hb. by apply lookup_insert_fresh.
    + by apply elements_of_insert_fresh.
    + intros _. apply lookup_fresh_None.
    + lia.
Qed.

Lemma MergeSort_correct_witness :
  elements_of store_tagged (mkSlice 1 0 4)
  = Done [(2, 0%nat); (1, 1%nat); (2, 2%nat); (1, 3%nat)]
  ∧ ∃ m' res,
      MergeSortBy fst (0, 0%nat) 5 store_tagged (mkSlice 1 0 4) = Done (m', res)
      ∧ elements_of m' res = Done [(1, 1%nat); (1, 3%nat); (2, 0%nat); (2, 2%nat)].
Proof.
  assert (elements_of store_tagged (mkSlice 1 0 4)
          = Done [(2, 0%nat); (1, 1%nat); (2, 2%nat); (1, 3%nat)]) as H
    by (vm_compute; reflexivity).
  split; [exact H|].
  destruct (MergeSort_correct fst (0, 0%nat) _ _ _ H) as (m' & res & out & Hrun & Hout & _).
  exists m', res. specialize (Hrun 5%nat ltac:(simpl; lia)).
  split; [exact Hrun|].
  vm_compute in Hrun. injection Hrun as <- <-. vm_compute. reflexivity.
Defined.

(** C9 (amended).  [CountInversions] returns a newly allocated array
    holding the elements of the input in non-descending order; the input
    array is not modified.  The count it returns is the number of pairs of
    positions [i < j] whose elements satisfy [arr[i] > arr[j]] in the input,
    reduced to the range of Go's [int]: the counter wraps around as [int]
    does, so the two differ by a multiple of [2 ^ 32] or [2 ^ 64].  The
    count is exactly the number of such pairs whenever that number is at
    most the largest [int], which is so for every array of at most 65536
    elements (the number of pairs is at most [n * (n - 1) / 2] for [n]
    elements). *)
Theorem CountInversions_correct (sz : int_size) (m : gmap positive (list Z))
    (arr : slice) (a : list Z) :
  elements_of m arr = Done a →
  ∃ m' res out,
    (∀ fuel, (length a < fuel)%nat →
       CountInversions sz fuel m arr
       = Done (m', res, wrap sz (Z.of_nat (inversions (λ x, x) a))))
    ∧ elements_of m' res = Done out
    ∧ Sorted Z.le out ∧ out ≡ₚ a
    ∧ m !! base res = None
    ∧ (∀ b, is_Some (m !! b) → m' !! b = m !! b)
    ∧ elements_of m' arr = Done a
    ∧ (∀ i j, is_inversion (λ x, x) a (i, j) ↔
              (i < j)%nat ∧ ∃ x y, a !! i = Some x ∧ a !! j = Some y ∧ x > y)
    ∧ (2 * inversions (λ x, x) a ≤ length a * (length a - 1))%nat
    ∧ min_int sz ≤ wrap sz (Z.of_nat (inversions (λ x, x) a)) ≤ max_int sz
    ∧ (∃ k, wrap sz (Z.of_nat (inversions (λ x, x) a))
            = Z.of_nat (inversions (λ x, x) a) + k * 2 ^ int_bits sz)
    ∧ (Z.of_nat (inversions (λ x, x) a) ≤ max_int sz →
       wrap sz (Z.of_nat (inversions (λ x, x) a)) = Z.of_nat (inversions (λ x, x) a))
    ∧ (Z.of_nat (length a) ≤ 65536 → Z.of_nat (inversions (λ x, x) a) ≤ max_int sz).
Proof.
  intros Ha.
  destruct (countInversionsHelper_whole (λ x : Z, x) 0 a) as (out & Hsort & Hrun).
  destruct Hsort as (Hsorted & Hperm & _).
  exists (<[fresh (dom m) := out]> m), (mkSlice (fresh (dom m)) 0 (length out)), out.
  split; [|split; [|split; [|split; [done|split; [|split; [|split; [|split;
    [|split; [|split; [|split; [|split]]]]]]]]]]].
  - intros fuel Hfuel. unfold CountInversions, CountInversionsBy. rewrite Ha. cbn [obind].
    rewrite make_spec. cbn [obind]. rewrite copy_full.
    rewrite (Hrun sz fuel Hfuel). cbn [obind].
    by rewrite inversions_inversions_from.
  - apply elements_of_fresh.
  - exact Hsorted.
  - apply lookup_fresh_None.
  - intros b Hb. by apply lookup_insert_fresh.
  - by apply elements_of_insert_fresh.
  - intros i j. unfold is_inversion. simpl. split.
    + intros [Hij H]. split; [done|].
      destruct (a !! i) as [x|]; [|done]. destruct (a !! j) as [y|]; [|done].
      exists x, y. repeat split; [done..|lia].
    + intros [Hij (x & y & -> & -> & H)]. split; [done | lia].
  - apply inversions_bound.
  - apply wrap_range.
  - apply wrap_congruent.
  - intros Hfit. apply wrap_small. unfold min_int.
    destruct (int_bits_cases sz) as [_ Hbig]. lia.
  - intros Hlen. pose proof (inversions_bound (λ x : Z, x) a) as Hb.
    unfold max_int. destruct (int_bits_cases sz) as [_ Hbig]. nia.
Qed.

Lemma CountInversions_correct_witness :
  elements_of store_test6 (mkSlice 1 0 5) = Done [2; 3; 8; 6; 1]
  ∧ ∃ m' res,
      CountInversions Int32 6 store_test6 (mkSlice 1 0 5) = Done (m', res, 5)
      ∧ elements_of m' res = Done [1; 2; 3; 6; 8].
Proof.
  assert (elements_of store_test6 (mkSlice 1 0 5) = Done [2; 3; 8; 6; 1]) as H
    by (vm_compute; reflexivity).
  split; [exact H|].
  destruct (CountInversions_correct Int32 _ _ _ H) as (m' & res & out & Hrun & Hout & _).
  exists m', res. specialize (Hrun 6%nat ltac:(simpl; lia)).
  split; [exact Hrun|].
  vm_compute in Hrun. injection Hrun as <- <-. vm_compute. reflexivity.
Defined.

End MergeSortClaims.

(** ** Binary search: searching for an element *)

Lemma index_in_range {A} (a : list A) (i : nat) :
  (i < length a)%nat → ∃ x, a !! i = Some x ∧ index a (Z.of_nat i) = Done x.
Proof.
  intros Hi. destruct (lookup_lt_is_Some_2 a i Hi) as [x Hx].
  exists x. split; [done | by apply index_lookup].
Qed.

Lemma midpoint (lo hi : nat) :
  (lo < hi)%nat →
  Z.of_nat lo + (Z.of_nat hi - 1 - Z.of_nat lo) `quot` 2
  = Z.of_nat (lo + (hi - 1 - lo) / 2).
Proof. intros H. rewrite Z.quot_div_nonneg by lia. lia. Qed.

Section BinarySearchMore.
Import BinarySearch.
Implicit Types (arr : list Z) (target : Z) (lo hi : nat).

(** The search loop on the index range from [lo] to [hi - 1]: it ends at an
    index of the range that holds the target, or with -1; on a sorted array
    -1 means that no index of the range holds the target. *)
Lemma search_loop_spec fuel arr target lo hi :
  (lo ≤ hi ≤ length arr)%nat → (hi - lo < fuel)%nat →
  ∃ r,
    search_loop fuel arr target (Z.of_nat lo) (Z.of_nat hi - 1) = Done r
    ∧ (r = -1 ∨ (Z.of_nat lo ≤ r < Z.of_nat hi ∧ arr !! Z.to_nat r = Some target))
    ∧ (Sorted Z.le arr → r = -1 →
       ∀ i, (lo ≤ i < hi)%nat → arr !! i ≠ Some target).
Proof.
  revert lo hi. induction fuel as [|fuel IH]; intros lo hi Hb Hfuel; [lia|].
  cbn [search_loop]. destruct (Z.of_nat lo <=? Z.of_nat hi - 1) eqn:E.
  - cbv zeta. rewrite midpoint by lia. set (m := (lo + (hi - 1 - lo) / 2)%nat).
    assert (lo ≤ m < hi)%nat as Hm by (unfold m; lia).
    destruct (index_in_range arr m ltac:(lia)) as (x & Hx & ->). cbn [obind].
    destruct (Z.eqb_spec x target) as [->|Hne].
    + exists (Z.of_nat m). split; [done|]. split; [|lia].
      right. split; [lia|]. by rewrite Nat2Z.id.
    + destruct (x <? target) eqn:Ex.
      * replace (Z.of_nat m + 1) with (Z.of_nat (S m)) by lia.
        destruct (IH (S m) hi ltac:(lia) ltac:(lia)) as (r & Hrun & Hfound & Hnone).
        exists r. split; [done|]. split; [destruct Hfound as [|[? ?]]; [by left | right; split; [lia | done]]|].
        intros Hs Hr i Hi Hi'.
        destruct (decide (i ≤ m)%nat) as [Hle|Hgt]; [|by eapply (Hnone Hs Hr i); [lia|]].
        pose proof (Sorted_le_lookup _ i m target x Hs Hle Hi' Hx). lia.
      * replace (Z.of_nat m - 1) with (Z.of_nat (S m - 1) - 1 + 0) by lia.
        replace (Z.of_nat (S m - 1) - 1 + 0) with (Z.of_nat m - 1) by lia.
        destruct (IH lo m ltac:(lia) ltac:(lia)) as (r & Hrun & Hfound & Hnone).
        exists r. split; [done|]. split; [destruct Hfound as [|[? ?]]; [by left | right; split; [lia | done]]|].
        intros Hs Hr i Hi Hi'.
        destruct (decide (m ≤ i)%nat) as [Hle|Hgt]; [|by eapply (Hnone Hs Hr i); [lia|]].
        pose proof (Sorted_le_lookup _ m i x target Hs Hle Hx Hi'). lia.
  - exists (-1). split; [done|]. split; [by left|]. intros _ _ i Hi. lia.
Qed.

Lemma binarySearchRecursiveHelper_search_loop fuel arr target left right :
  binarySearchRecursiveHelper fuel arr target left right
  = search_loop fuel arr target left right.
Proof.
  revert left right. induction fuel as [|fuel IH]; intros left right; [done|].
  cbn [binarySearchRecursiveHelper search_loop].
  destruct (left >? right) eqn:E1, (left <=? right) eqn:E2; try lia; [done|].
  cbv zeta. destruct (index arr _) as [x| |]; [|done..]. cbn [obind].
  destruct (x =? target); [done|]. destruct (x <? target); apply IH.
Qed.

(** X1.  [BinarySearchIterative] completes on every array, sorted or not,
    once the loop budget exceeds its length.  What it returns is -1 or an
    index of the array that holds the target; on a sorted array it returns -1
    exactly when the target does not occur. *)
Theorem BinarySearchIterative_correct arr target fuel :
  (length arr < fuel)%nat →
  ∃ r,
    BinarySearchIterative fuel arr target = Done r
    ∧ (r = -1 ∨ (0 ≤ r < Z.of_nat (length arr) ∧ arr !! Z.to_nat r = Some target))
    ∧ (Sorted Z.le arr → r = -1 ↔ target ∉ arr).
Proof.
  intros Hfuel. unfold BinarySearchIterative. change 0 with (Z.of_nat 0).
  destruct (search_loop_spec fuel arr target 0 (length arr) ltac:(lia) ltac:(lia))
    as (r & Hrun & Hfound & Hnone).
  exists r. split; [done|]. split; [done|]. intros Hs. split.
  - intros Hr [i Hi]%list_elem_of_lookup.
    apply (Hnone Hs Hr i); [|done]. apply lookup_lt_Some in Hi. lia.
  - intros Hnot. destruct Hfound as [|[_ Hr]]; [done|].
    exfalso. apply Hnot. by eapply list_elem_of_lookup_2.
Qed.

Lemma BinarySearchIterative_correct_witness :
  (length arr_test1 < 11)%nat
  ∧ BinarySearchIterative 11 arr_test1 23 = Done 5.
Proof.
  assert (length arr_test1 < 11)%nat as H by (simpl; lia).
  split; [exact H|].
  destruct (BinarySearchIterative_correct _ 23 _ H) as (r & Hrun & _).
  rewrite Hrun. vm_compute in Hrun. exact (eq_sym Hrun).
Defined.

(** X2.  [BinarySearchRecursive] returns what [BinarySearchIterative]
    returns, on every array and target and for every budget; in particular
    it finds the target of a sorted array exactly when it occurs. *)
Theorem BinarySearchRecursive_correct arr target fuel :
  BinarySearchRecursive fuel arr target = BinarySearchIterative fuel arr target
  ∧ ((length arr < fuel)%nat →
     ∃ r,
       BinarySearchRecursive fuel arr target = Done r
       ∧ (r = -1 ∨ (0 ≤ r < Z.of_nat (length arr) ∧ arr !! Z.to_nat r = Some target))
       ∧ (Sorted Z.le arr → r = -1 ↔ target ∉ arr)).
Proof.
  assert (BinarySearchRecursive fuel arr target = BinarySearchIterative fuel arr target)
    as E by apply binarySearchRecursiveHelper_search_loop.
  split; [done|]. intros Hfuel. rewrite E.
  unfold BinarySearchIterative. change 0 with (Z.of_nat 0).
  destruct (search_loop_spec fuel arr target 0 (length arr) ltac:(lia) ltac:(lia))
    as (r & Hrun & Hfound & Hnone).
  exists r. split; [done|]. split; [done|]. intros Hs. split.
  - intros Hr [i Hi]%list_elem_of_lookup.
    apply (Hnone Hs Hr i); [|done]. apply lookup_lt_Some in Hi. lia.
  - intros Hnot. destruct Hfound as [|[_ Hr]]; [done|].
    exfalso. apply Hnot. by eapply list_elem_of_lookup_2.
Qed.

Lemma BinarySearchRecursive_correct_witness :
  (length arr_test1 < 11)%nat
  ∧ BinarySearchRecursive 11 arr_test1 23 = Done 5.
Proof.
  assert (length arr_test1 < 11)%nat as H by (simpl; lia).
  split; [exact H|].
  destruct (BinarySearchRecursive_correct arr_test1 23 11) as [_ Hrec].
  destruct (Hrec H) as (r & Hrun & _).
  rewrite Hrun. vm_compute in Hrun. exact (eq_sym Hrun).
Defined.

(** An index that separates the elements satisfying [P] from the others
    counts the elements satisfying [P]. *)
Lemma boundary_count (P : Z → Prop) `{∀ x, Decision (P x)} arr (r : nat) :
  (r ≤ length arr)%nat →
  (∀ i x, arr !! i = Some x → (i < r)%nat → P x) →
  (∀ i x, arr !! i = Some x → (r ≤ i)%nat → ¬ P x) →
  length (filter P arr) = r.
Proof.
  intros Hr Hlo Hhi. rewrite <- (take_drop r arr), filter_app, length_app.
  rewrite (filter_all P (take r arr)), (filter_none P (drop r arr)).
  - rewrite length_take. simpl. lia.
  - apply Forall_lookup. intros i x Hx. rewrite lookup_drop in Hx.
    apply (Hhi _ _ Hx). lia.
  - apply Forall_lookup. intros i x [Hx Hi]%lookup_take_Some. by apply (Hlo i).
Qed.

Lemma count_le_lt_eq arr target :
  length (filter (λ x, x ≤ target) arr)
  = (length (filter (λ x, (x < target)%Z) arr)
     + length (filter (λ x, x = target) arr))%nat.
Proof.
  induction arr as [|x arr IH]; [done|]. rewrite !filter_cons.
  repeat case_decide; cbn [length]; lia.
Qed.

(** The loop of [FindFirstOccurrence] on a sorted array: it ends at the
    boundary between the elements below the target and the others, and holds
    that boundary as its result when the target sits there. *)
Lemma first_loop_spec fuel arr target lo hi result :
  Sorted Z.le arr →
  (lo ≤ hi ≤ length arr)%nat → (hi - lo < fuel)%nat →
  (∀ i x, arr !! i = Some x → (i < lo)%nat → x < target) →
  (∀ i x, arr !! i = Some x → (hi ≤ i)%nat → target ≤ x) →
  (result = -1 ∧ arr !! hi ≠ Some target
   ∨ result = Z.of_nat hi ∧ arr !! hi = Some target) →
  ∃ r : nat,
    first_loop fuel arr target (Z.of_nat lo) (Z.of_nat hi - 1) result
    = Done (if decide (arr !! r = Some target) then Z.of_nat r else -1)
    ∧ (r ≤ length arr)%nat
    ∧ (∀ i x, arr !! i = Some x → (i < r)%nat → x < target)
    ∧ (∀ i x, arr !! i = Some x → (r ≤ i)%nat → target ≤ x).
Proof.
  intros Hs. revert lo hi result.
  induction fuel as [|fuel IH]; intros lo hi result Hb Hfuel Hlo Hhi Hres; [lia|].
  cbn [first_loop]. destruct (Z.of_nat lo <=? Z.of_nat hi - 1) eqn:E.
  - cbv zeta. rewrite midpoint by lia. set (m := (lo + (hi - 1 - lo) / 2)%nat).
    assert (lo ≤ m < hi)%nat as Hm by (unfold m; lia).
    destruct (index_in_range arr m ltac:(lia)) as (x & Hx & ->). cbn [obind].
    destruct (Z.eqb_spec x target) as [->|Hne].
    + apply IH; [lia | lia | done | | by right].
      intros i y Hy Hi. by eapply (Sorted_le_lookup arr m i).
    + destruct (x <? target) eqn:Ex.
      * replace (Z.of_nat m + 1) with (Z.of_nat (S m)) by lia.
        apply IH; [lia | lia | | done | done].
        intros i y Hy Hi.
        pose proof (Sorted_le_lookup arr i m y x Hs ltac:(lia) Hy Hx). lia.
      * apply IH; [lia | lia | done | |].
        -- intros i y Hy Hi.
           pose proof (Sorted_le_lookup arr m i x y Hs ltac:(lia) Hx Hy). lia.
        -- left. split; [|rewrite Hx; congruence].
           destruct Hres as [[-> _]|[_ Hhit]]; [done|].
           pose proof (Sorted_le_lookup arr m hi x target Hs ltac:(lia) Hx Hhit). lia.
  - assert (lo = hi) as -> by lia. exists hi.
    split; [|split; [lia | split; done]].
    f_equal. case_decide as Hd; destruct Hres as [[-> Hn]|[-> Hy]]; done.
Qed.

(** The loop of [FindLastOccurrence] on a sorted array, likewise: it ends at
    the boundary between the elements up to the target and those above it. *)
Lemma last_loop_spec fuel arr target lo hi result :
  Sorted Z.le arr →
  (lo ≤ hi ≤ length arr)%nat → (hi - lo < fuel)%nat →
  (∀ i x, arr !! i = Some x → (i < lo)%nat → x ≤ target) →
  (∀ i x, arr !! i = Some x → (hi ≤ i)%nat → target < x) →
  (result = -1 ∧ (∀ j, lo = S j → arr !! j ≠ Some target)
   ∨ ∃ j, lo = S j ∧ result = Z.of_nat j ∧ arr !! j = Some target) →
  ∃ r : nat,
    (last_loop fuel arr target (Z.of_nat lo) (Z.of_nat hi - 1) result = Done (-1)
     ∧ (∀ j, r = S j → arr !! j ≠ Some target)
     ∨ ∃ j, r = S j ∧ arr !! j = Some target
            ∧ last_loop fuel arr target (Z.of_nat lo) (Z.of_nat hi - 1) result
              = Done (Z.of_nat j))
    ∧ (r ≤ length arr)%nat
    ∧ (∀ i x, arr !! i = Some x → (i < r)%nat → x ≤ target)
    ∧ (∀ i x, arr !! i = Some x → (r ≤ i)%nat → target < x).
Proof.
  intros Hs. revert lo hi result.
  induction fuel as [|fuel IH]; intros lo hi result Hb Hfuel Hlo Hhi Hres; [lia|].
  cbn [last_loop]. destruct (Z.of_nat lo <=? Z.of_nat hi - 1) eqn:E.
  - cbv zeta. rewrite midpoint by lia. set (m := (lo + (hi - 1 - lo) / 2)%nat).
    assert (lo ≤ m < hi)%nat as Hm by (unfold m; lia).
    destruct (index_in_range arr m ltac:(lia)) as (x & Hx & ->). cbn [obind].
    destruct (Z.eqb_spec x target) as [->|Hne].
    + replace (Z.of_nat m + 1) with (Z.of_nat (S m)) by lia.
      apply IH; [lia | lia | | done |].
      * intros i y Hy Hi.
        by eapply (Sorted_le_lookup arr i m); [|lia|..].
      * right. by exists m.
    + destruct (x <? target) eqn:Ex.
      * replace (Z.of_nat m + 1) with (Z.of_nat (S m)) by lia.
        apply IH; [lia | lia | | done |].
        -- intros i y Hy Hi.
           pose proof (Sorted_le_lookup arr i m y x Hs ltac:(lia) Hy Hx). lia.
        -- left. split.
           ++ destruct Hres as [[-> _]|(j & -> & _ & Hhit)]; [done|].
              pose proof (Sorted_le_lookup arr j m target x Hs ltac:(lia) Hhit Hx). lia.
           ++ intros j [= <-]. rewrite Hx. congruence.
      * apply IH; [lia | lia | done | | done].
        intros i y Hy Hi.
        pose proof (Sorted_le_lookup arr m i x y Hs ltac:(lia) Hx Hy). lia.
  - assert (lo = hi) as -> by lia. exists hi.
    split; [|split; [lia | split; done]].
    destruct Hres as [[-> Hn]|(j & -> & -> & Hhit)]; [by left|].
    right. by exists j.
Qed.

Lemma insertion_boundary_unique arr target (r r' : nat) :
  (r ≤ length arr)%nat → (r' ≤ length arr)%nat →
  (∀ i x, arr !! i = Some x → (i < r)%nat → x < target) →
  (∀ i x, arr !! i = Some x → (r ≤ i)%nat → target ≤ x) →
  (∀ i x, arr !! i = Some x → (i < r')%nat → x < target) →
  (∀ i x, arr !! i = Some x → (r' ≤ i)%nat → target ≤ x) →
  r' = r.
Proof.
  intros Hr Hr' Hlo Hhi Hlo' Hhi'.
  destruct (decide (r' < r)%nat) as [Hlt|Hge].
  - destruct (lookup_lt_is_Some_2 arr r') as [x Hx]; [lia|].
    pose proof (Hlo _ _ Hx Hlt). pose proof (Hhi' _ _ Hx ltac:(lia)). lia.
  - destruct (decide (r < r')%nat) as [Hlt|Hge']; [|lia].
    destruct (lookup_lt_is_Some_2 arr r) as [x Hx]; [lia|].
    pose proof (Hlo' _ _ Hx Hlt). pose proof (Hhi _ _ Hx ltac:(lia)). lia.
Qed.

(** X3.  On a sorted array [FindFirstOccurrence] returns -1 when the target
    does not occur, and otherwise the least index holding the target, which is
    the number of elements smaller than the target and the index that
    [FindInsertionPoint] returns. *)
Theorem FindFirstOccurrence_correct arr target fuel :
  Sorted Z.le arr → (length arr < fuel)%nat →
  ∃ r,
    FindFirstOccurrence fuel arr target = Done r
    ∧ (r = -1 ∧ target ∉ arr
       ∨ 0 ≤ r ∧ arr !! Z.to_nat r = Some target
         ∧ (∀ i, arr !! i = Some target → (Z.to_nat r ≤ i)%nat)
         ∧ r = Z.of_nat (length (filter (λ x, x < target) arr))
         ∧ FindInsertionPoint fuel arr target = Done r).
Proof.
  intros Hs Hfuel. unfold FindFirstOccurrence. change 0 with (Z.of_nat 0).
  destruct (first_loop_spec fuel arr target 0 (length arr) (-1) Hs)
    as (r & Hrun & Hr & Hlo & Hhi); [lia | lia | intros; lia | | |].
  { intros i x Hx Hi. apply lookup_lt_Some in Hx. lia. }
  { left. split; [done|]. by rewrite lookup_ge_None_2. }
  rewrite Hrun. eexists. split; [done|].
  case_decide as Hhit.
  - right. split; [lia|]. rewrite Nat2Z.id. split; [done|]. split; [|split].
    + intros i Hi. destruct (decide (r ≤ i)%nat) as [|Hlt]; [done|].
      pose proof (Hlo _ _ Hi ltac:(lia)). lia.
    + f_equal. symmetry. apply boundary_count; [done | done |].
      intros i x Hx Hi. pose proof (Hhi _ _ Hx Hi). lia.
    + unfold FindInsertionPoint. change 0 with (Z.of_nat 0).
      destruct (insertion_loop_spec fuel arr target 0 (length arr) Hs)
        as [[_ Hle]|(r' & Hrun' & Hr' & Hlo' & Hhi')]; [lia | intros; lia | | lia |].
      { intros i x Hx Hi. apply lookup_lt_Some in Hx. lia. }
      rewrite Hrun'. do 2 f_equal. by eapply insertion_boundary_unique.
  - left. split; [done|]. intros [i Hi]%list_elem_of_lookup.
    destruct (decide (i < r)%nat) as [Hlt|Hge]; [pose proof (Hlo _ _ Hi Hlt); lia|].
    destruct (lookup_lt_is_Some_2 arr r) as [y Hy]; [apply lookup_lt_Some in Hi; lia|].
    pose proof (Hhi _ _ Hy ltac:(lia)).
    pose proof (Sorted_le_lookup arr r i y target Hs ltac:(lia) Hy Hi).
    apply Hhit. rewrite Hy. f_equal. lia.
Qed.

Lemma FindFirstOccurrence_correct_witness :
  Sorted Z.le arr_test3 ∧ (length arr_test3 < 13)%nat
  ∧ FindFirstOccurrence 13 arr_test3 5 = Done 7.
Proof.
  assert (Sorted Z.le arr_test3) as Hs by (repeat constructor; lia).
  assert (length arr_test3 < 13)%nat as Hf by (simpl; lia).
  split; [exact Hs|]. split; [exact Hf|].
  destruct (FindFirstOccurrence_correct _ 5 _ Hs Hf) as (r & Hrun & _).
  rewrite Hrun. vm_compute in Hrun. exact (eq_sym Hrun).
Defined.

(** X4.  On a sorted array [FindLastOccurrence] returns -1 when the target
    does not occur, and otherwise the greatest index holding the target, one
    less than the number of elements that are at most the target. *)
Theorem FindLastOccurrence_correct arr target fuel :
  Sorted Z.le arr → (length arr < fuel)%nat →
  ∃ r,
    FindLastOccurrence fuel arr target = Done r
    ∧ (r = -1 ∧ target ∉ arr
       ∨ 0 ≤ r ∧ arr !! Z.to_nat r = Some target
         ∧ (∀ i, arr !! i = Some target → (i ≤ Z.to_nat r)%nat)
         ∧ r = Z.of_nat (length (filter (λ x, x ≤ target) arr)) - 1).
Proof.
  intros Hs Hfuel. unfold FindLastOccurrence. change 0 with (Z.of_nat 0).
  destruct (last_loop_spec fuel arr target 0 (length arr) (-1) Hs)
    as (r & Hrun & Hr & Hlo & Hhi); [lia | lia | intros; lia | | |].
  { intros i x Hx Hi. apply lookup_lt_Some in Hx. lia. }
  { left. split; [done|]. intros j [=]. }
  assert (length (filter (λ x, x ≤ target) arr) = r) as Hcount.
  { apply boundary_count; [done | done |].
    intros i x Hx Hi. pose proof (Hhi _ _ Hx Hi). lia. }
  destruct Hrun as [[Hrun Hnone]|(j & -> & Hhit & Hrun)]; rewrite Hrun.
  - eexists. split; [done|]. left. split; [done|].
    intros [i Hi]%list_elem_of_lookup.
    destruct (decide (r ≤ i)%nat) as [Hge|Hlt]; [pose proof (Hhi _ _ Hi Hge); lia|].
    destruct r as [|j]; [lia|].
    destruct (lookup_lt_is_Some_2 arr j) as [y Hy]; [apply lookup_lt_Some in Hi; lia|].
    pose proof (Hlo _ _ Hy ltac:(lia)).
    pose proof (Sorted_le_lookup arr i j target y Hs ltac:(lia) Hi Hy).
    apply (Hnone j eq_refl). rewrite Hy. f_equal. lia.
  - eexists. split; [done|]. right. split; [lia|]. rewrite Nat2Z.id.
    split; [done|]. split; [|lia].
    intros i Hi. destruct (decide (i ≤ j)%nat) as [|Hgt]; [done|].
    pose proof (Hhi _ _ Hi ltac:(lia)). lia.
Qed.

Lemma FindLastOccurrence_correct_witness :
  Sorted Z.le arr_test3 ∧ (length arr_test3 < 13)%nat
  ∧ FindLastOccurrence 13 arr_test3 5 = Done 10.
Proof.
  assert (Sorted Z.le arr_test3) as Hs by (repeat constructor; lia).
  assert (length arr_test3 < 13)%nat as Hf by (simpl; lia).
  split; [exact Hs|]. split; [exact Hf|].
  destruct (FindLastOccurrence_correct _ 5 _ Hs Hf) as (r & Hrun & _).
  rewrite Hrun. vm_compute in Hrun. exact (eq_sym Hrun).
Defined.

(** X5.  On a sorted array [CountOccurrences] returns the number of elements
    equal to the target (0 when there is none). *)
Theorem CountOccurrences_correct arr target fuel :
  Sorted Z.le arr → (length arr < fuel)%nat →
  CountOccurrences fuel arr target
  = Done (Z.of_nat (length (filter (λ x, x = target) arr))).
Proof.
  intros Hs Hfuel. unfold CountOccurrences, FindFirstOccurrence, FindLastOccurrence.
  change 0 with (Z.of_nat 0).
  destruct (first_loop_spec fuel arr target 0 (length arr) (-1) Hs)
    as (r1 & Hrun1 & Hr1 & Hlo1 & Hhi1); [lia | lia | intros; lia | | |].
  { intros i x Hx Hi. apply lookup_lt_Some in Hx. lia. }
  { left. split; [done|]. by rewrite lookup_ge_None_2. }
  destruct (last_loop_spec fuel arr target 0 (length arr) (-1) Hs)
    as (r2 & Hrun2 & Hr2 & Hlo2 & Hhi2); [lia | lia | intros; lia | | |].
  { intros i x Hx Hi. apply lookup_lt_Some in Hx. lia. }
  { left. split; [done|]. intros j [=]. }
  assert (length (filter (λ x, x < target) arr) = r1) as Hc1.
  { apply boundary_count; [done | done |].
    intros i x Hx Hi. pose proof (Hhi1 _ _ Hx Hi). lia. }
  assert (length (filter (λ x, x ≤ target) arr) = r2) as Hc2.
  { apply boundary_count; [done | done |].
    intros i x Hx Hi. pose proof (Hhi2 _ _ Hx Hi). lia. }
  pose proof (count_le_lt_eq arr target) as Hsum. rewrite Hc1, Hc2 in Hsum.
  rewrite Hrun1. cbn [obind]. case_decide as Hhit.
  - destruct (Z.eqb_spec (Z.of_nat r1) (-1)) as [|_]; [lia|].
    destruct Hrun2 as [[Hrun2 Hnone]|(j & -> & Hhit2 & Hrun2)]; rewrite Hrun2; cbn [obind].
    + exfalso. destruct (decide (r1 < r2)%nat) as [Hlt|Hge].
      * destruct r2 as [|j]; [lia|].
        destruct (lookup_lt_is_Some_2 arr j) as [y Hy]; [lia|].
        pose proof (Hlo2 _ _ Hy ltac:(lia)). pose proof (Hhi1 _ _ Hy ltac:(lia)).
        apply (Hnone j eq_refl). rewrite Hy. f_equal. lia.
      * pose proof (Hhi2 _ _ Hhit ltac:(lia)). lia.
    + f_equal. lia.
  - cbn [Z.eqb]. f_equal. rewrite filter_none; [done|].
    apply Forall_lookup. intros i x Hx ->.
    destruct (decide (i < r1)%nat) as [Hlt|Hge]; [pose proof (Hlo1 _ _ Hx Hlt); lia|].
    destruct (lookup_lt_is_Some_2 arr r1) as [y Hy]; [apply lookup_lt_Some in Hx; lia|].
    pose proof (Hhi1 _ _ Hy ltac:(lia)).
    pose proof (Sorted_le_lookup arr r1 i y target Hs ltac:(lia) Hy Hx).
    apply Hhit. rewrite Hy. f_equal. lia.
Qed.

Lemma CountOccurrences_correct_witness :
  Sorted Z.le arr_test3 ∧ (length arr_test3 < 13)%nat
  ∧ CountOccurrences 13 arr_test3 5 = Done 4.
Proof.
  assert (Sorted Z.le arr_test3) as Hs by (repeat constructor; lia).
  assert (length arr_test3 < 13)%nat as Hf by (simpl; lia).
  split; [exact Hs|]. split; [exact Hf|].
  exact (CountOccurrences_correct _ 5 _ Hs Hf).
Defined.

(** The loop of [SearchInRotatedArray] on any array: every read is in range,
    and a result other than -1 is an index of the window holding the target. *)
Lemma rotated_loop_sound fuel arr target lo hi :
  (lo ≤ hi ≤ length arr)%nat → (hi - lo < fuel)%nat →
  ∃ r, rotated_loop fuel arr target (Z.of_nat lo) (Z.of_nat hi - 1) = Done r
    ∧ (r = -1 ∨ (Z.of_nat lo ≤ r < Z.of_nat hi ∧ arr !! Z.to_nat r = Some target)).
Proof.
  revert lo hi. induction fuel as [|fuel IH]; intros lo hi Hb Hfuel; [lia|].
  cbn [rotated_loop]. destruct (Z.of_nat lo <=? Z.of_nat hi - 1) eqn:E; [|by eexists; eauto].
  cbv zeta. rewrite midpoint by lia. set (m := (lo + (hi - 1 - lo) / 2)%nat).
  assert (lo ≤ m < hi)%nat as Hm by (unfold m; lia).
  destruct (index_in_range arr m ltac:(lia)) as (x & Hx & ->). cbn [obind].
  destruct (Z.eqb_spec x target) as [->|Hne].
  { eexists. split; [done|]. right. rewrite Nat2Z.id. split; [lia | done]. }
  destruct (index_in_range arr lo ltac:(lia)) as (l & Hl & ->). cbn [obind].
  assert (∃ r, rotated_loop fuel arr target (Z.of_nat lo) (Z.of_nat m - 1) = Done r
    ∧ (r = -1 ∨ (Z.of_nat lo ≤ r < Z.of_nat hi ∧ arr !! Z.to_nat r = Some target)))
    as Hleft.
  { destruct (IH lo m) as (r & -> & Hr); [lia | lia |].
    exists r. split; [done|]. destruct Hr as [|[? ?]]; [by left | right; split; [lia | done]]. }
  assert (∃ r, rotated_loop fuel arr target (Z.of_nat m + 1) (Z.of_nat hi - 1) = Done r
    ∧ (r = -1 ∨ (Z.of_nat lo ≤ r < Z.of_nat hi ∧ arr !! Z.to_nat r = Some target)))
    as Hright.
  { replace (Z.of_nat m + 1) with (Z.of_nat (S m)) by lia.
    destruct (IH (S m) hi) as (r & -> & Hr); [lia | lia |].
    exists r. split; [done|]. destruct Hr as [|[? ?]]; [by left | right; split; [lia | done]]. }
  destruct (l <=? x).
  - by destruct ((target >=? l) && (target <? x)).
  - destruct (target >? x); cbn [obind]; [|done].
    destruct (index_in_range arr (hi - 1) ltac:(lia)) as (h & Hh & Hread).
    replace (Z.of_nat (hi - 1)) with (Z.of_nat hi - 1) in Hread by lia.
    rewrite Hread. cbn [obind]. by destruct (target <=? h).
Qed.

Section Rotated.
  Variables (arr : list Z) (p : nat).
  Hypothesis upper_sorted : ∀ i j x y,
    arr !! i = Some x → arr !! j = Some y → (i < j)%nat → (j < p)%nat → x < y.
  Hypothesis lower_sorted : ∀ i j x y,
    arr !! i = Some x → arr !! j = Some y → (p ≤ i)%nat → (i < j)%nat → x < y.
  Hypothesis lower_below : ∀ i j x y,
    arr !! i = Some x → arr !! j = Some y → (i < p)%nat → (p ≤ j)%nat → y < x.

(** When the array is strictly increasing up to index [p], strictly
    increasing from [p] on, and every element from [p] on is below every
    element before [p], the loop only answers -1 for a window without the
    target. *)
Lemma rotated_loop_complete fuel target lo hi :
  (lo ≤ hi ≤ length arr)%nat →
  rotated_loop fuel arr target (Z.of_nat lo) (Z.of_nat hi - 1) = Done (-1) →
  ∀ i, (lo ≤ i < hi)%nat → arr !! i ≠ Some target.
Proof.
  revert lo hi. induction fuel as [|fuel IH]; intros lo hi Hb Hrun; [done|].
  cbn [rotated_loop] in Hrun.
  destruct (Z.of_nat lo <=? Z.of_nat hi - 1) eqn:E; [|intros; lia].
  cbv zeta in Hrun. rewrite midpoint in Hrun by lia.
  set (m := (lo + (hi - 1 - lo) / 2)%nat) in Hrun.
  assert (lo ≤ m < hi)%nat as Hm by (unfold m; lia).
  destruct (index_in_range arr m ltac:(lia)) as (x & Hx & Hrx).
  rewrite Hrx in Hrun. cbn [obind] in Hrun.
  destruct (Z.eqb_spec x target) as [Heq|Hne]; [injection Hrun; lia|].
  destruct (index_in_range arr lo ltac:(lia)) as (l & Hl & Hrl).
  rewrite Hrl in Hrun. cbn [obind] in Hrun.
  replace (Z.of_nat m + 1) with (Z.of_nat (S m)) in Hrun by lia.
  assert (∀ i y, arr !! i = Some y → (lo ≤ i)%nat → (i ≤ m)%nat →
            ¬ (lo < p ≤ m)%nat → l ≤ y ≤ x) as Hseg.
  { intros i y Hy Hi1 Hi2 Hp.
    assert (l ≤ y).
    { destruct (decide (i = lo)) as [->|]; [by simplify_eq|].
      destruct (decide (i < p)%nat).
      - pose proof (upper_sorted lo i l y Hl Hy ltac:(lia) ltac:(lia)). lia.
      - pose proof (lower_sorted lo i l y Hl Hy ltac:(lia) ltac:(lia)). lia. }
    assert (y ≤ x); [|lia].
    destruct (decide (i = m)) as [->|]; [by simplify_eq|].
    destruct (decide (m < p)%nat).
    - pose proof (upper_sorted i m y x Hy Hx ltac:(lia) ltac:(lia)). lia.
    - pose proof (lower_sorted i m y x Hy Hx ltac:(lia) ltac:(lia)). lia. }
  destruct (l <=? x) eqn:Elx.
  - assert (¬ (lo < p ≤ m)%nat) as Hp.
    { intros Hp. pose proof (lower_below lo m l x Hl Hx ltac:(lia) ltac:(lia)). lia. }
    destruct ((target >=? l) && (target <? x)) eqn:Et.
    + intros i Hi Hy. destruct (decide (i < m)%nat) as [Hlt|Hge].
      { by apply (IH lo m ltac:(lia) Hrun i ltac:(lia)). }
      destruct (decide (i = m)) as [->|]; [by simplify_eq|].
      destruct (decide (i < p)%nat).
      * pose proof (upper_sorted m i x target Hx Hy ltac:(lia) ltac:(lia)). lia.
      * destruct (decide (m < p)%nat).
        -- pose proof (lower_below lo i l target Hl Hy ltac:(lia) ltac:(lia)). lia.
        -- pose proof (lower_sorted m i x target Hx Hy ltac:(lia) ltac:(lia)). lia.
    + intros i Hi Hy. destruct (decide (m < i)%nat) as [Hlt|Hge].
      { by apply (IH (S m) hi ltac:(lia) Hrun i ltac:(lia)). }
      pose proof (Hseg i target Hy ltac:(lia) ltac:(lia) Hp). lia.
  - assert (lo < p ≤ m)%nat as Hp.
    { destruct (decide (lo < p ≤ m)%nat) as [|Hn]; [done|].
      pose proof (Hseg m x Hx ltac:(lia) ltac:(lia) Hn). lia. }
    destruct (target >? x) eqn:Et; cbn [obind] in Hrun.
    + destruct (index_in_range arr (hi - 1) ltac:(lia)) as (h & Hh & Hrh).
      replace (Z.of_nat (hi - 1)) with (Z.of_nat hi - 1) in Hrh by lia.
      rewrite Hrh in Hrun. cbn [obind] in Hrun.
      assert (x ≤ h) as Hxh.
      { destruct (decide (m = hi - 1)%nat) as [Heq|]; [rewrite Heq in Hx; by simplify_eq|].
        pose proof (lower_sorted m (hi - 1) x h Hx Hh ltac:(lia) ltac:(lia)). lia. }
      destruct (target <=? h) eqn:Eh.
      * intros i Hi Hy. destruct (decide (m < i)%nat) as [Hlt|Hge].
        { by apply (IH (S m) hi ltac:(lia) Hrun i ltac:(lia)). }
        destruct (decide (i = m)) as [->|]; [by simplify_eq|].
        destruct (decide (i < p)%nat).
        -- pose proof (lower_below i (hi - 1) target h Hy Hh ltac:(lia) ltac:(lia)). lia.
        -- pose proof (lower_sorted i m target x Hy Hx ltac:(lia) ltac:(lia)). lia.
      * intros i Hi Hy. destruct (decide (i < m)%nat) as [Hlt|Hge].
        { by apply (IH lo m ltac:(lia) Hrun i ltac:(lia)). }
        destruct (decide (i = hi - 1)%nat) as [Heq|]; [rewrite Heq in Hy; simplify_eq; lia|].
        pose proof (lower_sorted i (hi - 1) target h Hy Hh ltac:(lia) ltac:(lia)). lia.
    + intros i Hi Hy. destruct (decide (i < m)%nat) as [Hlt|Hge].
      { by apply (IH lo m ltac:(lia) Hrun i ltac:(lia)). }
      destruct (decide (i = m)) as [->|]; [by simplify_eq|].
      pose proof (lower_sorted m i x target Hx Hy ltac:(lia) ltac:(lia)). lia.
Qed.

End Rotated.

(** X6.  [SearchInRotatedArray] always returns: every index it reads is in
    range.  A result other than -1 is an index of the array that holds the
    target.  On a rotation [a ++ b] of a strictly increasing array [b ++ a]
    the result is -1 exactly when the target does not occur. *)
Theorem SearchInRotatedArray_correct arr target fuel :
  (length arr < fuel)%nat →
  ∃ r,
    SearchInRotatedArray fuel arr target = Done r
    ∧ (r = -1 ∨ (0 ≤ r < Z.of_nat (length arr) ∧ arr !! Z.to_nat r = Some target))
    ∧ (∀ a b, arr = a ++ b → StronglySorted Z.lt (b ++ a) →
        r = -1 ↔ target ∉ arr).
Proof.
  intros Hfuel. unfold SearchInRotatedArray. change 0 with (Z.of_nat 0).
  destruct (rotated_loop_sound fuel arr target 0 (length arr)) as (r & Hrun & Hr);
    [lia | lia |].
  exists r. split; [done|]. split; [done|].
  intros a b -> Hs. split.
  - intros ->. intros [i Hi]%list_elem_of_lookup. revert i Hi.
    pose proof (lookup_lt_Some (a ++ b)) as Hlen.
    assert (∀ i, (0 ≤ i < length (a ++ b))%nat → (a ++ b) !! i ≠ Some target) as Hnone.
    { apply (rotated_loop_complete (a ++ b) (length a)) with (fuel := fuel);
        [| | | lia | done].
      - intros i j x y Hx Hy Hij Hj.
        rewrite lookup_app_l in Hx, Hy by lia.
        apply (StronglySorted_lookup Z.lt (b ++ a) (length b + i) (length b + j));
          [done | lia | |]; by rewrite lookup_app_r, Nat.add_sub' by lia.
      - intros i j x y Hx Hy Hi Hij.
        rewrite lookup_app_r in Hx, Hy by lia.
        apply (StronglySorted_lookup Z.lt (b ++ a) (i - length a) (j - length a));
          [done | lia | |]; rewrite lookup_app_l; [done | | done |];
          eapply lookup_lt_Some; eassumption.
      - intros i j x y Hx Hy Hi Hj.
        rewrite lookup_app_l in Hx by lia. rewrite lookup_app_r in Hy by lia.
        apply (StronglySorted_lookup Z.lt (b ++ a) (j - length a) (length b + i));
          [done | apply lookup_lt_Some in Hy; lia | |].
        + rewrite lookup_app_l; [done|]. eapply lookup_lt_Some; eassumption.
        + by rewrite lookup_app_r, Nat.add_sub' by lia. }
    intros i Hi. apply (Hnone i); [|done]. apply Hlen in Hi. lia.
  - intros Habsent. destruct Hr as [|[_ Hhit]]; [done|].
    exfalso. apply Habsent. by eapply list_elem_of_lookup_2.
Qed.

Lemma SearchInRotatedArray_correct_witness :
  (length arr_test5 < 8)%nat
  ∧ StronglySorted Z.lt ([0; 1; 2] ++ [4; 5; 6; 7])
  ∧ SearchInRotatedArray 8 arr_test5 3 = Done (-1) ∧ 3 ∉ arr_test5.
Proof.
  assert (length arr_test5 < 8)%nat as Hf by (simpl; lia).
  assert (StronglySorted Z.lt ([0; 1; 2] ++ [4; 5; 6; 7])) as Hs
    by (repeat constructor; lia).
  split; [exact Hf|]. split; [exact Hs|].
  destruct (SearchInRotatedArray_correct arr_test5 3 8 Hf) as (r & Hrun & _ & Hrot).
  assert (r = -1) as -> by (vm_compute in Hrun; congruence).
  split; [exact Hrun|].
  exact (proj1 (Hrot [4; 5; 6; 7] [0; 1; 2] eq_refl Hs) eq_refl).
Defined.

End BinarySearchMore.

(** ** Merge sort: the helpers and the other functions of the file *)

Lemma ordered_from_spec (pre rest : list Z) (y : Z) :
  MergeSort.ordered_from (length rest) (pre ++ y :: rest) (Z.of_nat (length pre) + 1)
  = Done (bool_decide (Sorted Z.le (y :: rest))).
Proof.
  revert pre y. induction rest as [|x rest IH]; intros pre y.
  - rewrite bool_decide_eq_true_2 by (by repeat constructor). done.
  - cbn [length MergeSort.ordered_from].
    assert (index (pre ++ y :: x :: rest) (Z.of_nat (length pre) + 1) = Done x) as ->.
    { replace (Z.of_nat (length pre) + 1) with (Z.of_nat (length (pre ++ [y])))
        by (rewrite length_app; simpl; lia).
      replace (pre ++ y :: x :: rest) with ((pre ++ [y]) ++ x :: rest)
        by (by rewrite <- app_assoc).
      apply index_middle. }
    cbn [obind].
    replace (Z.of_nat (length pre) + 1 - 1) with (Z.of_nat (length pre)) by lia.
    rewrite index_middle. cbn [obind].
    destruct (x <? y) eqn:E.
    + f_equal. symmetry. apply bool_decide_eq_false.
      intros Hs. apply Sorted_inv in Hs as [_ Hhd]. apply HdRel_inv in Hhd. lia.
    + specialize (IH (pre ++ [y]) x).
      rewrite length_app in IH. cbn [length] in IH.
      replace (Z.of_nat (length pre + 1)) with (Z.of_nat (length pre) + 1) in IH by lia.
      rewrite <- app_assoc in IH. cbn [app] in IH. rewrite IH. f_equal.
      apply bool_decide_ext. split.
      * intros Hs. constructor; [done|]. constructor. lia.
      * intros Hs. by apply Sorted_inv in Hs as [? _].
Qed.

Lemma equal_from_spec (pa pb a b : list Z) :
  length pa = length pb → length a = length b →
  MergeSort.equal_from (length a) (pa ++ a) (pb ++ b) (Z.of_nat (length pa))
  = Done (bool_decide (a = b)).
Proof.
  revert pa pb b. induction a as [|x a IH]; intros pa pb [|y b] Hp Hl; try done.
  cbn [length MergeSort.equal_from]. rewrite index_middle. cbn [obind].
  rewrite Hp, index_middle. cbn [obind].
  destruct (Z.eqb_spec x y) as [->|Hne]; cbn [negb].
  - specialize (IH (pa ++ [y]) (pb ++ [y]) b).
    rewrite !length_app in IH. cbn [length] in IH.
    rewrite <- !app_assoc in IH. cbn [app] in IH.
    replace (Z.of_nat (length pa + 1)) with (Z.of_nat (length pb) + 1) in IH by lia.
    rewrite IH; [|lia | by injection Hl]. f_equal.
    apply bool_decide_ext. split; [by intros -> | by intros [= ->]].
  - f_equal. symmetry. apply bool_decide_eq_false. by intros [= ? ?].
Qed.

Section MergeSortMore.
Import MergeSort.
Context {A : Type} (key : A → Z) (zero : A).
Implicit Types (l pre seg post : list A).

#[local] Existing Instances key_le_total key_le_trans.

(** X7.  [MergeTwoSortedArrays] returns (it never indexes out of range) a
    rearrangement of the elements of its two arguments; when both are
    sorted so is the result, and among elements that compare equal those of
    the first argument come first, each group in its original order. *)
Theorem MergeTwoSortedArrays_correct (arr1 arr2 : list A) fuel :
  (length arr1 + length arr2 < fuel)%nat →
  ∃ out,
    MergeTwoSortedArraysBy key zero fuel arr1 arr2 = Done out
    ∧ out ≡ₚ arr1 ++ arr2
    ∧ (sorted key arr1 → sorted key arr2 →
       sorted key out
       ∧ ∀ k, with_key key k out = with_key key k arr1 ++ with_key key k arr2).
Proof.
  intros Hfuel. exists (merge_lists key arr1 arr2). split; [|split].
  - unfold MergeTwoSortedArraysBy.
    rewrite <- Nat2Z.inj_add, make_spec. cbn [obind].
    rewrite (merge_loop_count_loop key Int64 fuel arr1 arr2 _ 0 0 0 0).
    pose proof (count_loops_spec key Int64 fuel fuel [] arr1 [] arr2 []
                  (replicate (length arr1 + length arr2) zero) [] 0
                  ltac:(by rewrite length_replicate) Hfuel Hfuel (wrap_0 Int64)) as H.
    cbn [app length] in H. rewrite !app_nil_r in H.
    change (Z.of_nat 0) with 0 in H.
    destruct (count_loop _ _ _ _ _ _ _ _ _ _) as [[[[[r1 i] j] k] n]| |]; [|done..].
    cbn [obind] in H |- *.
    destruct (copy_rest _ _ _ r1 _ _) as [[[r2 i'] k']| |]; [|done..].
    cbn [obind] in H |- *.
    destruct (copy_rest _ _ _ r2 _ _) as [[[r3 j'] k'']| |]; [|done..].
    cbn [obind] in H |- *. by injection H as ->.
  - apply merge_lists_Permutation.
  - intros H1 H2. split; [by apply sorted_merge_lists|].
    intros k. by apply with_key_merge_lists.
Qed.

End MergeSortMore.

Lemma MergeTwoSortedArrays_correct_witness :
  (length [1; 3; 5; 7]%Z + length [2; 4; 6; 8]%Z < 9)%nat
  ∧ MergeSort.MergeTwoSortedArrays 9 [1; 3; 5; 7] [2; 4; 6; 8]
    = Done [1; 2; 3; 4; 5; 6; 7; 8]
  ∧ Sorted Z.le [1; 2; 3; 4; 5; 6; 7; 8].
Proof.
  assert (length [1; 3; 5; 7]%Z + length [2; 4; 6; 8]%Z < 9)%nat as Hf by (simpl; lia).
  split; [exact Hf|].
  destruct (MergeTwoSortedArrays_correct (λ x, x) 0 [1; 3; 5; 7] [2; 4; 6; 8] 9 Hf)
    as (out & Hrun & _ & Hs).
  assert (out = [1; 2; 3; 4; 5; 6; 7; 8]) as ->.
  { vm_compute in Hrun. by injection Hrun. }
  split; [exact Hrun|].
  apply Hs; unfold MergeSort.sorted; repeat constructor; unfold MergeSort.key_le; lia.
Defined.

(** X8.  [isSorted] never indexes out of range and returns whether its
    argument is in non-descending order. *)
Theorem isSorted_correct (arr : list Z) :
  MergeSort.isSorted arr = Done (bool_decide (Sorted Z.le arr)).
Proof.
  unfold MergeSort.isSorted. destruct arr as [|y rest].
  - rewrite bool_decide_eq_true_2 by constructor. done.
  - replace (Z.to_nat (Z.of_nat (length (y :: rest)) - 1)) with (length rest)
      by (cbn [length]; lia).
    exact (ordered_from_spec [] rest y).
Qed.

(** X9.  [slicesEqual] (and [sliceEqual] of the linked list file, which is
    the same code) never indexes out of range and returns whether its two
    arguments have the same elements in the same order. *)
Theorem slicesEqual_correct (a b : list Z) :
  MergeSort.slicesEqual a b = Done (bool_decide (a = b)).
Proof.
  unfold MergeSort.slicesEqual.
  destruct (Z.eqb_spec (Z.of_nat (length a)) (Z.of_nat (length b))) as [Hl|Hl]; cbn [negb].
  - apply (equal_from_spec [] [] a b); [done | lia].
  - f_equal. symmetry. apply bool_decide_eq_false. intros ->. lia.
Qed.

Section MergeSortRanges.
Import MergeSort.
Context {A : Type} (key : A → Z) (zero : A).
Implicit Types (l pre seg post : list A).

#[local] Existing Instances key_le_total key_le_trans.

(** A list has one stable sort only. *)
Lemma sorted_stable_unique l1 l2 :
  sorted key l1 → sorted key l2 → l1 ≡ₚ l2 →
  (∀ k, with_key key k l1 = with_key key k l2) → l1 = l2.
Proof.
  revert l2. induction l1 as [|x l1 IH]; intros l2 H1 H2 Hp Hk.
  { by apply Permutation_nil in Hp. }
  destruct l2 as [|y l2].
  { symmetry in Hp. by apply Permutation_nil_cons in Hp. }
  apply sorted_cons_inv in H1 as [H1 F1]. apply sorted_cons_inv in H2 as [H2 F2].
  assert (key x ≤ key y) as Hxy.
  { assert (y ∈ x :: l1) as [->|Hy]%elem_of_cons by (rewrite Hp; left); [lia|].
    rewrite Forall_forall in F1. by apply F1. }
  assert (key y ≤ key x) as Hyx.
  { assert (x ∈ y :: l2) as [->|Hx]%elem_of_cons by (rewrite <- Hp; left); [lia|].
    rewrite Forall_forall in F2. by apply F2. }
  pose proof (Hk (key x)) as Hkx. unfold with_key in Hkx.
  rewrite filter_cons_True in Hkx by done.
  rewrite filter_cons_True in Hkx by lia. injection Hkx as <- _.
  f_equal. apply IH; [done | done | by eapply Permutation_cons_inv |].
  intros k. specialize (Hk k). unfold with_key in *. rewrite !filter_cons in Hk.
  case_decide; [by injection Hk | done].
Qed.

Lemma stable_sort_of_sorted inp out :
  sorted key inp → stable_sort_of key inp out → out = inp.
Proof.
  intros Hs (Hout & Hperm & Hk). by apply sorted_stable_unique.
Qed.

Lemma inversions_from_zero l : inversions_from key l = 0%nat → sorted key l.
Proof.
  induction l as [|x l IH]; intros H; [constructor|].
  cbn [inversions_from] in H. constructor; [apply IH; lia|].
  destruct l as [|y l]; constructor. unfold key_le.
  assert (smaller_count key x (y :: l) = 0)%nat as H0 by lia.
  unfold smaller_count in H0. rewrite filter_cons in H0.
  case_decide; [simpl in H0; lia | lia].
Qed.

Lemma cross_inversions_pairs l1 l2 :
  cross_inversions key l1 l2
  = length (filter (λ p, key p.2 < key p.1) (list_prod l1 l2)).
Proof.
  unfold cross_inversions, smaller_count.
  by rewrite (length_filter_prod (λ p : A * A, key p.2 < key p.1)).
Qed.

Lemma MergeSortBy_run (m : gmap positive (list A)) arr a :
  elements_of m arr = Done a →
  ∃ m' res out,
    (∀ fuel, (length a < fuel)%nat → MergeSortBy key zero fuel m arr = Done (m', res))
    ∧ elements_of m' res = Done out
    ∧ stable_sort_of key a out.
Proof.
  intros Ha. destruct (decide (length a ≤ 1)%nat) as [Hshort|Hlong].
  - exists m, arr, a. split; [|split; [done|]].
    + intros fuel _. unfold MergeSortBy. rewrite Ha. cbn [obind].
      destruct (Z.of_nat (length a) <=? 1) eqn:E; [done | lia].
    + split; [|done]. destruct a as [|x [|y a]]; [constructor | | simpl in Hshort; lia].
      by repeat constructor.
  - destruct (mergeSortHelper_whole key zero a) as (out & Hsort & Hrun).
    exists (<[fresh (dom m) := out]> m), (mkSlice (fresh (dom m)) 0 (length out)), out.
    split; [|split; [apply elements_of_fresh | done]].
    intros fuel Hfuel. unfold MergeSortBy. rewrite Ha. cbn [obind].
    destruct (Z.of_nat (length a) <=? 1) eqn:E; [lia|].
    rewrite make_spec. cbn [obind]. rewrite copy_full.
    by rewrite (Hrun fuel Hfuel).
Qed.

Lemma CountInversionsBy_run (m : gmap positive (list A)) arr a :
  elements_of m arr = Done a →
  ∃ m' res out,
    (∀ sz fuel, (length a < fuel)%nat →
       CountInversionsBy key zero sz fuel m arr
       = Done (m', res, wrap sz (Z.of_nat (inversions_from key a))))
    ∧ elements_of m' res = Done out
    ∧ stable_sort_of key a out.
Proof.
  intros Ha. destruct (countInversionsHelper_whole key zero a) as (out & Hsort & Hrun).
  exists (<[fresh (dom m) := out]> m), (mkSlice (fresh (dom m)) 0 (length out)), out.
  split; [|split; [apply elements_of_fresh | done]].
  intros sz fuel Hfuel. unfold CountInversionsBy. rewrite Ha. cbn [obind].
  rewrite make_spec. cbn [obind]. rewrite copy_full.
  by rewrite (Hrun sz fuel Hfuel).
Qed.

(** X10.  [mergeSortHelper] on the range [left..right] of an array sorts
    that range stably in place and leaves every element outside the range
    where it is. *)
Theorem mergeSortHelper_range pre seg post fuel :
  (length seg < fuel)%nat →
  ∃ seg',
    mergeSortHelper key zero fuel (pre ++ seg ++ post)
      (Z.of_nat (length pre)) (Z.of_nat (length pre) + Z.of_nat (length seg) - 1)
    = Done (pre ++ seg' ++ post)
    ∧ stable_sort_of key seg seg'.
Proof.
  intros Hfuel. destruct (countInversionsHelper_spec key zero seg) as (seg' & Hsort & Hrun).
  exists seg'. split; [|done].
  rewrite (mergeSortHelper_countInversionsHelper key zero Int64).
  by rewrite (Hrun Int64 fuel pre post Hfuel).
Qed.

(** X11.  [merge] on two adjacent ranges of an array replaces them by a
    rearrangement of their elements and leaves the rest of the array as it
    is; when both ranges are sorted the result is sorted, with equal
    elements of the left range before those of the right one. *)
Theorem merge_range pre s1 s2 post fuel :
  (length s1 + length s2 < fuel)%nat →
  ∃ out,
    merge key zero fuel (pre ++ s1 ++ s2 ++ post)
      (Z.of_nat (length pre)) (Z.of_nat (length pre) + Z.of_nat (length s1) - 1)
      (Z.of_nat (length pre) + Z.of_nat (length s1) + Z.of_nat (length s2) - 1)
    = Done (pre ++ out ++ post)
    ∧ out ≡ₚ s1 ++ s2
    ∧ (sorted key s1 → sorted key s2 →
       sorted key out
       ∧ ∀ k, with_key key k out = with_key key k s1 ++ with_key key k s2).
Proof.
  intros Hfuel. exists (merge_lists key s1 s2). split; [|split].
  - rewrite (merge_mergeAndCount key zero Int64).
    by rewrite (mergeAndCount_spec key zero Int64 fuel pre s1 s2 post Hfuel).
  - apply merge_lists_Permutation.
  - intros H1 H2. split; [by apply sorted_merge_lists|].
    intros k. by apply with_key_merge_lists.
Qed.

(** X12.  On two adjacent sorted ranges [mergeAndCount] changes the array
    as [merge] does and returns, as an [int], the number of pairs of an
    element of the left range and a smaller element of the right range: that
    number wrapped around as Go's [int] does, which is the number itself
    whenever it is at most the largest [int], as it is when the product of
    the two lengths is. *)
Theorem mergeAndCount_cross sz pre s1 s2 post fuel :
  sorted key s1 → sorted key s2 →
  (length s1 + length s2 < fuel)%nat →
  ∃ arr' n,
    mergeAndCount key zero sz fuel (pre ++ s1 ++ s2 ++ post)
      (Z.of_nat (length pre)) (Z.of_nat (length pre) + Z.of_nat (length s1) - 1)
      (Z.of_nat (length pre) + Z.of_nat (length s1) + Z.of_nat (length s2) - 1)
    = Done (arr', n)
    ∧ merge key zero fuel (pre ++ s1 ++ s2 ++ post)
        (Z.of_nat (length pre)) (Z.of_nat (length pre) + Z.of_nat (length s1) - 1)
        (Z.of_nat (length pre) + Z.of_nat (length s1) + Z.of_nat (length s2) - 1)
      = Done arr'
    ∧ n = wrap sz (Z.of_nat (length (filter (λ p, key p.2 < key p.1) (list_prod s1 s2))))
    ∧ (Z.of_nat (length (filter (λ p, key p.2 < key p.1) (list_prod s1 s2))) ≤ max_int sz →
       n = Z.of_nat (length (filter (λ p, key p.2 < key p.1) (list_prod s1 s2))))
    ∧ (Z.of_nat (length s1) * Z.of_nat (length s2) ≤ max_int sz →
       Z.of_nat (length (filter (λ p, key p.2 < key p.1) (list_prod s1 s2))) ≤ max_int sz).
Proof.
  intros H1 H2 Hfuel.
  pose proof (mergeAndCount_spec key zero sz fuel pre s1 s2 post Hfuel) as Hrun.
  rewrite merge_count_cross, cross_inversions_pairs in Hrun by done.
  eexists _, _. split; [exact Hrun|]. split; [|split; [done|split]].
  - by rewrite (merge_mergeAndCount key zero sz), Hrun.
  - intros Hfit. apply wrap_exact. lia.
  - intros Hfit.
    pose proof (length_filter (λ p : A * A, key p.2 < key p.1) (list_prod s1 s2)) as Hle.
    rewrite length_prod in Hle. lia.
Qed.

(** X13.  [countInversionsHelper] on the range [left..right] of an array
    sorts the range stably, leaves the rest of the array as it is, and
    returns, as an [int], the number of inversions inside the range: that
    number wrapped around as Go's [int] does, which is the number itself
    whenever it is at most the largest [int], as it is for a range of at most
    65536 elements. *)
Theorem countInversionsHelper_range sz pre seg post fuel :
  (length seg < fuel)%nat →
  ∃ seg' n,
    countInversionsHelper key zero sz fuel (pre ++ seg ++ post)
      (Z.of_nat (length pre)) (Z.of_nat (length pre) + Z.of_nat (length seg) - 1)
    = Done (pre ++ seg' ++ post, n)
    ∧ stable_sort_of key seg seg'
    ∧ n = wrap sz (Z.of_nat (inversions key seg))
    ∧ (Z.of_nat (inversions key seg) ≤ max_int sz → n = Z.of_nat (inversions key seg))
    ∧ (Z.of_nat (length seg) ≤ 65536 → Z.of_nat (inversions key seg) ≤ max_int sz).
Proof.
  intros Hfuel. destruct (countInversionsHelper_spec key zero seg) as (seg' & Hsort & Hrun).
  exists seg', (wrap sz (Z.of_nat (inversions key seg))).
  split; [|split; [done|split; [done|split]]].
  - rewrite (Hrun sz fuel pre post Hfuel). by rewrite inversions_inversions_from.
  - intros Hfit. apply wrap_exact. lia.
  - apply inversions_fit.
Qed.

(** X14.  [MergeSort] of an array that is already sorted returns an array
    with the same elements in the same order. *)
Theorem MergeSort_sorted_input (m : gmap positive (list A)) arr a fuel :
  elements_of m arr = Done a → sorted key a → (length a < fuel)%nat →
  ∃ m' res,
    MergeSortBy key zero fuel m arr = Done (m', res)
    ∧ elements_of m' res = Done a.
Proof.
  intros Ha Hs Hfuel.
  destruct (MergeSortBy_run m arr a Ha) as (m' & res & out & Hrun & Hout & Hsort).
  exists m', res. split; [by apply Hrun|].
  by rewrite <- (stable_sort_of_sorted a out Hs Hsort).
Qed.

(** X15.  Sorting twice is sorting once: [MergeSort] applied to the result
    of [MergeSort] returns an array with the same elements in the same
    order as that result. *)
Theorem MergeSort_idempotent (m : gmap positive (list A)) arr a fuel :
  elements_of m arr = Done a → (length a < fuel)%nat →
  ∃ m1 r1 m2 r2 out,
    MergeSortBy key zero fuel m arr = Done (m1, r1)
    ∧ MergeSortBy key zero fuel m1 r1 = Done (m2, r2)
    ∧ elements_of m1 r1 = Done out
    ∧ elements_of m2 r2 = Done out.
Proof.
  intros Ha Hfuel.
  destruct (MergeSortBy_run m arr a Ha) as (m1 & r1 & out & Hrun1 & Hout & Hsort).
  destruct (MergeSortBy_run m1 r1 out Hout) as (m2 & r2 & out2 & Hrun2 & Hout2 & Hsort2).
  exists m1, r1, m2, r2, out.
  assert (length out = length a) as Hlen.
  { destruct Hsort as (_ & Hperm & _). by rewrite Hperm. }
  split; [by apply Hrun1|]. split; [apply Hrun2; lia|]. split; [done|].
  destruct Hsort as (Hs & _).
  by rewrite <- (stable_sort_of_sorted out out2 Hs Hsort2).
Qed.

(** X16.  [CountInversions] returns the count 0 for every argument in
    non-descending order.  Conversely, when the number of inversions is at
    most the largest [int], as it is for every array of at most 65536
    elements, a count of 0 means that the argument is in non-descending
    order. *)
Theorem CountInversions_zero_sorted sz (m : gmap positive (list A)) arr a fuel :
  elements_of m arr = Done a → (length a < fuel)%nat →
  ∃ m' res n,
    CountInversionsBy key zero sz fuel m arr = Done (m', res, n)
    ∧ (sorted key a → n = 0)
    ∧ (Z.of_nat (inversions key a) ≤ max_int sz → n = 0 → sorted key a)
    ∧ (Z.of_nat (length a) ≤ 65536 → Z.of_nat (inversions key a) ≤ max_int sz).
Proof.
  intros Ha Hfuel.
  destruct (CountInversionsBy_run m arr a Ha) as (m' & res & out & Hrun & _ & _).
  exists m', res, (wrap sz (Z.of_nat (inversions_from key a))).
  split; [by apply Hrun|]. split; [|split].
  - intros H. rewrite inversions_from_sorted by done. apply wrap_0.
  - rewrite inversions_inversions_from. intros Hfit H0.
    rewrite wrap_exact in H0 by lia. apply inversions_from_zero. lia.
  - apply inversions_fit.
Qed.

(** X17.  [CountInversions] and [MergeSort] return arrays with the same
    elements in the same order. *)
Theorem CountInversions_sorts_like_MergeSort sz (m : gmap positive (list A)) arr a fuel :
  elements_of m arr = Done a → (length a < fuel)%nat →
  ∃ m1 r1 m2 r2 n out,
    MergeSortBy key zero fuel m arr = Done (m1, r1)
    ∧ CountInversionsBy key zero sz fuel m arr = Done (m2, r2, n)
    ∧ elements_of m1 r1 = Done out
    ∧ elements_of m2 r2 = Done out.
Proof.
  intros Ha Hfuel.
  destruct (MergeSortBy_run m arr a Ha) as (m1 & r1 & out & Hrun1 & Hout & Hsort).
  destruct (CountInversionsBy_run m arr a Ha) as (m2 & r2 & out2 & Hrun2 & Hout2 & Hsort2).
  exists m1, r1, m2, r2, (wrap sz (Z.of_nat (inversions_from key a))), out.
  split; [by apply Hrun1|]. split; [by apply Hrun2|]. split; [done|].
  destruct Hsort as (Hs & Hp & Hk). destruct Hsort2 as (Hs2 & Hp2 & Hk2).
  rewrite Hout2. f_equal. apply sorted_stable_unique; [done | done | by rewrite Hp2 |].
  intros k. by rewrite Hk, Hk2.
Qed.

End MergeSortRanges.

(** *** An inversion count beyond the range of a 32-bit [int] *)

Lemma inversions_from_replicate {A} (key : A → Z) (n : nat) (x : A) :
  MergeSort.inversions_from key (replicate n x) = 0%nat.
Proof.
  induction n as [|n IH]; [done|]. cbn [replicate MergeSort.inversions_from].
  rewrite IH. unfold MergeSort.smaller_count.
  rewrite filter_none; [done|]. apply Forall_forall. intros y Hy.
  apply elem_of_replicate in Hy as [-> _]. lia.
Qed.

Lemma cross_inversions_replicate (n k : nat) :
  MergeSort.cross_inversions (λ x : Z, x) (replicate n 1) (replicate k 0) = (n * k)%nat.
Proof.
  unfold MergeSort.cross_inversions.
  induction n as [|n IH]; [done|]. cbn [replicate sum_list_with]. rewrite IH.
  unfold MergeSort.smaller_count. rewrite filter_all.
  - rewrite length_replicate. lia.
  - apply Forall_forall. intros y Hy. apply elem_of_replicate in Hy as [-> _]. lia.
Qed.

Lemma inversions_ones_zeros :
  Z.of_nat (MergeSort.inversions (λ x, x) MergeSort.ones_zeros) = 4294967296.
Proof.
  rewrite inversions_inversions_from. unfold MergeSort.ones_zeros.
  rewrite inversions_from_app, !inversions_from_replicate, cross_inversions_replicate.
  rewrite Nat.add_0_l, Nat2Z.inj_mul, Z2Nat.id by lia. reflexivity.
Qed.

(** C9, as stated, fails.  The array of 65536 ones followed by 65536 zeros
    has [65536 * 65536 = 2 ^ 32] pairs of positions [i < j] with
    [arr[i] > arr[j]]: each one is before each zero.  Where [int] has 32
    bits the counter, to which the last merge adds 65536 for each of the
    65536 zeros, wraps around, and [CountInversions] returns the count 0. *)
Lemma CountInversions_wraps :
  elements_of MergeSort.store_ones_zeros (mkSlice 1 0 (length MergeSort.ones_zeros))
  = Done MergeSort.ones_zeros
  ∧ Z.of_nat (MergeSort.inversions (λ x, x) MergeSort.ones_zeros) = 4294967296
  ∧ ∃ m' res,
      MergeSort.CountInversions Int32 (S (length MergeSort.ones_zeros))
        MergeSort.store_ones_zeros (mkSlice 1 0 (length MergeSort.ones_zeros))
      = Done (m', res, 0).
Proof.
  assert (elements_of MergeSort.store_ones_zeros
            (mkSlice 1 0 (length MergeSort.ones_zeros)) = Done MergeSort.ones_zeros) as Ha.
  { unfold elements_of, MergeSort.store_ones_zeros. cbn [base off len].
    rewrite lookup_singleton_eq. rewrite decide_True by lia.
    by rewrite drop_0, firstn_all. }
  split; [exact Ha|]. split; [exact inversions_ones_zeros|].
  destruct (CountInversionsBy_run (λ x : Z, x) 0 _ _ _ Ha)
    as (m' & res & out & Hrun & _ & _).
  exists m', res. unfold MergeSort.CountInversions.
  rewrite (Hrun Int32 (S (length MergeSort.ones_zeros)) ltac:(lia)).
  rewrite <- inversions_inversions_from, inversions_ones_zeros. reflexivity.
Qed.

Lemma mergeSortHelper_range_witness :
  (length [3; 1; 2]%Z < 4)%nat
  ∧ ∃ seg',
      MergeSort.mergeSortHelper (λ x, x) 0 4 ([9] ++ [3; 1; 2] ++ [0])
        (Z.of_nat (length [9]%Z)) (Z.of_nat (length [9]%Z) + Z.of_nat (length [3; 1; 2]%Z) - 1)
      = Done ([9] ++ seg' ++ [0])
      ∧ MergeSort.stable_sort_of (λ x, x) [3; 1; 2] seg'.
Proof.
  assert (length [3; 1; 2]%Z < 4)%nat as Hf by (simpl; lia).
  split; [exact Hf|].
  exact (mergeSortHelper_range (λ x, x) 0 [9] [3; 1; 2] [0] 4 Hf).
Defined.

Lemma merge_range_witness :
  (length [1; 4]%Z + length [2; 3]%Z < 5)%nat
  ∧ ∃ out,
      MergeSort.merge (λ x, x) 0 5 ([9] ++ [1; 4] ++ [2; 3] ++ [0])
        (Z.of_nat (length [9]%Z))
        (Z.of_nat (length [9]%Z) + Z.of_nat (length [1; 4]%Z) - 1)
        (Z.of_nat (length [9]%Z) + Z.of_nat (length [1; 4]%Z)
         + Z.of_nat (length [2; 3]%Z) - 1)
      = Done ([9] ++ out ++ [0])
      ∧ out ≡ₚ [1; 4] ++ [2; 3]
      ∧ (MergeSort.sorted (λ x, x) [1; 4] → MergeSort.sorted (λ x, x) [2; 3] →
         MergeSort.sorted (λ x, x) out
         ∧ ∀ k, MergeSort.with_key (λ x, x) k out
                = MergeSort.with_key (λ x, x) k [1; 4]
                  ++ MergeSort.with_key (λ x, x) k [2; 3]).
Proof.
  assert (length [1; 4]%Z + length [2; 3]%Z < 5)%nat as Hf by (simpl; lia).
  split; [exact Hf|].
  exact (merge_range (λ x, x) 0 [9] [1; 4] [2; 3] [0] 5 Hf).
Defined.

Lemma mergeAndCount_cross_witness :
  MergeSort.sorted (λ x, x) [1; 4] ∧ MergeSort.sorted (λ x, x) [2; 3]
  ∧ (length [1; 4]%Z + length [2; 3]%Z < 5)%nat
  ∧ ∃ arr',
      MergeSort.mergeAndCount (λ x, x) 0 Int32 5 [9; 1; 4; 2; 3; 0] 1 2 4 = Done (arr', 2)
      ∧ MergeSort.merge (λ x, x) 0 5 [9; 1; 4; 2; 3; 0] 1 2 4 = Done arr'.
Proof.
  assert (MergeSort.sorted (λ x, x) [1; 4]) as H1
    by (repeat constructor; unfold MergeSort.key_le; lia).
  assert (MergeSort.sorted (λ x, x) [2; 3]) as H2
    by (repeat constructor; unfold MergeSort.key_le; lia).
  assert (length [1; 4]%Z + length [2; 3]%Z < 5)%nat as Hf by (simpl; lia).
  split; [exact H1|]. split; [exact H2|]. split; [exact Hf|].
  destruct (mergeAndCount_cross (λ x, x) 0 Int32 [9] [1; 4] [2; 3] [0] 5 H1 H2 Hf)
    as (arr' & n & Hrun & Hmerge & Hn & _).
  exists arr'. split; [|exact Hmerge].
  etrans; [exact Hrun|]. rewrite Hn. reflexivity.
Defined.

Lemma countInversionsHelper_range_witness :
  (length [3; 1; 2]%Z < 4)%nat
  ∧ ∃ seg',
      MergeSort.countInversionsHelper (λ x, x) 0 Int32 4 [9; 3; 1; 2; 0] 1 3
      = Done ([9] ++ seg' ++ [0], 2)
      ∧ MergeSort.stable_sort_of (λ x, x) [3; 1; 2] seg'.
Proof.
  assert (length [3; 1; 2]%Z < 4)%nat as Hf by (simpl; lia).
  split; [exact Hf|].
  destruct (countInversionsHelper_range (λ x, x) 0 Int32 [9] [3; 1; 2] [0] 4 Hf)
    as (seg' & n & Hrun & Hsort & Hn & _).
  exists seg'. split; [|exact Hsort].
  etrans; [exact Hrun|]. rewrite Hn. reflexivity.
Defined.

Lemma MergeSort_sorted_input_witness :
  elements_of MergeSort.store_test2 (mkSlice 1 0 5) = Done [1; 2; 3; 4; 5]
  ∧ MergeSort.sorted (λ x, x) [1; 2; 3; 4; 5]
  ∧ (length [1; 2; 3; 4; 5]%Z < 6)%nat
  ∧ ∃ m' res,
      MergeSort.MergeSort 6 MergeSort.store_test2 (mkSlice 1 0 5) = Done (m', res)
      ∧ elements_of m' res = Done [1; 2; 3; 4; 5].
Proof.
  assert (elements_of MergeSort.store_test2 (mkSlice 1 0 5) = Done [1; 2; 3; 4; 5]) as Ha
    by (vm_compute; reflexivity).
  assert (MergeSort.sorted (λ x, x) [1; 2; 3; 4; 5]) as Hs
    by (repeat constructor; unfold MergeSort.key_le; lia).
  assert (length [1; 2; 3; 4; 5]%Z < 6)%nat as Hf by (simpl; lia).
  split; [exact Ha|]. split; [exact Hs|]. split; [exact Hf|].
  exact (MergeSort_sorted_input (λ x, x) 0 _ _ _ 6 Ha Hs Hf).
Defined.

Lemma MergeSort_idempotent_witness :
  elements_of MergeSort.store_test6 (mkSlice 1 0 5) = Done [2; 3; 8; 6; 1]
  ∧ (length [2; 3; 8; 6; 1]%Z < 6)%nat
  ∧ ∃ m1 r1 m2 r2 out,
      MergeSort.MergeSort 6 MergeSort.store_test6 (mkSlice 1 0 5) = Done (m1, r1)
      ∧ MergeSort.MergeSort 6 m1 r1 = Done (m2, r2)
      ∧ elements_of m1 r1 = Done out
      ∧ elements_of m2 r2 = Done out.
Proof.
  assert (elements_of MergeSort.store_test6 (mkSlice 1 0 5) = Done [2; 3; 8; 6; 1]) as Ha
    by (vm_compute; reflexivity).
  assert (length [2; 3; 8; 6; 1]%Z < 6)%nat as Hf by (simpl; lia).
  split; [exact Ha|]. split; [exact Hf|].
  exact (MergeSort_idempotent (λ x, x) 0 _ _ _ 6 Ha Hf).
Defined.

Lemma CountInversions_zero_sorted_witness :
  elements_of MergeSort.store_test2 (mkSlice 1 0 5) = Done [1; 2; 3; 4; 5]
  ∧ (length [1; 2; 3; 4; 5]%Z < 6)%nat
  ∧ ∃ m' res n,
      MergeSort.CountInversions Int32 6 MergeSort.store_test2 (mkSlice 1 0 5)
      = Done (m', res, n)
      ∧ (MergeSort.sorted (λ x, x) [1; 2; 3; 4; 5] → n = 0)
      ∧ (Z.of_nat (MergeSort.inversions (λ x, x) [1; 2; 3; 4; 5]) ≤ max_int Int32 →
         n = 0 → MergeSort.sorted (λ x, x) [1; 2; 3; 4; 5])
      ∧ (Z.of_nat (length [1; 2; 3; 4; 5]%Z) ≤ 65536 →
         Z.of_nat (MergeSort.inversions (λ x, x) [1; 2; 3; 4; 5]) ≤ max_int Int32).
Proof.
  assert (elements_of MergeSort.store_test2 (mkSlice 1 0 5) = Done [1; 2; 3; 4; 5]) as Ha
    by (vm_compute; reflexivity).
  assert (length [1; 2; 3; 4; 5]%Z < 6)%nat as Hf by (simpl; lia).
  split; [exact Ha|]. split; [exact Hf|].
  exact (CountInversions_zero_sorted (λ x, x) 0 Int32 _ _ _ 6 Ha Hf).
Defined.

Lemma CountInversions_sorts_like_MergeSort_witness :
  elements_of MergeSort.store_test6 (mkSlice 1 0 5) = Done [2; 3; 8; 6; 1]
  ∧ (length [2; 3; 8; 6; 1]%Z < 6)%nat
  ∧ ∃ m1 r1 m2 r2 n out,
      MergeSort.MergeSort 6 MergeSort.store_test6 (mkSlice 1 0 5) = Done (m1, r1)
      ∧ MergeSort.CountInversions Int32 6 MergeSort.store_test6 (mkSlice 1 0 5)
        = Done (m2, r2, n)
      ∧ elements_of m1 r1 = Done out
      ∧ elements_of m2 r2 = Done out.
Proof.
  assert (elements_of MergeSort.store_test6 (mkSlice 1 0 5) = Done [2; 3; 8; 6; 1]) as Ha
    by (vm_compute; reflexivity).
  assert (length [2; 3; 8; 6; 1]%Z < 6)%nat as Hf by (simpl; lia).
  split; [exact Ha|]. split; [exact Hf|].
  exact (CountInversions_sorts_like_MergeSort (λ x, x) 0 Int32 _ _ _ 6 Ha Hf).
Defined.

(** X18.  The array returned by [MergeSort] passes [isSorted]. *)
Theorem MergeSort_isSorted (m : gmap positive (list Z)) arr a fuel :
  elements_of m arr = Done a → (length a < fuel)%nat →
  ('(m', res) ←! MergeSort.MergeSort fuel m arr;
   out ←! elements_of m' res;
   MergeSort.isSorted out)
  = Done true.
Proof.
  intros Ha Hfuel.
  destruct (MergeSortBy_run (λ x, x) 0 m arr a Ha) as (m' & res & out & Hrun & Hout & Hsort).
  unfold MergeSort.MergeSort. rewrite (Hrun fuel Hfuel). cbn [obind].
  rewrite Hout. cbn [obind].
  destruct Hsort as (Hs & _). unfold MergeSort.isSorted.
  destruct out as [|y rest]; [done|].
  replace (Z.to_nat (Z.of_nat (length (y :: rest)) - 1)) with (length rest)
    by (cbn [length]; lia).
  etrans; [exact (ordered_from_spec [] rest y)|]. f_equal.
  by apply bool_decide_eq_true.
Qed.

Lemma MergeSort_isSorted_witness :
  elements_of MergeSort.store_test6 (mkSlice 1 0 5) = Done [2; 3; 8; 6; 1]
  ∧ (length [2; 3; 8; 6; 1]%Z < 6)%nat
  ∧ ('(m', res) ←! MergeSort.MergeSort 6 MergeSort.store_test6 (mkSlice 1 0 5);
     out ←! elements_of m' res;
     MergeSort.isSorted out)
    = Done true.
Proof.
  assert (elements_of MergeSort.store_test6 (mkSlice 1 0 5) = Done [2; 3; 8; 6; 1]) as Ha
    by (vm_compute; reflexivity).
  assert (length [2; 3; 8; 6; 1]%Z < 6)%nat as Hf by (simpl; lia).
  split; [exact Ha|]. split; [exact Hf|].
  exact (MergeSort_isSorted _ _ _ 6 Ha Hf).
Defined.

(** ** The linked list: what each operation does to the sequence of values *)

Section LinkedListMore.
Import LinkedList.
Implicit Types (h : gmap positive Node) (p q : option positive)
  (cells : list (positive * Z)) (st : state) (vs : list Z).

Lemma holds_lookup st cells i v :
  cells.*2 !! i = Some v → ∃ l, cells !! i = Some (l, v).
Proof.
  intros ([l v'] & -> & Hc)%list_lookup_fmap_Some_1. by exists l.
Qed.

Lemma foldl_Append n vs st0 cells0 :
  is_list st0 cells0 → (length cells0 + length vs ≤ n)%nat →
  ∃ st cells,
    foldl (λ acc v, st ←! acc; Append v n st) (Done st0) vs = Done st
    ∧ is_list st cells ∧ cells.*2 = cells0.*2 ++ vs.
Proof.
  revert st0 cells0. induction vs as [|v vs IH]; intros st0 cells0 Hst Hn.
  - exists st0, cells0. by rewrite app_nil_r.
  - cbn [foldl obind]. cbn [length] in Hn.
    destruct (Append_spec v st0 cells0 Hst) as (l & st' & Hr & Hst').
    rewrite (returns_at _ _ _ n Hr) by lia.
    destruct (IH st' (cells0 ++ [(l, v)]) Hst') as (st & cells & Hrun & Hfin & Hvs).
    { rewrite length_app. cbn [length]. lia. }
    exists st, cells. split; [done|]. split; [done|].
    by rewrite Hvs, fmap_app, <- app_assoc.
Qed.

Lemma unseen_only_NoDup earlier cells :
  NoDup cells.*2 → (∀ v, v ∈ cells.*2 → v ∉ earlier) →
  unseen_only earlier cells = cells.
Proof.
  revert earlier. induction cells as [|[l v] cells IH]; intros earlier Hnd Hfresh; [done|].
  rewrite fmap_cons in Hnd, Hfresh. cbn [snd] in Hnd, Hfresh.
  apply NoDup_cons in Hnd as [Hv Hnd]. cbn [unseen_only].
  rewrite decide_False by (apply Hfresh; left).
  f_equal. apply IH; [done|].
  intros w Hw [->|Hin]%elem_of_cons; [done|].
  apply (Hfresh w); [by right | done].
Qed.

(** X19.  On a list holding the values [vs], [ToSlice] returns [vs] and
    leaves the list as it is, [Length] is the number of values and [IsEmpty]
    tells whether there is none. *)
Theorem observers_values st vs fuel :
  holds st vs → (length vs < fuel)%nat →
  ToSlice fuel st = Done (st, vs)
  ∧ Length st = Z.of_nat (length vs)
  ∧ (IsEmpty st = true ↔ vs = []).
Proof.
  intros (cells & Hst & <-) Hfuel. rewrite length_fmap in Hfuel |- *.
  split; [|split].
  - exact (returns_at _ _ _ fuel (ToSlice_spec _ _ Hst) ltac:(lia)).
  - unfold Length. by destruct Hst as [_ ->].
  - destruct cells as [|c cells].
    + by rewrite (IsEmpty_nil _ Hst).
    + by rewrite (IsEmpty_cons _ _ _ Hst).
Qed.

(** X20.  Appending the values [vs] one after the other to a new list gives
    a list holding exactly [vs]; [Clear] then gives a list holding nothing. *)
Theorem of_values_holds vs :
  ∃ st, of_values vs = Done st ∧ holds st vs
        ∧ ∃ st', Clear st = Done st' ∧ holds st' [].
Proof.
  destruct (foldl_Append (length vs) vs NewLinkedList []) as (st & cells & Hrun & Hst & Hvs);
    [by split | simpl; lia |].
  exists st. split; [exact Hrun|]. split; [by exists cells|].
  destruct (Clear_spec st) as (st' & Hc & Hst').
  exists st'. split; [done|]. by exists [].
Qed.

(** X21.  [InsertAt] at a position from 0 to the length puts the value at
    that position and shifts the later values by one; [Get] at the
    position then returns the value, and [DeleteAt] at the position returns
    it and gives back the values there were. *)
Theorem InsertAt_values data position st vs :
  holds st vs → 0 ≤ position ≤ Z.of_nat (length vs) →
  ∃ st',
    InsertAt data position st = Done (st', None)
    ∧ holds st' (take (Z.to_nat position) vs ++ data :: drop (Z.to_nat position) vs)
    ∧ Get position st' = Done (st', (data, None))
    ∧ ∃ st'', DeleteAt position st' = Done (st'', (data, None)) ∧ holds st'' vs.
Proof.
  intros (cells & Hst & <-) Hpos. rewrite length_fmap in Hpos.
  destruct (InsertAt_spec data position st cells Hst Hpos) as (l & st' & Hrun & Hst').
  assert ((take (Z.to_nat position) cells ++ (l, data) :: drop (Z.to_nat position) cells)
            !! Z.to_nat position = Some (l, data)) as Hat.
  { apply list_lookup_middle. rewrite length_take. lia. }
  exists st'. split; [done|]. split; [|split].
  - eexists. split; [done|]. by rewrite fmap_app, fmap_cons, fmap_take, fmap_drop.
  - apply (Get_spec position st' _ l data Hst'); [lia | done].
  - destruct (DeleteAt_spec position st' _ l data Hst' ltac:(lia) Hat) as (st'' & Hd & Hst'').
    exists st''. split; [done|]. exists cells. split; [|done].
    replace (Z.to_nat position) with (length (take (Z.to_nat position) cells)) in Hst'' at 1
      by (rewrite length_take; lia).
    by rewrite delete_middle, take_drop in Hst''.
Qed.

(** X22.  [Prepend] puts the value in front and [Append] puts it behind;
    [DeleteFirst] after [Prepend], and [DeleteLast] after [Append], return
    the value and give back the values there were. *)
Theorem Prepend_Append_values data st vs fuel :
  holds st vs → (length vs ≤ fuel)%nat →
  (∃ st1 st1',
     Prepend data st = Done st1 ∧ holds st1 (data :: vs)
     ∧ DeleteFirst st1 = Done (st1', (data, None)) ∧ holds st1' vs)
  ∧ (∃ st2 st2',
       Append data fuel st = Done st2 ∧ holds st2 (vs ++ [data])
       ∧ DeleteLast fuel st2 = Done (st2', (data, None)) ∧ holds st2' vs).
Proof.
  intros (cells & Hst & <-) Hfuel. rewrite length_fmap in Hfuel. split.
  - destruct (Prepend_spec data st cells Hst) as (l & st1 & Hrun & Hst1).
    destruct (DeleteFirst_spec st1 l data cells Hst1) as (st1' & Hd & Hst1').
    exists st1, st1'. split; [done|]. split; [by eexists|]. split; [done|]. by exists cells.
  - destruct (Append_spec data st cells Hst) as (l & st2 & Hrun & Hst2).
    destruct (DeleteLast_spec st2 cells l data Hst2) as (st2' & Hd & Hst2').
    exists st2, st2'. split; [exact (returns_at _ _ _ fuel Hrun Hfuel)|].
    split; [eexists; split; [done | by rewrite fmap_app]|].
    split; [exact (returns_at _ _ _ fuel Hd Hfuel)|]. by exists cells.
Qed.

(** X23.  [DeleteAt] at an index of the list returns the value there and
    removes it from the sequence; [DeleteFirst] does so for the first value
    and [DeleteLast] for the last one; on a list holding nothing the latter
    two return the error for an empty list. *)
Theorem deletions_values st vs :
  holds st vs →
  (∀ position v, 0 ≤ position → vs !! Z.to_nat position = Some v →
     ∃ st', DeleteAt position st = Done (st', (v, None))
            ∧ holds st' (delete (Z.to_nat position) vs))
  ∧ (∀ v vs', vs = v :: vs' →
       ∃ st', DeleteFirst st = Done (st', (v, None)) ∧ holds st' vs')
  ∧ (∀ v vs' fuel, vs = vs' ++ [v] → (length vs' ≤ fuel)%nat →
       ∃ st', DeleteLast fuel st = Done (st', (v, None)) ∧ holds st' vs')
  ∧ (vs = [] →
       DeleteFirst st = Done (st, (0, Some ErrDeleteEmpty))
       ∧ ∀ fuel, DeleteLast fuel st = Done (st, (0, Some ErrDeleteEmpty))).
Proof.
  intros (cells & Hst & <-). split; [|split; [|split]].
  - intros position v Hpos Hv. destruct (holds_lookup st cells _ v Hv) as [l Hc].
    destruct (DeleteAt_spec position st cells l v Hst Hpos Hc) as (st' & Hd & Hst').
    exists st'. split; [done|]. eexists. split; [done|]. by rewrite list_fmap_delete.
  - intros v vs' Hvs. destruct cells as [|[l w] cells]; [done|].
    rewrite fmap_cons in Hvs. injection Hvs as -> <-.
    destruct (DeleteFirst_spec st l v cells Hst) as (st' & Hd & Hst').
    exists st'. split; [done|]. by exists cells.
  - intros v vs' fuel Hvs Hfuel.
    apply fmap_app_inv in Hvs as (c1 & c2 & -> & Hc2 & ->).
    symmetry in Hc2. apply fmap_cons_inv in Hc2 as ([l w] & c3 & -> & Hc3 & ->).
    symmetry in Hc3. apply fmap_nil_inv in Hc3 as ->.
    rewrite length_fmap in Hfuel.
    destruct (DeleteLast_spec st c1 l w Hst) as (st' & Hd & Hst').
    exists st'. split; [exact (returns_at _ _ _ fuel Hd Hfuel)|]. by exists c1.
  - intros Hvs. apply fmap_nil_inv in Hvs as ->.
    pose proof (IsEmpty_nil _ Hst) as He.
    split; [by apply DeleteFirst_empty|]. intros fuel. by apply DeleteLast_empty.
Qed.

(** X24.  [Get] returns the value at an index of the list, and the error
    for an invalid position at any other position; it leaves the list as
    it is. *)
Theorem Get_values position st vs :
  holds st vs →
  Get position st
  = Done (st, match (if decide (0 ≤ position) then vs !! Z.to_nat position else None) with
              | Some v => (v, None)
              | None => (0, Some (ErrInvalidPosition position))
              end).
Proof.
  intros (cells & Hst & <-). case_decide as Hpos.
  - destruct (cells.*2 !! Z.to_nat position) as [v|] eqn:Hv.
    + destruct (holds_lookup st cells _ v Hv) as [l Hc].
      by apply (Get_spec position st cells l v).
    + apply Get_invalid. right. destruct Hst as [_ ->].
      apply lookup_ge_None_1 in Hv. rewrite length_fmap in Hv. lia.
  - apply Get_invalid. left. lia.
Qed.

(** X25.  [Search] returns -1 when the value is not in the list, and
    otherwise the least index holding it, at which [Get] returns the value;
    it leaves the list as it is. *)
Theorem Search_values value st vs :
  holds st vs →
  ∃ need r,
    returns (λ fuel, Search value fuel st) need (st, r)
    ∧ (r = -1 ∧ value ∉ vs
       ∨ 0 ≤ r ∧ vs !! Z.to_nat r = Some value
         ∧ (∀ i, (i < Z.to_nat r)%nat → vs !! i ≠ Some value)
         ∧ Get r st = Done (st, (value, None))).
Proof.
  intros (cells & Hst & <-).
  destruct (Search_spec value st cells Hst) as (need & Hrun).
  exists need, (first_index value cells.*2). split; [done|].
  unfold first_index. destruct (list_find _ _) as [[i x]|] eqn:E.
  - apply list_find_Some in E as (Hx & -> & Hmin). right.
    rewrite Nat2Z.id. split; [lia|]. split; [done|]. split.
    + intros j Hj Hv. by apply (Hmin j value Hv Hj).
    + destruct (holds_lookup st cells _ value Hx) as [l Hc].
      apply (Get_spec _ st cells l value Hst); [lia | by rewrite Nat2Z.id].
  - apply list_find_None in E. left. split; [done|].
    intros Hin. rewrite Forall_forall in E. by apply (E value).
Qed.

(** X26.  Removing duplicates twice is removing them once: after
    [RemoveDuplicates] a second call leaves the same values and the same
    count, and these values are pairwise different. *)
Theorem RemoveDuplicates_idempotent st vs fuel :
  holds st vs → (length vs ≤ fuel)%nat →
  ∃ st1 st2 vs',
    RemoveDuplicates fuel st = Done st1
    ∧ RemoveDuplicates fuel st1 = Done st2
    ∧ holds st1 vs' ∧ holds st2 vs' ∧ NoDup vs' ∧ Size st2 = Size st1.
Proof.
  intros (cells & Hst & <-) Hfuel. rewrite length_fmap in Hfuel.
  destruct (RemoveDuplicates_spec st cells Hst) as (st1 & Hr1 & Hst1).
  destruct (RemoveDuplicates_spec st1 _ Hst1) as (st2 & Hr2 & Hst2).
  pose proof (NoDup_unseen_only [] cells) as Hnd.
  assert (first_occurrences (first_occurrences cells) = first_occurrences cells) as Hfix.
  { apply unseen_only_NoDup; [done|]. intros v _. apply not_elem_of_nil. }
  rewrite Hfix in Hst2.
  pose proof (sublist_length _ _ (sublist_unseen_only [] cells)) as Hlen.
  exists st1, st2, (first_occurrences cells).*2.
  split; [exact (returns_at _ _ _ fuel Hr1 Hfuel)|].
  split; [apply (returns_at _ _ _ fuel Hr2); unfold first_occurrences; lia|].
  split; [by eexists|]. split; [by eexists|]. split; [done|].
  destruct Hst1 as [_ ->]. by destruct Hst2 as [_ ->].
Qed.

Lemma remove_first_values value cells a b :
  cells.*2 = a ++ value :: b → value ∉ a →
  (remove_first value cells).*2 = a ++ b.
Proof.
  revert a. induction cells as [|[l v] cells IH]; intros a Hvs Ha.
  { by destruct a. }
  rewrite fmap_cons in Hvs. cbn [snd remove_first] in Hvs |- *.
  destruct a as [|x a]; cbn [app] in Hvs; injection Hvs as -> Hvs.
  - by rewrite decide_True.
  - apply not_elem_of_cons in Ha as [Hne Ha].
    rewrite decide_False by done. rewrite fmap_cons. cbn [snd app].
    f_equal. by apply IH.
Qed.

Lemma remove_first_absent value cells :
  value ∉ cells.*2 → remove_first value cells = cells.
Proof.
  induction cells as [|[l v] cells IH]; [done|]. rewrite fmap_cons. cbn [snd].
  intros [Hne Hin]%not_elem_of_cons. cbn [remove_first].
  rewrite decide_False by done. f_equal. by apply IH.
Qed.

(** The loop of [DeleteByValue]: it unlinks the first node after [current]
    that holds the value, and changes nothing when there is none. *)
Lemma delete_scan_values value st a lc vc rest :
  lseg (nodes st) (Head st) (a ++ (lc, vc) :: rest) None →
  ∃ need st',
    returns (λ fuel, delete_scan fuel value st (Some lc)) need
            (st', bool_decide (value ∈ rest.*2))
    ∧ (need ≤ S (length rest))%nat
    ∧ lseg (nodes st') (Head st') (a ++ (lc, vc) :: remove_first value rest) None
    ∧ Size st' = Size st - (if decide (value ∈ rest.*2) then 1 else 0)
    ∧ (value ∉ rest.*2 → st' = st).
Proof.
  revert a lc vc. induction rest as [|[l1 v1] rest IH]; intros a lc vc H.
  - pose proof H as H0.
    apply lseg_app in H as (m & Ha & (-> & nx & Hl & ->)).
    exists 1%nat, st. rewrite bool_decide_eq_false_2 by apply not_elem_of_nil.
    rewrite decide_False by apply not_elem_of_nil.
    split; [|split; [done|split; [done|split; [lia|done]]]].
    apply returns_1; [done|]. intros fuel. simpl. by rewrite Hl.
  - pose proof H as H0. pose proof (lseg_NoDup _ _ _ H) as Hnd.
    apply lseg_app in H as (m & Ha & (-> & nx & Hl & -> & nx1 & Hl1 & Hrest)).
    rewrite fmap_cons. cbn [snd remove_first length].
    destruct (decide (v1 = value)) as [->|Hne].
    + rewrite bool_decide_eq_true_2 by left. rewrite decide_True by left.
      eexists 1%nat, _. split; [|split; [lia|split; [|split]]].
      * apply returns_1; [done|]. intros fuel. simpl. rewrite Hl. simpl. rewrite Hl1. simpl.
        rewrite Z.eqb_refl. reflexivity.
      * simpl. destruct (NoDup_app_cells _ _ _ Hnd) as (Ha0 & Hb0 & _ & _).
        simpl in Ha0, Hb0. apply not_elem_of_cons in Hb0 as [_ Hb0].
        apply lseg_app. exists (Some lc). split; [by apply lseg_insert|].
        simpl. split; [done|]. exists nx1. split; [by rewrite lookup_insert_eq|].
        by apply lseg_insert.
      * done.
      * intros Hin. exfalso. apply Hin. left.
    + specialize (IH (a ++ [(lc, vc)]) l1 v1).
      rewrite <- app_assoc in IH. simpl in IH.
      destruct (IH H0) as (need & st' & Hr & Hneed & Hseg & Hsz & Hsame).
      assert (value ∈ v1 :: rest.*2 ↔ value ∈ rest.*2) as Hiff.
      { rewrite elem_of_cons. naive_solver. }
      rewrite (bool_decide_ext _ _ Hiff).
      exists (S need), st'. split; [|split; [lia|split; [|split]]].
      * eapply returns_S; [done | | exact Hr]. intros fuel. simpl.
        rewrite Hl. simpl. rewrite Hl1. simpl.
        destruct (Z.eqb_spec v1 value); [exfalso; done | reflexivity].
      * by rewrite <- app_assoc in Hseg.
      * rewrite Hsz. by repeat case_decide; try tauto.
      * intros Hin. apply Hsame. tauto.
Qed.

(** X27.  [DeleteByValue] returns whether the value is in the list.  When
    it is not, the list is left as it is; when it is, exactly its first
    occurrence is removed. *)
Theorem DeleteByValue_values value st vs :
  holds st vs →
  ∃ need st',
    returns (λ fuel, DeleteByValue value fuel st) need (st', bool_decide (value ∈ vs))
    ∧ (need ≤ length vs)%nat
    ∧ (value ∉ vs → st' = st)
    ∧ (∀ a b, vs = a ++ value :: b → value ∉ a → holds st' (a ++ b)).
Proof.
  intros (cells & Hst & <-). pose proof Hst as [H Hs]. unfold DeleteByValue.
  destruct cells as [|[l v] cells].
  - rewrite (IsEmpty_nil _ Hst). exists 0%nat, st.
    rewrite bool_decide_eq_false_2 by apply not_elem_of_nil.
    split; [apply returns_const|]. split; [done|]. split; [done|].
    intros a b Hvs. by destruct a.
  - rewrite (IsEmpty_cons _ _ _ Hst).
    pose proof H as (E & nx & Hl & Hrest). rewrite E. simpl. rewrite Hl. simpl.
    destruct (Z.eqb_spec v value) as [->|Hne].
    + destruct (DeleteFirst_spec _ _ _ _ Hst) as (st' & Hd & Hst').
      rewrite Hd. simpl. exists 0%nat, st'.
      rewrite bool_decide_eq_true_2 by left.
      split; [apply returns_const|]. split; [lia|]. split.
      { intros Hin. exfalso. apply Hin. left. }
      intros a b Hvs Ha. exists cells. split; [done|].
      destruct a as [|x a]; cbn [app] in Hvs.
      * injection Hvs as Hvs. exact Hvs.
      * injection Hvs as Hx Hvs. exfalso. apply Ha. rewrite Hx. left.
    + destruct (delete_scan_values value st [] l v cells H)
        as (need & st' & Hr & Hneed & Hseg & Hsz & Hsame).
      assert (value ∈ v :: cells.*2 ↔ value ∈ cells.*2) as Hiff.
      { rewrite elem_of_cons. naive_solver. }
      rewrite (bool_decide_ext _ _ Hiff).
      exists need, st'. split; [done|].
      split; [cbn [length]; rewrite length_fmap; lia|]. split.
      { intros Hin. apply Hsame. tauto. }
      intros a b Hvs Ha. change (v :: cells.*2 = a ++ value :: b) in Hvs.
      destruct a as [|x a]; cbn [app] in Hvs; injection Hvs as Hx Hvs; [done|].
      apply not_elem_of_cons in Ha as [_ Ha].
      assert (value ∈ cells.*2) as Hin.
      { rewrite Hvs. apply elem_of_app. right. left. }
      exists ((l, v) :: remove_first value cells). split.
      * split; [done|]. rewrite Hsz, Hs. rewrite decide_True by done.
        cbn [length].
        assert (length (remove_first value cells).*2 = length (a ++ b)) as Hlen
          by (by rewrite (remove_first_values value cells a b)).
        assert (length cells.*2 = length (a ++ value :: b)) as Hlen' by (by rewrite Hvs).
        rewrite !length_fmap in *. rewrite !length_app in *. cbn [length] in *. lia.
      * rewrite fmap_cons. cbn [snd app]. rewrite Hx. f_equal.
        by apply remove_first_values.
Qed.

(** The node a chain holds at index [k], with the pointer it stores. *)
Lemma lseg_node h p cells q k l v :
  lseg h p cells q → cells !! k = Some (l, v) →
  h !! l = Some (mkNode v (from_option (λ x, Some x.1) q (cells !! S k))).
Proof.
  revert p k. induction cells as [|[l0 v0] cells IH]; intros p k H Hk; [done|].
  destruct H as (-> & nx & Hl & Hrest). destruct k as [|k].
  - injection Hk as -> ->. rewrite Hl. do 2 f_equal. cbn [lookup list_lookup].
    destruct cells as [|c cells]; [done|]. by apply lseg_nonempty in Hrest.
  - by apply (IH nx k).
Qed.

Lemma mod_succ (k d : nat) :
  (0 < d)%nat →
  (S k mod d = if decide (S (k mod d) < d) then S (k mod d) else 0)%nat.
Proof.
  intros Hd. pose proof (Nat.mod_upper_bound k d ltac:(lia)) as Hr.
  pose proof (Nat.div_mod_eq k d) as Hk. case_decide as Hlt.
  - symmetry. apply (Nat.mod_unique _ _ (k / d)); [done | lia].
  - symmetry. apply (Nat.mod_unique _ _ (S (k / d))); [lia | nia].
Qed.

Section Lasso.
  Variables (h : gmap positive Node) (p : option positive)
    (pre : list (positive * Z)) (c : positive * Z) (cyc : list (positive * Z)).
  Hypothesis tail : lseg h p pre (Some c.1).
  Hypothesis loop : lseg h (Some c.1) (c :: cyc) (Some c.1).

Lemma lasso_node n :
  h !! (lasso_at pre c cyc n).1
  = Some (mkNode (lasso_at pre c cyc n).2 (Some (lasso_at pre c cyc (S n)).1)).
Proof.
  unfold lasso_at. destruct (decide (n < length pre)%nat) as [Hn|Hn].
  - destruct (lookup_lt_is_Some_2 pre n Hn) as [[l v] Hc]. rewrite Hc. cbn [default from_option id fst snd].
    rewrite (lseg_node _ _ _ _ _ _ _ tail Hc). do 2 f_equal.
    destruct (decide (S n < length pre)%nat) as [Hn'|Hn'].
    + destruct (lookup_lt_is_Some_2 pre (S n) Hn') as [x Hx]. by rewrite Hx.
    + rewrite (lookup_ge_None_2 pre (S n)) by lia. cbn [from_option].
      replace (S n - length pre)%nat with 0%nat by lia.
      by rewrite Nat.Div0.mod_0_l.
  - rewrite decide_False by lia.
    replace (S n - length pre)%nat with (S (n - length pre)) by lia.
    rewrite (mod_succ (n - length pre) (S (length cyc))) by lia.
    set (m := ((n - length pre) mod S (length cyc))%nat).
    assert (m < S (length cyc))%nat as Hm by (apply Nat.mod_upper_bound; lia).
    destruct (lookup_lt_is_Some_2 (c :: cyc) m Hm) as [[l v] Hc]. rewrite Hc.
    cbn [default from_option id fst snd].
    rewrite (lseg_node _ _ _ _ _ _ _ loop Hc). do 2 f_equal.
    case_decide as Hlt.
    + destruct (lookup_lt_is_Some_2 (c :: cyc) (S m)) as [x Hx]; [cbn [length]; lia|].
      by rewrite Hx.
    + by rewrite (lookup_ge_None_2 (c :: cyc) (S m)) by (cbn [length]; lia).
Qed.

Lemma lasso_head : p = Some (lasso_at pre c cyc 0).1.
Proof.
  unfold lasso_at. destruct pre as [|x pre'].
  - cbn [length]. rewrite decide_False by lia. by rewrite Nat.Div0.mod_0_l.
  - cbn [length]. rewrite decide_True by lia. by apply lseg_nonempty in tail.
Qed.

Lemma lasso_meeting :
  let t := (S (length cyc) * S (length pre))%nat in
  lasso_at pre c cyc t = lasso_at pre c cyc (t + t).
Proof.
  intros t. unfold lasso_at.
  assert (length pre < t)%nat as Ht by (unfold t; nia).
  rewrite !decide_False by lia.
  replace (t + t - length pre)%nat with ((t - length pre) + S (length pre) * S (length cyc))%nat
    by (unfold t; nia).
  by rewrite Nat.Div0.mod_add.
Qed.

(** Once the two pointers are [k] rounds away from meeting, the loop of
    [HasCycle] answers [true] within [k] rounds. *)
Lemma cycle_loop_meets k i fuel :
  (1 ≤ k)%nat →
  (lasso_at pre c cyc (i + k)).1 = (lasso_at pre c cyc ((i + k) + (i + k))).1 →
  (k ≤ fuel)%nat →
  cycle_loop fuel h (Some (lasso_at pre c cyc i).1) (Some (lasso_at pre c cyc (i + i)).1)
  = Done true.
Proof.
  revert i fuel. induction k as [|k IH]; intros i fuel Hk Hmeet Hfuel; [lia|].
  destruct fuel as [|fuel]; [lia|]. cbn [cycle_loop load].
  rewrite (lasso_node (i + i)). cbn [obind Next].
  rewrite (lasso_node i). cbn [obind Next load].
  rewrite (lasso_node (S (i + i))). cbn [obind Next].
  case_bool_decide as Heq; [done|].
  replace (S (S (i + i))) with (S i + S i)%nat in Heq |- * by lia.
  destruct (decide (k = 0%nat)) as [->|Hk0].
  - exfalso. apply Heq. f_equal.
    by replace (i + 1)%nat with (S i) in Hmeet by lia.
  - apply (IH (S i)); [lia | | lia].
    by replace (i + S k)%nat with (S i + k)%nat in Hmeet by lia.
Qed.

End Lasso.

(** X28.  When the chain from [Head] runs into a loop (after the nodes
    [pre] it reaches a node from which following [Next] leads back to that
    node), [HasCycle] returns [true] and leaves the list as it is. *)
Theorem HasCycle_looping st pre c cyc fuel :
  lseg (nodes st) (Head st) pre (Some c.1) →
  lseg (nodes st) (Some c.1) (c :: cyc) (Some c.1) →
  (S (length cyc) * S (length pre) ≤ fuel)%nat →
  HasCycle fuel st = Done (st, true).
Proof.
  intros Htail Hloop Hfuel. unfold HasCycle, IsEmpty.
  pose proof (lasso_head (nodes st) (Head st) pre c cyc Htail) as Hhead.
  rewrite bool_decide_eq_false_2 by (by rewrite Hhead).
  rewrite Hhead.
  pose proof (cycle_loop_meets (nodes st) (Head st) pre c cyc Htail Hloop
                (S (length cyc) * S (length pre)) 0 fuel) as Hrun.
  change (0 + ?n)%nat with n in Hrun.
  rewrite Hrun; [done | lia | | done].
  by rewrite <- (lasso_meeting pre c cyc).
Qed.

End LinkedListMore.

(** Checking that a sample list holds the given nodes. *)
Ltac check_holds cells :=
  exists cells;
  split; [split; [vm_compute; repeat (split; [reflexivity | eexists; split; [reflexivity|]]);
                  reflexivity
                 | reflexivity]
         | reflexivity].

Lemma observers_values_witness :
  LinkedList.holds LinkedList.list_1234 [1; 2; 3; 4]
  ∧ (length [1; 2; 3; 4]%Z < 5)%nat
  ∧ LinkedList.ToSlice 5 LinkedList.list_1234 = Done (LinkedList.list_1234, [1; 2; 3; 4])
  ∧ LinkedList.Length LinkedList.list_1234 = Z.of_nat (length [1; 2; 3; 4]%Z)
  ∧ (LinkedList.IsEmpty LinkedList.list_1234 = true ↔ [1; 2; 3; 4] = []).
Proof.
  assert (LinkedList.holds LinkedList.list_1234 [1; 2; 3; 4]) as H
    by check_holds [(1%positive, 1); (2%positive, 2); (3%positive, 3); (4%positive, 4)].
  assert (length [1; 2; 3; 4]%Z < 5)%nat as Hf by (simpl; lia).
  split; [exact H|]. split; [exact Hf|].
  exact (observers_values _ _ 5 H Hf).
Defined.

Lemma InsertAt_values_witness :
  LinkedList.holds LinkedList.list_1234 [1; 2; 3; 4]
  ∧ 0 ≤ 2 ≤ Z.of_nat (length [1; 2; 3; 4]%Z)
  ∧ ∃ st',
      LinkedList.InsertAt 9 2 LinkedList.list_1234 = Done (st', None)
      ∧ LinkedList.holds st' [1; 2; 9; 3; 4]
      ∧ LinkedList.Get 2 st' = Done (st', (9, None))
      ∧ ∃ st'', LinkedList.DeleteAt 2 st' = Done (st'', (9, None))
                ∧ LinkedList.holds st'' [1; 2; 3; 4].
Proof.
  assert (LinkedList.holds LinkedList.list_1234 [1; 2; 3; 4]) as H
    by check_holds [(1%positive, 1); (2%positive, 2); (3%positive, 3); (4%positive, 4)].
  assert (0 ≤ 2 ≤ Z.of_nat (length [1; 2; 3; 4]%Z)) as Hp by (simpl; lia).
  split; [exact H|]. split; [exact Hp|].
  exact (InsertAt_values 9 2 _ _ H Hp).
Defined.

Lemma Prepend_Append_values_witness :
  LinkedList.holds LinkedList.list_1234 [1; 2; 3; 4]
  ∧ (length [1; 2; 3; 4]%Z ≤ 4)%nat
  ∧ (∃ st1 st1',
       LinkedList.Prepend 9 LinkedList.list_1234 = Done st1
       ∧ LinkedList.holds st1 [9; 1; 2; 3; 4]
       ∧ LinkedList.DeleteFirst st1 = Done (st1', (9, None))
       ∧ LinkedList.holds st1' [1; 2; 3; 4])
  ∧ (∃ st2 st2',
       LinkedList.Append 9 4 LinkedList.list_1234 = Done st2
       ∧ LinkedList.holds st2 [1; 2; 3; 4; 9]
       ∧ LinkedList.DeleteLast 4 st2 = Done (st2', (9, None))
       ∧ LinkedList.holds st2' [1; 2; 3; 4]).
Proof.
  assert (LinkedList.holds LinkedList.list_1234 [1; 2; 3; 4]) as H
    by check_holds [(1%positive, 1); (2%positive, 2); (3%positive, 3); (4%positive, 4)].
  assert (length [1; 2; 3; 4]%Z ≤ 4)%nat as Hf by (simpl; lia).
  split; [exact H|]. split; [exact Hf|].
  exact (Prepend_Append_values 9 _ _ 4 H Hf).
Defined.

Lemma deletions_values_witness :
  LinkedList.holds LinkedList.list_1234 [1; 2; 3; 4]
  ∧ ∃ st1 st2 st3,
      LinkedList.DeleteAt 2 LinkedList.list_1234 = Done (st1, (3, None))
      ∧ LinkedList.holds st1 [1; 2; 4]
      ∧ LinkedList.DeleteFirst LinkedList.list_1234 = Done (st2, (1, None))
      ∧ LinkedList.holds st2 [2; 3; 4]
      ∧ LinkedList.DeleteLast 3 LinkedList.list_1234 = Done (st3, (4, None))
      ∧ LinkedList.holds st3 [1; 2; 3].
Proof.
  assert (LinkedList.holds LinkedList.list_1234 [1; 2; 3; 4]) as H
    by check_holds [(1%positive, 1); (2%positive, 2); (3%positive, 3); (4%positive, 4)].
  split; [exact H|].
  destruct (deletions_values _ _ H) as (Hat & Hfirst & Hlast & _).
  destruct (Hat 2 3 ltac:(lia) eq_refl) as (st1 & H1 & H1').
  destruct (Hfirst 1 [2; 3; 4] eq_refl) as (st2 & H2 & H2').
  destruct (Hlast 4 [1; 2; 3] 3%nat eq_refl ltac:(simpl; lia)) as (st3 & H3 & H3').
  exists st1, st2, st3. repeat split; assumption.
Defined.

Lemma Get_values_witness :
  LinkedList.holds LinkedList.list_1234 [1; 2; 3; 4]
  ∧ LinkedList.Get 2 LinkedList.list_1234 = Done (LinkedList.list_1234, (3, None))
  ∧ LinkedList.Get 4 LinkedList.list_1234
    = Done (LinkedList.list_1234, (0, Some (LinkedList.ErrInvalidPosition 4))).
Proof.
  assert (LinkedList.holds LinkedList.list_1234 [1; 2; 3; 4]) as H
    by check_holds [(1%positive, 1); (2%positive, 2); (3%positive, 3); (4%positive, 4)].
  split; [exact H|]. split.
  - exact (Get_values 2 _ _ H).
  - exact (Get_values 4 _ _ H).
Defined.

Lemma Search_values_witness :
  LinkedList.holds LinkedList.list_1234 [1; 2; 3; 4]
  ∧ ∃ need r,
      returns (λ fuel, LinkedList.Search 3 fuel LinkedList.list_1234) need
              (LinkedList.list_1234, r)
      ∧ (r = -1 ∧ 3 ∉ [1; 2; 3; 4]
         ∨ 0 ≤ r ∧ [1; 2; 3; 4] !! Z.to_nat r = Some 3
           ∧ (∀ i, (i < Z.to_nat r)%nat → [1; 2; 3; 4] !! i ≠ Some 3)
           ∧ LinkedList.Get r LinkedList.list_1234
             = Done (LinkedList.list_1234, (3, None))).
Proof.
  assert (LinkedList.holds LinkedList.list_1234 [1; 2; 3; 4]) as H
    by check_holds [(1%positive, 1); (2%positive, 2); (3%positive, 3); (4%positive, 4)].
  split; [exact H|].
  exact (Search_values 3 _ _ H).
Defined.

Lemma RemoveDuplicates_idempotent_witness :
  LinkedList.holds LinkedList.list_dups [1; 2; 2; 3; 3; 3; 4; 5; 5]
  ∧ (length [1; 2; 2; 3; 3; 3; 4; 5; 5]%Z ≤ 9)%nat
  ∧ ∃ st1 st2 vs',
      LinkedList.RemoveDuplicates 9 LinkedList.list_dups = Done st1
      ∧ LinkedList.RemoveDuplicates 9 st1 = Done st2
      ∧ LinkedList.holds st1 vs' ∧ LinkedList.holds st2 vs' ∧ NoDup vs'
      ∧ LinkedList.Size st2 = LinkedList.Size st1.
Proof.
  assert (LinkedList.holds LinkedList.list_dups [1; 2; 2; 3; 3; 3; 4; 5; 5]) as H
    by check_holds [(1%positive, 1); (2%positive, 2); (3%positive, 2); (4%positive, 3);
                    (5%positive, 3); (6%positive, 3); (7%positive, 4); (8%positive, 5);
                    (9%positive, 5)].
  assert (length [1; 2; 2; 3; 3; 3; 4; 5; 5]%Z ≤ 9)%nat as Hf by (simpl; lia).
  split; [exact H|]. split; [exact Hf|].
  exact (RemoveDuplicates_idempotent _ _ 9 H Hf).
Defined.

Lemma DeleteByValue_values_witness :
  LinkedList.holds LinkedList.list_1234 [1; 2; 3; 4]
  ∧ ∃ need st',
      returns (λ fuel, LinkedList.DeleteByValue 3 fuel LinkedList.list_1234) need
              (st', bool_decide (3 ∈ [1; 2; 3; 4]))
      ∧ LinkedList.holds st' [1; 2; 4].
Proof.
  assert (LinkedList.holds LinkedList.list_1234 [1; 2; 3; 4]) as H
    by check_holds [(1%positive, 1); (2%positive, 2); (3%positive, 3); (4%positive, 4)].
  split; [exact H|].
  destruct (DeleteByValue_values 3 _ _ H) as (need & st' & Hrun & _ & _ & Hrem).
  exists need, st'. split; [exact Hrun|].
  apply (Hrem [1; 2] [4] eq_refl). set_solver.
Defined.

Lemma HasCycle_looping_witness :
  LinkedList.lseg (LinkedList.nodes LinkedList.list_looping)
    (LinkedList.Head LinkedList.list_looping) [(1%positive, 1)] (Some 2%positive)
  ∧ LinkedList.lseg (LinkedList.nodes LinkedList.list_looping) (Some 2%positive)
      [(2%positive, 2); (3%positive, 3)] (Some 2%positive)
  ∧ (S (length [(3%positive, 3)]) * S (length [(1%positive, 1)]) ≤ 4)%nat
  ∧ LinkedList.HasCycle 4 LinkedList.list_looping = Done (LinkedList.list_looping, true).
Proof.
  assert (LinkedList.lseg (LinkedList.nodes LinkedList.list_looping)
            (LinkedList.Head LinkedList.list_looping) [(1%positive, 1)] (Some 2%positive))
    as Htail
    by (vm_compute; repeat (split; [reflexivity | eexists; split; [reflexivity|]]);
        reflexivity).
  assert (LinkedList.lseg (LinkedList.nodes LinkedList.list_looping) (Some 2%positive)
            [(2%positive, 2); (3%positive, 3)] (Some 2%positive)) as Hloop
    by (vm_compute; repeat (split; [reflexivity | eexists; split; [reflexivity|]]);
        reflexivity).
  assert (S (length [(3%positive, 3)]) * S (length [(1%positive, 1)]) ≤ 4)%nat as Hf
    by (simpl; lia).
  split; [exact Htail|]. split; [exact Hloop|]. split; [exact Hf|].
  exact (HasCycle_looping LinkedList.list_looping [(1%positive, 1)] (2%positive, 2)
           [(3%positive, 3)] 4 Htail Hloop Hf).
Defined.

(** ** Merge sort on strings *)

Section StringsSort.
Import MergeSort.
Implicit Types (l pre junk post seg : list string).

#[local] Instance string_le_total : Total string_le.
Proof. intros a b. apply String.leb_total. Qed.

(** The three loops of [mergeStrings] from an intermediate state. *)
Lemma strings_loops_spec f1 f2 ldone l1 rdone l2 pre junk post :
  length junk = (length l1 + length l2)%nat →
  (length l1 + length l2 < f1)%nat → (length l1 + length l2 < f2)%nat →
  ('(arr1, i, j, k) ←!
      strings_loop f1 (ldone ++ l1) (rdone ++ l2) (pre ++ junk ++ post)
        (Z.of_nat (length ldone)) (Z.of_nat (length rdone)) (Z.of_nat (length pre));
   '(arr2, _, k) ←!
      copy_rest f2 (ldone ++ l1) (Z.of_nat (length (ldone ++ l1))) arr1 i k;
   '(arr3, _, _) ←!
      copy_rest f2 (rdone ++ l2) (Z.of_nat (length (rdone ++ l2))) arr2 j k;
   Done arr3)
  = Done (pre ++ list_merge string_le l1 l2 ++ post).
Proof.
  revert ldone l1 rdone l2 pre junk.
  induction f1 as [|f1 IH]; intros ldone l1 rdone l2 pre junk Hjunk Hf1 Hf2; [lia|].
  destruct l1 as [|x1 l1].
  { cbn [strings_loop]. rewrite app_nil_r.
    destruct (Z.of_nat (length ldone) <? Z.of_nat (length ldone)) eqn:E; [lia|].
    cbn [andb obind].
    pose proof (copy_rest_spec (λ _ : string, 0) f2 ldone [] pre [] (junk ++ post) eq_refl ltac:(simpl; lia))
      as H2.
    rewrite app_nil_r in H2. cbn [app length] in H2. rewrite H2. cbn [obind].
    pose proof (copy_rest_spec (λ _ : string, 0) f2 rdone l2 pre junk post Hjunk Hf2) as H3.
    rewrite Nat.add_0_r. rewrite H3. cbn [obind].
    by rewrite list_merge_nil_l. }
  destruct l2 as [|x2 l2].
  { cbn [strings_loop]. rewrite (app_nil_r rdone).
    destruct (Z.of_nat (length rdone) <? Z.of_nat (length rdone)) eqn:E; [lia|].
    rewrite andb_false_r. cbn [obind].
    rewrite Nat.add_0_r in Hjunk, Hf2.
    pose proof (copy_rest_spec (λ _ : string, 0) f2 ldone (x1 :: l1) pre junk post Hjunk Hf2) as H2.
    rewrite H2. cbn [obind].
    pose proof (copy_rest_spec (λ _ : string, 0) f2 rdone [] (pre ++ x1 :: l1) [] post eq_refl
                  ltac:(simpl; lia)) as H3.
    rewrite app_nil_r in H3. cbn [app length] in H3.
    rewrite length_app in H3. rewrite <- app_assoc in H3. rewrite H3. cbn [obind].
    by rewrite list_merge_nil_r. }
  destruct junk as [|y junk]; [done|]. cbn [length] in Hjunk, Hf1, Hf2.
  cbn [strings_loop]. rewrite !length_app. cbn [length].
  destruct (Z.of_nat (length ldone) <? Z.of_nat (length ldone + S (length l1))) eqn:E1; [|lia].
  destruct (Z.of_nat (length rdone) <? Z.of_nat (length rdone + S (length l2))) eqn:E2; [|lia].
  cbn [andb]. rewrite !index_middle. cbn [obind].
  change (pre ++ (y :: junk) ++ post) with (pre ++ y :: (junk ++ post)).
  rewrite !assign_middle. cbn [obind].
  rewrite list_merge_cons.
  destruct (decide (string_le x1 x2)) as [Hle|Hgt].
  - unfold string_le in Hle. rewrite Hle.
    specialize (IH (ldone ++ [x1]) l1 rdone (x2 :: l2) (pre ++ [x1]) junk
                  ltac:(simpl; lia) ltac:(simpl; lia) ltac:(simpl; lia)).
    rewrite <- !app_assoc in IH. cbn [app] in IH.
    rewrite !length_app in IH. cbn [length] in IH.
    replace (Z.of_nat (length ldone) + 1) with (Z.of_nat (length ldone + 1)) by lia.
    replace (Z.of_nat (length pre) + 1) with (Z.of_nat (length pre + 1)) by lia.
    exact IH.
  - unfold string_le in Hgt. destruct (String.leb x1 x2); [done|].
    specialize (IH ldone (x1 :: l1) (rdone ++ [x2]) l2 (pre ++ [x2]) junk
                  ltac:(simpl; lia) ltac:(simpl; lia) ltac:(simpl; lia)).
    rewrite <- !app_assoc in IH. cbn [app] in IH.
    rewrite !length_app in IH. cbn [length] in IH.
    replace (Z.of_nat (length rdone) + 1) with (Z.of_nat (length rdone + 1)) by lia.
    replace (Z.of_nat (length pre) + 1) with (Z.of_nat (length pre + 1)) by lia.
    exact IH.
Qed.

Lemma mergeStrings_spec fuel pre s1 s2 post :
  (length s1 + length s2 < fuel)%nat →
  mergeStrings fuel (pre ++ s1 ++ s2 ++ post)
    (Z.of_nat (length pre)) (Z.of_nat (length pre) + Z.of_nat (length s1) - 1)
    (Z.of_nat (length pre) + Z.of_nat (length s1) + Z.of_nat (length s2) - 1)
  = Done (pre ++ list_merge string_le s1 s2 ++ post).
Proof.
  intros Hfuel. unfold mergeStrings.
  replace (Z.of_nat (length pre) + Z.of_nat (length s1) - 1 - Z.of_nat (length pre) + 1)
    with (Z.of_nat (length s1)) by lia.
  replace (Z.of_nat (length pre) + Z.of_nat (length s1) + Z.of_nat (length s2) - 1
           - (Z.of_nat (length pre) + Z.of_nat (length s1) - 1))
    with (Z.of_nat (length s2)) by lia.
  rewrite !make_spec. cbn [obind].
  replace (Z.of_nat (length pre) + Z.of_nat (length s1) - 1 + 1)
    with (Z.of_nat (length pre + length s1)) by lia.
  rewrite (subslice_middle pre s1 (s2 ++ post)). cbn [obind].
  replace (Z.of_nat (length pre) + Z.of_nat (length s1) + Z.of_nat (length s2) - 1 + 1)
    with (Z.of_nat (length (pre ++ s1) + length s2)) by (rewrite length_app; lia).
  replace (Z.of_nat (length pre + length s1)) with (Z.of_nat (length (pre ++ s1)))
    by (by rewrite length_app).
  replace (pre ++ s1 ++ s2 ++ post) with ((pre ++ s1) ++ s2 ++ post)
    by (by rewrite <- app_assoc).
  rewrite (subslice_middle (pre ++ s1) s2 post). cbn [obind].
  rewrite !copy_full.
  pose proof (strings_loops_spec fuel fuel [] s1 [] s2 pre (s1 ++ s2) post
                ltac:(by rewrite length_app) Hfuel Hfuel) as H.
  cbn [app length] in H. rewrite <- !app_assoc in H |- *.
  exact H.
Qed.

Lemma mergeSortStringsHelper_spec seg :
  ∃ seg',
    Sorted string_le seg' ∧ seg' ≡ₚ seg
    ∧ ∀ fuel pre post,
        (length seg < fuel)%nat →
        mergeSortStringsHelper fuel (pre ++ seg ++ post)
          (Z.of_nat (length pre)) (Z.of_nat (length pre) + Z.of_nat (length seg) - 1)
        = Done (pre ++ seg' ++ post).
Proof.
  remember (length seg) as n eqn:En. revert seg En.
  induction n as [n IH] using lt_wf_ind. intros seg ->.
  destruct (decide (length seg ≤ 1)%nat) as [Hshort|Hlong].
  - exists seg. split; [|split; [done|]].
    + destruct seg as [|x [|y seg]]; [constructor | | simpl in Hshort; lia].
      by repeat constructor.
    + intros [|fuel] pre post Hfuel; [lia|]. cbn [mergeSortStringsHelper].
      destruct (Z.of_nat (length pre) <? Z.of_nat (length pre) + Z.of_nat (length seg) - 1)
        eqn:E; [lia | done].
  - remember (S ((length seg - 1) / 2)) as h eqn:Eh.
    assert (h < length seg)%nat as Hh by lia.
    assert (∃ s1 s2, seg = s1 ++ s2 ∧ length s1 = h) as (s1 & s2 & -> & Hs1).
    { exists (take h seg), (drop h seg).
      split; [by rewrite take_drop | rewrite length_take; lia]. }
    rewrite length_app in *.
    destruct (IH (length s1) ltac:(lia) s1 eq_refl) as (s1' & Hsort1 & Hperm1 & Hrun1).
    destruct (IH (length s2) ltac:(lia) s2 eq_refl) as (s2' & Hsort2 & Hperm2 & Hrun2).
    assert (length s1' = length s1) as Hlen1 by (by rewrite Hperm1).
    assert (length s2' = length s2) as Hlen2 by (by rewrite Hperm2).
    exists (list_merge string_le s1' s2'). split; [|split].
    + by apply (Sorted_list_merge string_le).
    + by rewrite merge_Permutation, Hperm1, Hperm2.
    + intros [|fuel] pre post Hfuel; [lia|]. cbn [mergeSortStringsHelper].
      destruct (Z.of_nat (length pre)
                <? Z.of_nat (length pre) + Z.of_nat (length s1 + length s2) - 1)
        eqn:E; [|lia].
      cbv zeta.
      assert (Z.of_nat (length pre)
              + (Z.of_nat (length pre) + Z.of_nat (length s1 + length s2) - 1
                 - Z.of_nat (length pre)) `quot` 2
              = Z.of_nat (length pre) + Z.of_nat (length s1) - 1) as ->.
      { rewrite Z.quot_div_nonneg by lia. lia. }
      rewrite <- (app_assoc s1 s2 post).
      rewrite (Hrun1 fuel pre (s2 ++ post)) by lia. cbn [obind].
      specialize (Hrun2 fuel (pre ++ s1') post ltac:(lia)).
      rewrite length_app, Hlen1 in Hrun2.
      replace (Z.of_nat (length pre) + Z.of_nat (length s1) - 1 + 1)
        with (Z.of_nat (length pre + length s1)) by lia.
      replace (Z.of_nat (length pre) + Z.of_nat (length s1 + length s2) - 1)
        with (Z.of_nat (length pre + length s1) + Z.of_nat (length s2) - 1) by lia.
      rewrite <- app_assoc in Hrun2. rewrite Hrun2. cbn [obind].
      pose proof (mergeStrings_spec (S fuel) pre s1' s2' post ltac:(lia)) as Hm.
      rewrite Hlen1, Hlen2 in Hm.
      replace (Z.of_nat (length pre + length s1))
        with (Z.of_nat (length pre) + Z.of_nat (length s1)) by lia.
      replace (Z.of_nat (length pre) + Z.of_nat (length s1) - 1 + 1 - 1)
        with (Z.of_nat (length pre) + Z.of_nat (length s1) - 1) by lia.
      rewrite <- (app_assoc pre s1'). exact Hm.
Qed.

(** X29.  [MergeSortStrings] returns an array holding the strings of its
    argument in non-descending byte-wise order.  The argument array is not
    changed.  For more than one string the result is a newly made array; a
    shorter argument is returned as it is. *)
Theorem MergeSortStrings_correct (m : gmap positive (list string)) arr a :
  elements_of m arr = Done a →
  ∃ m' res out,
    (∀ fuel, (length a < fuel)%nat → MergeSortStrings fuel m arr = Done (m', res))
    ∧ elements_of m' res = Done out
    ∧ Sorted string_le out ∧ out ≡ₚ a
    ∧ (∀ b, is_Some (m !! b) → m' !! b = m !! b)
    ∧ elements_of m' arr = Done a
    ∧ ((1 < length a)%nat → m !! base res = None)
    ∧ ((length a ≤ 1)%nat → res = arr ∧ m' = m).
Proof.
  intros Ha. destruct (decide (length a ≤ 1)%nat) as [Hshort|Hlong].
  - exists m, arr, a.
    split; [|split; [done|split; [|split; [done|split; [done|split; [done|split]]]]]].
    + intros fuel _. unfold MergeSortStrings. rewrite Ha. cbn [obind].
      destruct (Z.of_nat (length a) <=? 1) eqn:E; [done | lia].
    + destruct a as [|x [|y a]]; [constructor | | simpl in Hshort; lia].
      by repeat constructor.
    + lia.
    + done.
  - destruct (mergeSortStringsHelper_spec a) as (out & Hsort & Hperm & Hrun).
    exists (<[fresh (dom m) := out]> m), (mkSlice (fresh (dom m)) 0 (length out)), out.
    split; [|split; [|split; [done|split; [done|split; [|split; [|split]]]]]].
    + intros fuel Hfuel. unfold MergeSortStrings. rewrite Ha. cbn [obind].
      destruct (Z.of_nat (length a) <=? 1) eqn:E; [lia|].
      rewrite make_spec. cbn [obind]. rewrite copy_full.
      specialize (Hrun fuel [] [] Hfuel). rewrite !app_nil_r in Hrun.
      change (mergeSortStringsHelper fuel a 0 (Z.of_nat (length a) - 1) = Done out)
        in Hrun.
      by rewrite Hrun.
    + apply elements_of_fresh.
    + intros b Hb. by apply lookup_insert_fresh.
    + by apply elements_of_insert_fresh.
    + intros _. apply lookup_fresh_None.
    + lia.
Qed.

Lemma MergeSortStrings_correct_witness :
  elements_of store_test5 (mkSlice 1 0 4)
  = Done ["banana"; "apple"; "cherry"; "date"]%string
  ∧ ∃ m' res,
      MergeSortStrings 5 store_test5 (mkSlice 1 0 4) = Done (m', res)
      ∧ elements_of m' res = Done ["apple"; "banana"; "cherry"; "date"]%string
      ∧ elements_of m' (mkSlice 1 0 4)
        = Done ["banana"; "apple"; "cherry"; "date"]%string.
Proof.
  assert (elements_of store_test5 (mkSlice 1 0 4)
          = Done ["banana"; "apple"; "cherry"; "date"]%string) as Ha
    by (vm_compute; reflexivity).
  split; [exact Ha|].
  destruct (MergeSortStrings_correct _ _ _ Ha)
    as (m' & res & out & Hrun & Hout & _ & _ & _ & Hin & _).
  specialize (Hrun 5%nat ltac:(simpl; lia)).
  exists m', res. split; [exact Hrun|]. split; [|exact Hin].
  rewrite Hout. vm_compute in Hrun. injection Hrun as <- <-.
  vm_compute in Hout. exact (eq_sym Hout).
Defined.

Lemma strings_equal_from_spec (pa pb a b : list string) :
  length pa = length pb → length a = length b →
  strings_equal_from (length a) (pa ++ a) (pb ++ b) (Z.of_nat (length pa))
  = Done (bool_decide (a = b)).
Proof.
  revert pa pb b. induction a as [|x a IH]; intros pa pb [|y b] Hp Hl; try done.
  cbn [length strings_equal_from]. rewrite index_middle. cbn [obind].
  rewrite Hp, index_middle. cbn [obind].
  destruct (String.eqb_spec x y) as [->|Hne]; cbn [negb].
  - specialize (IH (pa ++ [y]) (pb ++ [y]) b).
    rewrite !length_app in IH. cbn [length] in IH.
    rewrite <- !app_assoc in IH. cbn [app] in IH.
    replace (Z.of_nat (length pa + 1)) with (Z.of_nat (length pb) + 1) in IH by lia.
    rewrite IH; [|lia | by injection Hl]. f_equal.
    apply bool_decide_ext. split; [by intros -> | by intros [= ->]].
  - f_equal. symmetry. apply bool_decide_eq_false. by intros [= ? ?].
Qed.

(** X30.  [stringSlicesEqual] never indexes out of range and returns
    whether its two arguments hold the same strings in the same order. *)
Theorem stringSlicesEqual_correct (a b : list string) :
  stringSlicesEqual a b = Done (bool_decide (a = b)).
Proof.
  unfold stringSlicesEqual.
  destruct (Z.eqb_spec (Z.of_nat (length a)) (Z.of_nat (length b))) as [Hl|Hl]; cbn [negb].
  - apply (strings_equal_from_spec [] [] a b); [done | lia].
  - f_equal. symmetry. apply bool_decide_eq_false. intros ->. lia.
Qed.

End StringsSort.
